(** * A chained hash table with a cached first-bucket cursor

    Shallow embedding of [Project2/hashtable.hpp]: the class [HashTable],
    its nested [Iterator] and every member function, followed by the
    properties of the table that the specification states.

    Modelling conventions.
    - [std::vector<std::forward_list<HashNode>>] is a list of lists; a
      vector iterator is its offset from [buckets.begin()], so
      [buckets.end()] is the length of the vector.
    - A [forward_list] iterator is the pair of the bucket that owns the
      list and a position in it: position [0] is [before_begin()],
      position [j > 0] is the j-th node, position [length + 1] is [end()].
      The node that an iterator with before-position [i] denotes is
      therefore the node at (0-based) index [i] of the chain.
    - [size_t] counters are integers in [Z]: each of them counts live nodes
      or vector slots, which the address space bounds well below [2^64],
      so [++tableSize] and [bucketSize() * 2] do not wrap.
    - A [double] is an IEEE 754 binary64 number, in the representation of
      the standard library's [SpecFloat]: the quotient is rounded to the
      nearest double, ties to even, the conversion of a [size_t] above
      [2^53] rounds in the same way, division by zero produces an infinity
      or NaN, and every comparison with NaN is false.
    - [buckets.resize(n)] throws [std::length_error] when [n] exceeds
      [max_size()]; within [max_size()] the allocator is taken to satisfy
      the request, as it is for the nodes of the chains.
    - An exception leaves the member function with [Throw]; undefined
      behaviour of C++ (a remainder by zero, an access through a position
      that denotes no node) is the outcome [Undefined].
    - [rehash] and [insert] call each other; the recursion is cut by a
      fuel argument, and [OutOfFuel] is the only outcome the fuel adds. *)

From Stdlib Require Import ZArith Lia String.
From Stdlib Require Import SpecFloat.
From stdpp Require Import base list.

Local Open Scope Z_scope.

(** ** Doubles *)

(** Binary64: 53 bits of precision, exponents below 1024. A finite
    non-zero double is [S754_finite s m e], of value [(-1)^s * m * 2^e],
    with [m] of 53 bits for a normal number. *)
Abbreviation double := spec_float (only parsing).

Definition prec : Z := 53.
Definition emax : Z := 1024.

(** [x / y] *)
Definition ddiv (x y : double) : double := SFdiv prec emax x y.

(** [x <= y], [x < y], [x >= y] and [x > y] *)
Definition dle (x y : double) : bool := SFleb x y.
Definition dlt (x y : double) : bool := SFltb x y.
Definition dge (x y : double) : bool := dle y x.
Definition dgt (x y : double) : bool := dlt y x.

(** [static_cast<double>] of a [size_t] *)
Definition of_size (n : Z) : double := binary_normalize prec emax n 0 false.

(** [ceil] and [floor]: a double with a non-negative exponent is an
    integer already; otherwise the integer next to [m / 2^(-e)] on the
    side asked for, which has at most 53 bits and keeps the sign of the
    argument when it is zero. *)
Definition integral (up : bool) (x : double) : double :=
  match x with
  | S754_finite s m e =>
      if 0 <=? e then x
      else
        let k := 2 ^ (- e) in
        let q := Z.pos m / k in
        let q' := if Z.pos m mod k =? 0 then q else q + 1 in
        let z := if s then (if up then - q else - q')
                 else (if up then q' else q) in
        binary_normalize prec emax z 0 s
  | _ => x
  end.

Definition dceil (x : double) : double := integral true x.
Definition dfloor (x : double) : double := integral false x.

Arguments ddiv : simpl never.
Arguments dle : simpl never.
Arguments dlt : simpl never.
Arguments dge : simpl never.
Arguments dgt : simpl never.
Arguments of_size : simpl never.
Arguments dceil : simpl never.
Arguments dfloor : simpl never.

(** The literals of the source: [0.5] and [1e-9], the doubles nearest to
    1/2 and to 1/10^9. *)
Definition literal_0_5 : double := S754_finite false 4503599627370496 (-53).
Definition literal_1e_9 : double := S754_finite false 4835703278458517 (-82).

(** ** Outcomes of a member function *)

Inductive exception : Type :=
| range_error (what : string)      (* std::range_error *)
| out_of_range (what : string)     (* std::out_of_range, from vector::at *)
| length_error (what : string).    (* std::length_error, from vector::resize *)

(** The class of an exception object, which is what a handler selects on. *)
Inductive exception_class : Type :=
| std_range_error
| std_out_of_range
| std_length_error.

Definition class_of (e : exception) : exception_class :=
  match e with
  | range_error _ => std_range_error
  | out_of_range _ => std_out_of_range
  | length_error _ => std_length_error
  end.

(** The exceptions that a failed sizing request, bucket access or
    allocation of the buckets raises. *)
Definition sizing_failure (e : exception) : Prop :=
  e = range_error "Out of range." ∨ e = out_of_range "vector::at" ∨
  e = length_error "vector::_M_default_append".

(** The exceptions of a table that cannot grow: no size is left in the
    size table, or the size is more than the vector can hold. *)
Definition growth_failure (e : exception) : Prop :=
  e = range_error "Out of range." ∨ e = length_error "vector::_M_default_append".

Inductive result (A : Type) : Type :=
| Ret (a : A)
| Throw (e : exception)
| Undefined
| OutOfFuel.

Arguments Ret {A} a.
Arguments Throw {A} e.
Arguments Undefined {A}.
Arguments OutOfFuel {A}.

#[export] Instance result_bind : MBind result := λ A B f m,
  match m with
  | Ret a => f a
  | Throw e => Throw e
  | Undefined => Undefined
  | OutOfFuel => OutOfFuel
  end.

(** [std::lower_bound(first, last, bound)] over the ascending size table:
    the first size [p] for which [p < bound] does not hold, [p] being
    converted to [double] for the comparison. *)
Fixpoint lower_bound (sizes : list Z) (bound : double) : option Z :=
  match sizes with
  | [] => None
  | p :: rest => if dlt (of_size p) bound then lower_bound rest bound else Some p
  end.

(** [std::vector<std::forward_list<HashNode>>::max_size()]. The value is
    the one of libstdc++ on a 64-bit target, [PTRDIFF_MAX / sizeof(T)],
    a [forward_list] being one pointer of 8 bytes; no property below
    depends on it beyond the examples lying within it. *)
Definition max_size : Z := 2 ^ 60 - 1.

(** ** The iterator *)

Record Iterator : Type := mkIterator {
  bucketIt : nat;                 (* an iterator of the buckets *)
  listItBefore : nat * nat;       (* owning bucket, before-position *)
  endFlag : bool                  (* whether it is an end iterator *)
}.

(** [operator==] and [operator!=] *)
Definition Iterator_eq (a b : Iterator) : bool :=
  if endFlag a && endFlag b then true
  else if negb (bucketIt a =? bucketIt b)%nat then false
  else bool_decide (listItBefore a = listItBefore b).

Definition Iterator_neq (a b : Iterator) : bool :=
  if endFlag a && endFlag b then false
  else if negb (bucketIt a =? bucketIt b)%nat then true
  else negb (bool_decide (listItBefore a = listItBefore b)).

(** The iterator that denotes the node at a position. *)
Definition iterator_at (p : nat * nat) : Iterator := mkIterator p.1 p false.

(** ** The table *)

(** The typedefs of the class. *)
Abbreviation HashNode Key Value := (Key * Value)%type (only parsing).
Abbreviation HashNodeList Key Value := (list (Key * Value)) (only parsing).
Abbreviation HashTableData Key Value := (list (list (Key * Value))) (only parsing).

Section HashTable.

Context {Key Value : Type}.

(** The template parameters [Hash] and [KeyEqual] are stateless function
    objects; [Value()] is the default value that [operator[]] inserts. *)
Variable hash : Key → Z.
Variable keyEqual : Key → Key → bool.
Variable Value_default : Value.

(** [HashPrime::g_a_sizes], of length [HashPrime::num_distinct_sizes]:
    [hash_prime.hpp] is not part of the sources, the table is a parameter. *)
Variable g_a_sizes : list Z.

Local Abbreviation HashNode := (HashNode Key Value).
Local Abbreviation HashNodeList := (HashNodeList Key Value).
Local Abbreviation HashTableData := (HashTableData Key Value).

Record HashTable : Type := mkHashTable {
  buckets : HashTableData;
  firstBucketIt : nat;
  tableSize : Z;
  maxLoadFactor : double
}.

Definition DEFAULT_LOAD_FACTOR : double := literal_0_5.
Definition DEFAULT_BUCKET_SIZE : Z := hd 0 g_a_sizes.

Definition set_buckets (bs : HashTableData) (t : HashTable) : HashTable :=
  mkHashTable bs (firstBucketIt t) (tableSize t) (maxLoadFactor t).
Definition set_firstBucketIt (i : nat) (t : HashTable) : HashTable :=
  mkHashTable (buckets t) i (tableSize t) (maxLoadFactor t).
Definition set_tableSize (n : Z) (t : HashTable) : HashTable :=
  mkHashTable (buckets t) (firstBucketIt t) n (maxLoadFactor t).
Definition set_maxLoadFactor (f : double) (t : HashTable) : HashTable :=
  mkHashTable (buckets t) (firstBucketIt t) (tableSize t) f.

(** [buckets.end() - buckets.begin()] *)
Definition buckets_end (t : HashTable) : nat := length (buckets t).

Definition size (t : HashTable) : Z := tableSize t.
Definition bucketSize (t : HashTable) : Z := Z.of_nat (length (buckets t)).
Definition loadFactor (t : HashTable) : double :=
  ddiv (of_size (tableSize t)) (of_size (bucketSize t)).
Definition getMaxLoadFactor (t : HashTable) : double := maxLoadFactor t.

(** [Iterator(hashTable, vectorIt, listItBefore)] *)
Definition new_Iterator (t : HashTable) (vectorIt : nat) (l : nat * nat) : Iterator :=
  mkIterator vectorIt l (vectorIt =? buckets_end t)%nat.

(** [hash(key) % buckets.size()] *)
Definition hashKey (key : Key) (t : HashTable) : result nat :=
  if bucketSize t =? 0 then Undefined
  else Ret (Z.to_nat (hash key mod bucketSize t)).

(** [buckets.at(i)] *)
Definition buckets_at (t : HashTable) (i : nat) : result HashNodeList :=
  match buckets t !! i with
  | Some chain => Ret chain
  | None => Throw (out_of_range "vector::at")
  end.

Definition findMinimumBucketSize (bucketSize0 : Z) (t : HashTable) : result Z :=
  if dge (ddiv (of_size (tableSize t)) (of_size (bucketSize t)))
         (maxLoadFactor t) then
    let bound := dceil (ddiv (of_size (tableSize t)) (maxLoadFactor t)) in
    match lower_bound g_a_sizes bound with
    | None => Throw (range_error "Out of range.")
    | Some p => Ret p
    end
  else Ret bucketSize0.

(** [HashTable()] *)
Definition HashTable_new : HashTable :=
  let n := Z.to_nat DEFAULT_BUCKET_SIZE in
  mkHashTable (replicate n []) n 0 DEFAULT_LOAD_FACTOR.

(** [buckets.resize(n)] on the empty vector: [n] value-initialised
    chains, or [std::length_error] when [n] exceeds [max_size()]. *)
Definition resize_empty (n : Z) : result HashTableData :=
  if max_size <? n then Throw (length_error "vector::_M_default_append")
  else Ret (resize (Z.to_nat n) [] []).

(** [HashTable(size_t bucketSize)]: [findMinimumBucketSize] runs on the
    members as the initialiser list leaves them, with [buckets] still
    empty ([firstBucketIt] is not read before it is assigned). *)
Definition HashTable_sized (bucketSize0 : Z) : result HashTable :=
  let this := mkHashTable [] 0 0 DEFAULT_LOAD_FACTOR in
  n ← findMinimumBucketSize bucketSize0 this;
  bs ← resize_empty n;
  let this := set_buckets bs this in
  Ret (set_firstBucketIt (buckets_end this) this).

(** Copy construction and assignment: the cursor is rebuilt as an offset
    into the copied vector. *)
Definition HashTable_copy (that : HashTable) : HashTable :=
  mkHashTable (buckets that) (0 + (firstBucketIt that - 0))%nat
              (tableSize that) (maxLoadFactor that).

Definition assign (this that : HashTable) : HashTable :=
  let this := set_buckets (buckets that) this in
  let this := set_tableSize (tableSize that) this in
  let this := set_maxLoadFactor (maxLoadFactor that) this in
  set_firstBucketIt (0 + (firstBucketIt that - 0))%nat this.

(** [end()] and [begin()] *)
Definition end_ (t : HashTable) : Iterator :=
  new_Iterator t (buckets_end t) (0%nat, 0%nat).

Definition begin (t : HashTable) : Iterator :=
  if negb (firstBucketIt t =? buckets_end t)%nat
  then new_Iterator t (firstBucketIt t) (firstBucketIt t, 0%nat)
  else end_ t.

(** The forward scan for a non-empty bucket, shared by [increment] and
    [erase]: [bs] is the part of the vector from offset [i] on; the result
    is the offset of its first non-empty bucket, or [buckets.end()]. *)
Fixpoint scan_nonempty (bs : HashTableData) (i : nat) : nat :=
  match bs with
  | [] => i
  | b :: rest => match b with
                 | [] => scan_nonempty rest (S i)
                 | _ :: _ => i
                 end
  end.

(** [operator*] and [operator->]: the node after the before-position. *)
Definition deref (it : Iterator) (t : HashTable) : result HashNode :=
  match buckets t !! (listItBefore it).1 with
  | None => Undefined
  | Some chain => match chain !! (listItBefore it).2 with
                  | None => Undefined
                  | Some node => Ret node
                  end
  end.

(** [Iterator::increment] *)
Definition increment (it : Iterator) (t : HashTable) : result Iterator :=
  if (bucketIt it =? buckets_end t)%nat then
    Ret (mkIterator (bucketIt it) (listItBefore it) true)
  else
    match buckets t !! bucketIt it with
    | None => Undefined
    | Some chain =>
        let '(owner, i) := listItBefore it in
        if negb (owner =? bucketIt it)%nat || (length chain <? i)%nat then Undefined
        else if (i <? length chain)%nat && (i + 1 <? length chain)%nat then
          Ret (mkIterator (bucketIt it) (owner, S i) (endFlag it))
        else
          let b := scan_nonempty (drop (S (bucketIt it)) (buckets t)) (S (bucketIt it)) in
          if (b =? buckets_end t)%nat
          then Ret (mkIterator b (listItBefore it) true)
          else Ret (mkIterator b (b, 0%nat) (endFlag it))
    end.

(** The chain walk of [find]: [it] is the before-position of the node
    under test. *)
Fixpoint find_in_chain (key : Key) (chain : HashNodeList) (it : nat) : option nat :=
  match chain with
  | [] => None
  | node :: rest =>
      if keyEqual node.1 key then Some it else find_in_chain key rest (S it)
  end.

Definition find (key : Key) (t : HashTable) : result (Iterator * HashTable) :=
  i ← hashKey key t;
  chain ← buckets_at t i;
  match find_in_chain key chain 0 with
  | Some it => Ret (new_Iterator t i (i, it), t)
  | None => Ret (new_Iterator t (buckets_end t) (0%nat, 0%nat), t)
  end.

Definition contains (key : Key) (t : HashTable) : result (bool * HashTable) :=
  '(it, t) ← find key t;
  Ret (Iterator_neq it (end_ t), t).

(** [insert(it, key, value)], with the [rehash] it calls as a parameter. *)
Definition insert_it (rehash : Z → HashTable → result HashTable)
    (it : Iterator) (key : Key) (value : Value) (t : HashTable)
  : result (bool * HashTable) :=
  if endFlag it then
    let t := set_tableSize (tableSize t + 1) t in
    i ← hashKey key t;
    chain ← buckets_at t i;
    let t := set_buckets (<[i := (key, value) :: chain]> (buckets t)) t in
    let t := if (i <? firstBucketIt t)%nat then set_firstBucketIt i t else t in
    if dgt (loadFactor t) (maxLoadFactor t) then
      t ← rehash (bucketSize t * 2) t;
      Ret (true, t)
    else Ret (true, t)
  else
    match buckets t !! (listItBefore it).1 with
    | None => Undefined
    | Some chain =>
        match chain !! (listItBefore it).2 with
        | None => Undefined
        | Some node =>
            let chain := <[(listItBefore it).2 := (node.1, value)]> chain in
            Ret (false, set_buckets (<[(listItBefore it).1 := chain]> (buckets t)) t)
        end
    end.

(** [insert(key, value)] *)
Definition insert_kv (rehash : Z → HashTable → result HashTable)
    (key : Key) (value : Value) (t : HashTable) : result (bool * HashTable) :=
  '(it, t) ← find key t;
  insert_it rehash it key value t.

(** [erase(it)] *)
Definition erase_it (it : Iterator) (t : HashTable) : result (Iterator * HashTable) :=
  if endFlag it then Ret (it, t)
  else
    match buckets t !! bucketIt it with
    | None => Undefined
    | Some chain =>
        let '(owner, i) := listItBefore it in
        if negb (owner =? bucketIt it)%nat || (length chain <=? i)%nat then Undefined
        else
          let t := set_buckets (<[bucketIt it := delete i chain]> (buckets t)) t in
          let t := set_tableSize (tableSize t - 1) t in
          if (firstBucketIt t <? bucketIt it)%nat then Ret (it, t)
          else
            let b := scan_nonempty (drop (bucketIt it) (buckets t)) (bucketIt it) in
            Ret (it, set_firstBucketIt b t)
    end.

(** [erase(key)] *)
Definition erase (key : Key) (t : HashTable) : result (bool * HashTable) :=
  '(it, t) ← find key t;
  if endFlag it then Ret (false, t)
  else
    '(_, t) ← erase_it it t;
    Ret (true, t).

(** The loop [for (it = begin(); !it.endFlag; ++it) vec.push_back( *it )]
    of [rehash]. Every step moves the iterator past one node, so the loop
    body runs at most once per node; [steps] bounds the number of runs. *)
Fixpoint drain (steps : nat) (it : Iterator) (t : HashTable)
    (vec : list HashNode) : result (list HashNode) :=
  if endFlag it then Ret vec
  else
    match steps with
    | O => OutOfFuel
    | S steps =>
        node ← deref it t;
        it ← increment it t;
        drain steps it t (vec ++ [node])
    end.

(** The loop [for (auto &[key, value] : vec) insert(key, value)]. *)
Fixpoint reinsert (insert : Key → Value → HashTable → result (bool * HashTable))
    (vec : list HashNode) (t : HashTable) : result HashTable :=
  match vec with
  | [] => Ret t
  | (key, value) :: vec =>
      '(_, t) ← insert key value t;
      reinsert insert vec t
  end.

(** [rehash(bucketSize)] *)
Fixpoint rehash (fuel : nat) (bucketSize0 : Z) (t : HashTable) : result HashTable :=
  match fuel with
  | O => OutOfFuel
  | S fuel =>
      n ← findMinimumBucketSize bucketSize0 t;
      if n =? bucketSize t then Ret t
      else
        vec ← drain (S (length (concat (buckets t)))) (begin t) t [];
        let t := set_tableSize 0 t in
        bs ← resize_empty n;
        let t := set_buckets bs t in
        let t := set_firstBucketIt (buckets_end t) t in
        reinsert (insert_kv (rehash fuel)) vec t
  end.

Definition insert_at (fuel : nat) := insert_it (rehash fuel).
Definition insert (fuel : nat) := insert_kv (rehash fuel).

(** [operator[]]: the value read through the returned reference. *)
Definition subscript (fuel : nat) (key : Key) (t : HashTable)
  : result (Value * HashTable) :=
  '(it, t) ← find key t;
  if endFlag it then
    '(_, t) ← insert fuel key Value_default t;
    '(it, t) ← find key t;
    node ← deref it t;
    Ret (node.2, t)
  else
    node ← deref it t;
    Ret (node.2, t).

(** The literal [1e-9]. *)
Definition min_load_factor : double := literal_1e_9.

Definition setMaxLoadFactor (fuel : nat) (loadFactor0 : double) (t : HashTable)
  : result HashTable :=
  if dle loadFactor0 min_load_factor then
    Throw (range_error "invalid load factor!")
  else
    let t := set_maxLoadFactor loadFactor0 t in
    rehash fuel (bucketSize t) t.

(** A full traversal [for (it = begin(); it != end(); ++it) visit(it)],
    returning the iterators in the order of the visits. *)
Fixpoint traverse_from (steps : nat) (it : Iterator) (t : HashTable)
    (seen : list Iterator) : result (list Iterator) :=
  if negb (Iterator_neq it (end_ t)) then Ret seen
  else
    match steps with
    | O => OutOfFuel
    | S steps =>
        it' ← increment it t;
        traverse_from steps it' t (seen ++ [it])
    end.

Definition traverse (steps : nat) (t : HashTable) : result (list Iterator) :=
  traverse_from steps (begin t) t [].

(** ** Well-formed tables and reachable states *)

(** The number of nodes in the chains. *)
Definition node_count (t : HashTable) : nat := length (concat (buckets t)).

(** [i] is the offset of the first non-empty bucket of [bs], and the
    offset of [end()] when every bucket is empty. *)
Definition first_occupied (bs : HashTableData) (i : nat) : Prop :=
  (i ≤ length bs)%nat ∧
  (∀ j chain, (j < i)%nat → bs !! j = Some chain → chain = []) ∧
  (∀ chain, bs !! i = Some chain → chain ≠ []).

(** The counter is the number of nodes, the cursor is the first non-empty
    bucket, and the threshold is one that [setMaxLoadFactor] accepts. *)
Record wf (t : HashTable) : Prop := mk_wf {
  wf_size : tableSize t = Z.of_nat (node_count t);
  wf_first : first_occupied (buckets t) (firstBucketIt t);
  wf_max : dle (maxLoadFactor t) min_load_factor = false
}.

(** One mutating operation of the public interface that completes
    without throwing. *)
Inductive mutates : HashTable → HashTable → Prop :=
| mut_insert fuel key value t b t' :
    insert fuel key value t = Ret (b, t') → mutates t t'
| mut_insert_at fuel it key value t b t' :
    insert_at fuel it key value t = Ret (b, t') → mutates t t'
| mut_erase key t b t' :
    erase key t = Ret (b, t') → mutates t t'
| mut_erase_it it t it' t' :
    erase_it it t = Ret (it', t') → mutates t t'
| mut_subscript fuel key t v t' :
    subscript fuel key t = Ret (v, t') → mutates t t'
| mut_rehash fuel n t t' :
    rehash fuel n t = Ret t' → mutates t t'
| mut_setMaxLoadFactor fuel f t t' :
    setMaxLoadFactor fuel f t = Ret t' → mutates t t'
| mut_copy t :
    mutates t (HashTable_copy t)
| mut_assign this t :
    mutates t (assign this t).

(** The states a program can bring a table to. *)
Inductive reachable : HashTable → Prop :=
| reach_new : reachable HashTable_new
| reach_sized n t : HashTable_sized n = Ret t → reachable t
| reach_step t t' : reachable t → mutates t t' → reachable t'.

(** The key is stored where [find] looks for it. *)
Definition found (key : Key) (t : HashTable) : Prop :=
  ∃ it t', find key t = Ret (it, t') ∧ endFlag it = false.

(** ** The documented contract of [findMinimumBucketSize] *)

Definition meets_requirements (lowerBound : Z) (t : HashTable) (p : Z) : Prop :=
  p ∈ g_a_sizes ∧ lowerBound ≤ p ∧
  dlt (dfloor (ddiv (of_size (tableSize t)) (maxLoadFactor t))) (of_size p) = true.

Definition minimum_bucket_size (lowerBound : Z) (t : HashTable) (p : Z) : Prop :=
  meets_requirements lowerBound t p ∧
  ∀ q, meets_requirements lowerBound t q → p ≤ q.

(** All before-positions that denote a node, bucket by bucket. *)
Fixpoint positions_from (bs : HashTableData) (i : nat) : list (nat * nat) :=
  match bs with
  | [] => []
  | chain :: rest => ((λ j, (i, j)) <$> seq 0 (length chain)) ++ positions_from rest (S i)
  end.

Definition positions (t : HashTable) : list (nat * nat) :=
  positions_from (buckets t) 0.

(** The iterator after the one at node [j] of bucket [i]. *)
Definition next_position (bs : HashTableData) (i j : nat) : Iterator :=
  match bs !! i with
  | Some chain =>
      if (S j <? length chain)%nat then mkIterator i (i, S j) false
      else
        let b := scan_nonempty (drop (S i) bs) (S i) in
        if (b =? length bs)%nat then mkIterator b (i, j) true
        else mkIterator b (b, 0%nat) false
  | None => mkIterator i (i, j) false
  end.

(** ** The table as a finite map *)

(** The requirements of the standard on the template parameters:
    [KeyEqual] is an equivalence and [Hash] respects it. *)
Record key_requirements : Prop := mk_key_requirements {
  keyEqual_refl : ∀ a, keyEqual a a = true;
  keyEqual_sym : ∀ a b, keyEqual a b = true → keyEqual b a = true;
  keyEqual_trans : ∀ a b c, keyEqual a b = true → keyEqual b c = true → keyEqual a c = true;
  hash_equal : ∀ a b, keyEqual a b = true → hash a = hash b
}.

(** The value under a key: what [find(key)->second] reads when [find]
    finds the key. *)
Definition value_at (key : Key) (t : HashTable) : option Value :=
  match find key t with
  | Ret (it, t') =>
      if endFlag it then None
      else match deref it t' with
           | Ret node => Some node.2
           | _ => None
           end
  | _ => None
  end.

(** The value of the first node of a chain whose key equals [key]. *)
Definition chain_value (key : Key) (chain : HashNodeList) : option Value :=
  match find_in_chain key chain 0 with
  | Some j => snd <$> chain !! j
  | None => None
  end.

(** The value that a key has after the nodes of [vec] were inserted one
    after the other, when it had [init] before. *)
Fixpoint last_value (key : Key) (vec : list HashNode) (init : option Value)
  : option Value :=
  match vec with
  | [] => init
  | node :: vec =>
      last_value key vec (if keyEqual node.1 key then Some node.2 else init)
  end.

(** No two nodes of the list have equal keys. *)
Fixpoint keys_distinct (chain : HashNodeList) : Prop :=
  match chain with
  | [] => True
  | node :: rest =>
      (∀ other, other ∈ rest → keyEqual node.1 other.1 = false) ∧ keys_distinct rest
  end.

(** Every node is in the bucket that its key hashes to. *)
Definition placed (t : HashTable) : Prop :=
  ∀ i chain node, buckets t !! i = Some chain → node ∈ chain →
                  hashKey node.1 t = Ret i.

Definition no_duplicates (t : HashTable) : Prop :=
  ∀ i chain, buckets t !! i = Some chain → keys_distinct chain.

Definition consistent (t : HashTable) : Prop :=
  wf t ∧ placed t ∧ no_duplicates t.

(** One mutating operation that completes, [insert(it, key, value)] being
    called as documented: with the iterator that [find(key)] returned on
    the table as it is. *)
Inductive updates : HashTable → HashTable → Prop :=
| upd_insert fuel key value t b t' :
    insert fuel key value t = Ret (b, t') → updates t t'
| upd_insert_at fuel key value t it t0 b t' :
    find key t = Ret (it, t0) →
    insert_at fuel it key value t0 = Ret (b, t') → updates t t'
| upd_erase key t b t' :
    erase key t = Ret (b, t') → updates t t'
| upd_erase_it it t it' t' :
    erase_it it t = Ret (it', t') → updates t t'
| upd_subscript fuel key t v t' :
    subscript fuel key t = Ret (v, t') → updates t t'
| upd_rehash fuel n t t' :
    rehash fuel n t = Ret t' → updates t t'
| upd_setMaxLoadFactor fuel f t t' :
    setMaxLoadFactor fuel f t = Ret t' → updates t t'
| upd_copy t :
    updates t (HashTable_copy t)
| upd_assign this t :
    updates t (assign this t).

Inductive built : HashTable → Prop :=
| built_new : built HashTable_new
| built_sized n t : HashTable_sized n = Ret t → built t
| built_step t t' : built t → updates t t' → built t'.

(** ** The statements of the specification that the code is compared with *)

(** The smallest admissible size that is not below [minBuckets]. *)
Definition smallest_admissible (minBuckets p : Z) : Prop :=
  p ∈ g_a_sizes ∧ minBuckets ≤ p ∧
  ∀ q, q ∈ g_a_sizes → minBuckets ≤ q → p ≤ q.

(** A locator encodes the bucket that the key hashes to. *)
Definition encodes_target_bucket (key : Key) (t : HashTable) (it : Iterator) : Prop :=
  hashKey key t = Ret (bucketIt it).

(** The error of [setMaxLoadFactor] is of a kind of its own: no handler
    for it catches a failed sizing request. *)
Definition invalid_argument_is_distinct : Prop :=
  ∀ fuel f t e, setMaxLoadFactor fuel f t = Throw e → dle f min_load_factor = true →
  ∀ n t2 e2, findMinimumBucketSize n t2 = Throw e2 → class_of e ≠ class_of e2.

End HashTable.

(** ** An instance for the examples

    [int] keys and values with [std::hash<int>], which converts the key
    to [size_t], and [std::equal_to<int>]. The size table is ascending and
    starts at 5, the default number of buckets that the class declares. *)
Module Sample.

Definition sizes : list Z := [5; 11; 23; 47; 97].
Definition int_hash (k : Z) : Z := k mod 2 ^ 64.
Definition int_equal (a b : Z) : bool := a =? b.

Definition Table : Type := @HashTable Z Z.

(** The thresholds of the examples: the doubles that the literals [1.0],
    [0.25], [0.01], [0.6] and [0.8] denote, and [0.7999999999999999],
    which is also the value of [0.7 + 0.1]: the double just below the one
    nearest to 4/5. *)
Definition literal_1 : double := S754_finite false 4503599627370496 (-52).
Definition literal_0_25 : double := S754_finite false 4503599627370496 (-54).
Definition literal_0_01 : double := S754_finite false 5764607523034235 (-59).
Definition literal_0_6 : double := S754_finite false 5404319552844595 (-53).
Definition literal_0_8 : double := S754_finite false 7205759403792794 (-53).
Definition below_0_8 : double := S754_finite false 7205759403792793 (-53).

Definition empty : Table := HashTable_new sizes.

(** The bucket vectors of the tables that the examples go through. *)
Definition one : Table :=
  mkHashTable [[]; [(1, 10)]; []; []; []] 1 1 literal_0_5.
Definition two : Table :=
  mkHashTable [[]; [(1, 10)]; [(2, 20)]; []; []] 1 2 literal_0_5.
Definition three : Table :=
  mkHashTable [[]; [(1, 10)]; [(2, 20)]; [(3, 30)]; []; []; []; []; []; []; []]
    1 3 literal_0_5.

(** Five keys in five buckets under the threshold 1. *)
Definition full : Table :=
  mkHashTable [[(5, 50)]; [(1, 10)]; [(2, 20)]; [(3, 30)]; [(4, 40)]] 0 5 literal_1.

(** One key in five buckets under the threshold 0.01. *)
Definition crowded : Table :=
  mkHashTable [[]; [(1, 10)]; []; []; []] 1 1 literal_0_01.

(** [two] after [erase(1)], after [rehash(23)], after
    [setMaxLoadFactor(0.25)], and [one] after [operator[]] on key 2. *)
Definition erased : Table :=
  mkHashTable [[]; []; [(2, 20)]; []; []] 2 1 literal_0_5.
Definition spread : Table :=
  mkHashTable ([[]; [(1, 10)]; [(2, 20)]] ++ replicate 20 []) 1 2 literal_0_5.
Definition quarter : Table :=
  mkHashTable ([[]; [(1, 10)]; [(2, 20)]] ++ replicate 8 []) 1 2 literal_0_25.
Definition defaulted : Table :=
  mkHashTable [[]; [(1, 10)]; [(2, 0)]; []; []] 1 2 literal_0_5.

(** [two] after [rehash(6)]. *)
Definition six : Table :=
  mkHashTable [[]; [(1, 10)]; [(2, 20)]; []; []; []] 1 2 literal_0_5.

(** The default table after [setMaxLoadFactor(0.7999999999999999)] and
    the insertion of the keys 1, 2 and 3, and after the insertion of 4. *)
Definition loaded : Table :=
  mkHashTable [[]; [(1, 10)]; [(2, 20)]; [(3, 30)]; []] 1 3 below_0_8.
Definition overloaded : Table :=
  mkHashTable [[]; [(1, 10)]; [(2, 20)]; [(3, 30)]; [(4, 40)]] 1 4 below_0_8.

End Sample.

(** * Properties *)

(** ** Comparisons and the size table *)

Lemma dgt_dge (x y : double) : dgt x y = true → dge x y = true.
Proof.
  unfold dgt, dge, dlt, dle, SFltb, SFleb.
  by destruct (SFcompare y x) as [[]|].
Qed.

Lemma dge_false_dgt (x y : double) : dge x y = false → dgt x y = false.
Proof.
  intros H. destruct (dgt x y) eqn:E; [|done].
  apply dgt_dge in E. congruence.
Qed.

(** The size that [lower_bound] returns is a size of the table that is
    not below the bound. *)
Lemma lower_bound_ge (sizes : list Z) (bound : double) (p : Z) :
  lower_bound sizes bound = Some p → dlt (of_size p) bound = false ∧ p ∈ sizes.
Proof.
  induction sizes as [|a sizes IH]; simpl; [done|].
  destruct (dlt (of_size a) bound) eqn:E.
  - intros H. destruct (IH H) as [? ?]. split; [done | by right].
  - intros [= <-]. split; [done | by left].
Qed.

(** Every size before the one that [lower_bound] returns is below the bound. *)
Lemma lower_bound_first (sizes : list Z) (bound : double) (p : Z) :
  lower_bound sizes bound = Some p →
  ∃ pre post, sizes = pre ++ p :: post ∧ ∀ a, a ∈ pre → dlt (of_size a) bound = true.
Proof.
  induction sizes as [|a sizes IH]; simpl; [done|].
  destruct (dlt (of_size a) bound) eqn:E.
  - intros H. destruct (IH H) as (pre & post & -> & Hpre).
    exists (a :: pre), post. split; [done|].
    intros b [->|Hb]%elem_of_cons; [done | by apply Hpre].
  - intros [= <-]. exists [], sizes. split; [done|]. by intros b ?%elem_of_nil.
Qed.

Lemma lower_bound_none (sizes : list Z) (bound : double) :
  lower_bound sizes bound = None ↔ ∀ a, a ∈ sizes → dlt (of_size a) bound = true.
Proof.
  induction sizes as [|a sizes IH]; simpl.
  - split; [|done]. by intros _ b ?%elem_of_nil.
  - destruct (dlt (of_size a) bound) eqn:E.
    + rewrite IH. split.
      * intros H b [->|Hb]%elem_of_cons; [done | by apply H].
      * intros H b Hb. apply H. by right.
    + split; [done|]. intros H. rewrite (H a) in E; [done | by left].
Qed.

Section Buckets.

Context {Key Value : Type}.
Implicit Types (bs : HashTableData Key Value) (chain : HashNodeList Key Value).

(** ** The forward scan *)

Lemma scan_nonempty_bounds bs i :
  (i ≤ scan_nonempty bs i ≤ i + length bs)%nat.
Proof.
  revert i. induction bs as [|[|node chain] bs IH]; intros i; simpl; [lia| |lia].
  specialize (IH (S i)). lia.
Qed.

Lemma scan_nonempty_skipped bs i j chain :
  (i + j < scan_nonempty bs i)%nat → bs !! j = Some chain → chain = [].
Proof.
  revert i j. induction bs as [|[|node c] bs IH]; intros i j; simpl; [done| |lia].
  destruct j as [|j]; simpl; [by intros _ [= <-]|].
  intros H. apply (IH (S i)). lia.
Qed.

Lemma scan_nonempty_hit bs i chain :
  bs !! (scan_nonempty bs i - i)%nat = Some chain → chain ≠ [].
Proof.
  revert i. induction bs as [|[|node c] bs IH]; intros i; simpl; [done| |].
  - pose proof (scan_nonempty_bounds bs (S i)).
    replace (scan_nonempty bs (S i) - i)%nat
      with (S (scan_nonempty bs (S i) - S i)) by lia.
    simpl. apply IH.
  - replace (i - i)%nat with 0%nat by lia. by intros [= <-].
Qed.

Lemma scan_nonempty_all_empty bs i :
  (∀ j chain, bs !! j = Some chain → chain = []) →
  scan_nonempty bs i = (i + length bs)%nat.
Proof.
  revert i. induction bs as [|c bs IH]; intros i H; simpl; [lia|].
  rewrite (H 0%nat c eq_refl). rewrite IH; [lia|].
  intros j chain Hj. by apply (H (S j)).
Qed.

(** ** The first occupied bucket *)

Lemma first_occupied_unique bs i j :
  first_occupied bs i → first_occupied bs j → i = j.
Proof.
  intros (Hi & Hbefore_i & Hat_i) (Hj & Hbefore_j & Hat_j).
  destruct (Nat.lt_trichotomy i j) as [Hlt|[->|Hlt]]; [|done|].
  - destruct (lookup_lt_is_Some_2 bs i) as [c Hc]; [lia|].
    exfalso. apply (Hat_i c Hc). by apply (Hbefore_j i).
  - destruct (lookup_lt_is_Some_2 bs j) as [c Hc]; [lia|].
    exfalso. apply (Hat_j c Hc). by apply (Hbefore_i j).
Qed.

(** Scanning from an offset before which every bucket is empty finds the
    first occupied bucket. *)
Lemma first_occupied_scan bs i :
  (i ≤ length bs)%nat →
  (∀ j chain, (j < i)%nat → bs !! j = Some chain → chain = []) →
  first_occupied bs (scan_nonempty (drop i bs) i).
Proof.
  intros Hi Hbefore.
  pose proof (scan_nonempty_bounds (drop i bs) i) as Hb.
  rewrite length_drop in Hb.
  split; [lia|]. split.
  - intros j chain Hj Hlook.
    destruct (decide (j < i)%nat) as [Hlt|Hge]; [by apply (Hbefore j)|].
    apply (scan_nonempty_skipped (drop i bs) i (j - i)%nat); [lia|].
    rewrite lookup_drop. by replace (i + (j - i))%nat with j by lia.
  - intros chain Hlook.
    apply (scan_nonempty_hit (drop i bs) i).
    rewrite lookup_drop.
    by replace (i + (scan_nonempty (drop i bs) i - i))%nat
      with (scan_nonempty (drop i bs) i) by lia.
Qed.

Lemma first_occupied_replicate n :
  first_occupied (replicate n ([] : HashNodeList Key Value)) n.
Proof.
  split; [by rewrite length_replicate|]. split.
  - by intros j chain _ [-> _]%lookup_replicate.
  - intros chain [_ Hlt]%lookup_replicate. lia.
Qed.

Lemma concat_nil_lookup bs j chain :
  concat bs = [] → bs !! j = Some chain → chain = [].
Proof.
  revert j. induction bs as [|c bs IH]; intros j; simpl; [done|].
  intros [-> Hnil]%app_eq_nil. destruct j as [|j]; simpl.
  - by intros [= <-].
  - by apply IH.
Qed.

Lemma first_occupied_end bs :
  first_occupied bs (length bs) ↔ concat bs = [].
Proof.
  split.
  - intros (_ & Hbefore & _).
    induction bs as [|c bs IH]; [done|]. simpl.
    rewrite (Hbefore 0%nat c); [|simpl; lia|done]. simpl. apply IH.
    intros j chain Hj Hlook. apply (Hbefore (S j)); [simpl; lia | done].
  - intros Hnil. split; [done|]. split.
    + intros j chain _ Hlook. by apply (concat_nil_lookup bs j).
    + intros chain Hlook. apply lookup_lt_Some in Hlook. lia.
Qed.

(** Prepending a node to bucket [i] moves the cursor only if [i] is
    before it. *)
Lemma first_occupied_push bs first i chain node :
  first_occupied bs first → bs !! i = Some chain →
  first_occupied (<[i := node :: chain]> bs)
                 (if (i <? first)%nat then i else first).
Proof.
  intros (Hle & Hbefore & Hat) Hi.
  pose proof (lookup_lt_Some _ _ _ Hi) as Hlt.
  destruct (i <? first)%nat eqn:E.
  - apply Nat.ltb_lt in E. split; [rewrite length_insert; lia|]. split.
    + intros j c Hj Hlook. rewrite list_lookup_insert_ne in Hlook by lia.
      apply (Hbefore j); [lia | done].
    + intros c Hlook. rewrite list_lookup_insert_eq in Hlook by done.
      by injection Hlook as <-.
  - apply Nat.ltb_ge in E. split; [by rewrite length_insert|]. split.
    + intros j c Hj Hlook. rewrite list_lookup_insert_ne in Hlook by lia.
      by apply (Hbefore j).
    + intros c Hlook. destruct (decide (i = first)) as [->|Hne].
      * rewrite list_lookup_insert_eq in Hlook by done. by injection Hlook as <-.
      * rewrite list_lookup_insert_ne in Hlook by done. by apply Hat.
Qed.

(** A bucket that holds a node is not before the cursor. *)
Lemma first_occupied_le bs first i chain :
  first_occupied bs first → bs !! i = Some chain → chain ≠ [] → (first ≤ i)%nat.
Proof.
  intros (_ & Hbefore & _) Hi Hne.
  destruct (decide (first ≤ i)%nat); [done|].
  exfalso. apply Hne. apply (Hbefore i); [lia | done].
Qed.

(** Overwriting a bucket by one of the same emptiness keeps the cursor. *)
Lemma first_occupied_same_shape bs first i chain chain' :
  first_occupied bs first → bs !! i = Some chain →
  (chain = [] ↔ chain' = []) →
  first_occupied (<[i := chain']> bs) first.
Proof.
  intros (Hle & Hbefore & Hat) Hi Hshape.
  pose proof (lookup_lt_Some _ _ _ Hi) as Hlt.
  split; [by rewrite length_insert|]. split.
  - intros j c Hj Hlook. destruct (decide (i = j)) as [->|Hne].
    + rewrite list_lookup_insert_eq in Hlook by done. injection Hlook as <-.
      apply Hshape. by apply (Hbefore j).
    + rewrite list_lookup_insert_ne in Hlook by done. by apply (Hbefore j).
  - intros c Hlook. destruct (decide (i = first)) as [->|Hne].
    + rewrite list_lookup_insert_eq in Hlook by done. injection Hlook as <-.
      intros E. apply (Hat chain Hi). by apply Hshape.
    + rewrite list_lookup_insert_ne in Hlook by done. by apply Hat.
Qed.

(** Removing a node from bucket [i]: the cursor stays when it is before
    [i], and is found again by the scan from [i] otherwise. *)
Lemma first_occupied_pop bs first i chain chain' :
  first_occupied bs first → bs !! i = Some chain → chain ≠ [] →
  first_occupied (<[i := chain']> bs)
    (if (first <? i)%nat then first
     else scan_nonempty (drop i (<[i := chain']> bs)) i).
Proof.
  intros Hfirst Hi Hne.
  pose proof (first_occupied_le _ _ _ _ Hfirst Hi Hne) as Hle.
  destruct Hfirst as (Hlen & Hbefore & Hat).
  pose proof (lookup_lt_Some _ _ _ Hi) as Hlt.
  destruct (first <? i)%nat eqn:E.
  - apply Nat.ltb_lt in E. split; [by rewrite length_insert|]. split.
    + intros j c Hj Hlook. rewrite list_lookup_insert_ne in Hlook by lia.
      by apply (Hbefore j).
    + intros c Hlook. rewrite list_lookup_insert_ne in Hlook by lia.
      by apply Hat.
  - apply Nat.ltb_ge in E. assert (first = i) as -> by lia.
    apply first_occupied_scan; [rewrite length_insert; lia|].
    intros j c Hj Hlook. rewrite list_lookup_insert_ne in Hlook by lia.
    by apply (Hbefore j).
Qed.

(** ** Counting nodes *)

Lemma concat_insert_length bs i chain chain' :
  bs !! i = Some chain →
  (length (concat (<[i := chain']> bs)) + length chain
   = length (concat bs) + length chain')%nat.
Proof.
  intros Hi. pose proof (lookup_lt_Some _ _ _ Hi) as Hlt.
  rewrite insert_take_drop by done.
  rewrite <- (take_drop_middle bs i chain Hi) at 3.
  rewrite !concat_app. simpl. rewrite !length_app. lia.
Qed.

Lemma concat_replicate_nil n :
  concat (replicate n ([] : HashNodeList Key Value)) = [].
Proof. induction n as [|n IH]; [done|]. simpl. exact IH. Qed.

End Buckets.

(** ** Outcomes *)

Lemma bind_Ret {A B} (m : result A) (f : A → result B) (b : B) :
  m ≫= f = Ret b → ∃ a, m = Ret a ∧ f a = Ret b.
Proof. destruct m as [a| | |]; simpl; [|done..]. intros H. by exists a. Qed.

Tactic Notation "inv_bind" hyp(H) :=
  let a := fresh "a" in
  let Ha := fresh "Ha" in
  apply bind_Ret in H; destruct H as (a & Ha & H).

Tactic Notation "inv_bind" hyp(H) "as" simple_intropattern(a) ident(Ha) :=
  apply bind_Ret in H; destruct H as (a & Ha & H).

Ltac unfold_set :=
  unfold set_buckets, set_firstBucketIt, set_tableSize, set_maxLoadFactor,
    buckets_end, bucketSize, node_count in *; simpl in *.

Section Invariant.

Context {Key Value : Type}.
Variable hash : Key → Z.
Variable keyEqual : Key → Key → bool.
Variable Value_default : Value.
Variable g_a_sizes : list Z.

Implicit Types (t : @HashTable Key Value) (it : Iterator) (key : Key) (value : Value).

Lemma hashKey_Ret key t i :
  hashKey hash key t = Ret i →
  0 < bucketSize t ∧ i = Z.to_nat (hash key mod bucketSize t) ∧
  (i < length (buckets t))%nat.
Proof.
  unfold hashKey. destruct (bucketSize t =? 0) eqn:E; [done|].
  apply Z.eqb_neq in E. intros [= <-].
  assert (0 < bucketSize t) as Hpos by (unfold bucketSize in *; lia).
  split; [done|]. split; [done|].
  pose proof (Z.mod_pos_bound (hash key) _ Hpos). unfold bucketSize in *. lia.
Qed.

Lemma hashKey_defined key t :
  0 < bucketSize t → ∃ i, hashKey hash key t = Ret i.
Proof.
  intros H. unfold hashKey. destruct (bucketSize t =? 0) eqn:E; [|by eexists].
  apply Z.eqb_eq in E. lia.
Qed.

Lemma buckets_at_Ret t i chain :
  buckets_at t i = Ret chain ↔ buckets t !! i = Some chain.
Proof.
  unfold buckets_at. destruct (buckets t !! i); split; congruence.
Qed.

(** [find] does not change the table. *)
Lemma find_state key t it t' :
  find hash keyEqual key t = Ret (it, t') → t' = t.
Proof.
  unfold find. intros H. inv_bind H. inv_bind H.
  destruct (find_in_chain keyEqual key a0 0); by injection H as _ <-.
Qed.

Lemma find_in_chain_Some key (chain : HashNodeList Key Value) k0 j :
  find_in_chain keyEqual key chain k0 = Some j →
  ∃ node, chain !! (j - k0)%nat = Some node ∧ (k0 ≤ j)%nat ∧
          keyEqual node.1 key = true.
Proof.
  revert k0. induction chain as [|node chain IH]; intros k0; simpl; [done|].
  destruct (keyEqual node.1 key) eqn:E.
  - intros [= <-]. exists node. replace (k0 - k0)%nat with 0%nat by lia. done.
  - intros H. destruct (IH _ H) as (n & Hn & Hle & Hk).
    exists n. replace (j - k0)%nat with (S (j - S k0)) by lia.
    split; [done|]. split; [lia | done].
Qed.

(** The iterator that [find] returns: a position of a node with an equal
    key in the bucket of the key, or the not-found iterator. *)
Lemma find_Ret key t it t' :
  find hash keyEqual key t = Ret (it, t') →
  ∃ i chain, hashKey hash key t = Ret i ∧ buckets t !! i = Some chain ∧
    ((∃ j node, find_in_chain keyEqual key chain 0 = Some j ∧
                it = mkIterator i (i, j) false ∧
                chain !! j = Some node ∧ keyEqual node.1 key = true) ∨
     (find_in_chain keyEqual key chain 0 = None ∧
      it = mkIterator (length (buckets t)) (0%nat, 0%nat) true)).
Proof.
  unfold find. intros H. inv_bind H. inv_bind H.
  apply buckets_at_Ret in Ha0. exists a, a0. split; [done|]. split; [done|].
  apply hashKey_Ret in Ha as (_ & _ & Hlt).
  destruct (find_in_chain keyEqual key a0 0) as [j|] eqn:E.
  - left. destruct (find_in_chain_Some _ _ _ _ E) as (node & Hn & _ & Hk).
    rewrite Nat.sub_0_r in Hn. exists j, node.
    injection H as <- _. unfold new_Iterator, buckets_end. simpl.
    split; [done|]. split; [|done].
    f_equal. apply Nat.eqb_neq. lia.
  - right. injection H as <- _. unfold new_Iterator, buckets_end.
    by rewrite Nat.eqb_refl.
Qed.

(** *** Each operation keeps the table well-formed *)

Lemma wf_push t i chain key value :
  wf t → buckets t !! i = Some chain →
  wf (mkHashTable (<[i := (key, value) :: chain]> (buckets t))
        (if (i <? firstBucketIt t)%nat then i else firstBucketIt t)
        (tableSize t + 1) (maxLoadFactor t)).
Proof.
  intros [Hsize Hfirst Hmax] Hi. split; simpl.
  - unfold node_count in *. simpl.
    pose proof (concat_insert_length (buckets t) i chain ((key, value) :: chain) Hi).
    simpl in *. lia.
  - by apply first_occupied_push.
  - done.
Qed.

Lemma wf_overwrite t i j chain node value :
  wf t → buckets t !! i = Some chain → chain !! j = Some node →
  wf (mkHashTable (<[i := <[j := (node.1, value)]> chain]> (buckets t))
        (firstBucketIt t) (tableSize t) (maxLoadFactor t)).
Proof.
  intros [Hsize Hfirst Hmax] Hi Hj. split; simpl.
  - unfold node_count in *. simpl.
    pose proof (concat_insert_length (buckets t) i chain
                  (<[j := (node.1, value)]> chain) Hi) as H.
    rewrite length_insert in H. lia.
  - apply (first_occupied_same_shape _ _ _ chain); [done..|].
    pose proof (lookup_lt_Some _ _ _ Hj).
    split; intros E; apply (f_equal length) in E;
      rewrite ?length_insert in E; simpl in E; lia.
  - done.
Qed.

Lemma wf_pop t i j chain :
  wf t → buckets t !! i = Some chain → (j < length chain)%nat →
  let bs := <[i := delete j chain]> (buckets t) in
  wf (mkHashTable bs
        (if (firstBucketIt t <? i)%nat then firstBucketIt t
         else scan_nonempty (drop i bs) i)
        (tableSize t - 1) (maxLoadFactor t)).
Proof.
  intros [Hsize Hfirst Hmax] Hi Hj bs. split; simpl.
  - unfold node_count in *. simpl.
    pose proof (concat_insert_length (buckets t) i chain (delete j chain) Hi) as H.
    rewrite length_delete in H by (by apply lookup_lt_is_Some_2).
    fold bs in H. lia.
  - apply (first_occupied_pop _ _ _ chain); [done..|].
    intros ->. simpl in Hj. lia.
  - done.
Qed.

Lemma wf_empty n f :
  dle f min_load_factor = false →
  wf (mkHashTable (replicate n ([] : HashNodeList Key Value)) n 0 f).
Proof.
  intros Hf. split; simpl; [|apply first_occupied_replicate|done].
  unfold node_count. simpl. by rewrite concat_replicate_nil.
Qed.

(** [buckets.resize(n)] returns within [max_size()] only. *)
Lemma resize_empty_Ret n (bs : HashTableData Key Value) :
  resize_empty n = Ret bs ↔ n ≤ max_size ∧ bs = replicate (Z.to_nat n) [].
Proof.
  unfold resize_empty. destruct (max_size <? n) eqn:E.
  - apply Z.ltb_lt in E. split; [done | lia].
  - apply Z.ltb_ge in E. rewrite resize_nil. split.
    + by intros [= <-].
    + by intros [_ ->].
Qed.

(** What [findMinimumBucketSize] returns: when the load factor has
    reached the threshold, the first size of the table that is not below
    [ceil(tableSize / maxLoadFactor)], whatever the argument; the argument
    itself otherwise. *)
Lemma findMinimumBucketSize_Ret n t p :
  findMinimumBucketSize g_a_sizes n t = Ret p →
  (dge (loadFactor t) (maxLoadFactor t) = true ∧
   lower_bound g_a_sizes (dceil (ddiv (of_size (tableSize t)) (maxLoadFactor t)))
   = Some p)
  ∨ (dge (loadFactor t) (maxLoadFactor t) = false ∧ p = n).
Proof.
  unfold findMinimumBucketSize, loadFactor.
  destruct (dge _ _) eqn:E.
  - destruct (lower_bound _ _) as [q|] eqn:El; [|done].
    intros [= ->]. by left.
  - intros [= ->]. by right.
Qed.

(** At or above the threshold the argument is not looked at, and the
    request fails exactly when every size is below the bound. *)
Lemma findMinimumBucketSize_forced n t :
  dge (loadFactor t) (maxLoadFactor t) = true →
  findMinimumBucketSize g_a_sizes n t
  = match lower_bound g_a_sizes
            (dceil (ddiv (of_size (tableSize t)) (maxLoadFactor t))) with
    | Some p => Ret p
    | None => Throw (range_error "Out of range.")
    end.
Proof.
  intros Hge. unfold findMinimumBucketSize. fold (loadFactor t). by rewrite Hge.
Qed.

End Invariant.

Section Preservation.

Context {Key Value : Type}.
Variable hash : Key → Z.
Variable keyEqual : Key → Key → bool.
Variable Value_default : Value.
Variable g_a_sizes : list Z.

Implicit Types (t : @HashTable Key Value) (it : Iterator) (key : Key) (value : Value).

(** The two paths of [insert(it, key, value)]. *)
Lemma insert_it_end (R : Z → HashTable → result HashTable) it key value t b t' :
  endFlag it = true →
  insert_it hash R it key value t = Ret (b, t') →
  ∃ i chain, hashKey hash key t = Ret i ∧ buckets t !! i = Some chain ∧
    let t1 := mkHashTable (<[i := (key, value) :: chain]> (buckets t))
                (if (i <? firstBucketIt t)%nat then i else firstBucketIt t)
                (tableSize t + 1) (maxLoadFactor t) in
    b = true ∧
    ((dgt (loadFactor t1) (maxLoadFactor t) = true ∧
      R (bucketSize t1 * 2) t1 = Ret t') ∨
     (dgt (loadFactor t1) (maxLoadFactor t) = false ∧ t' = t1)).
Proof.
  intros Hend. unfold insert_it. rewrite Hend.
  intros H. inv_bind H. inv_bind H.
  apply buckets_at_Ret in Ha0. exists a, a0.
  split; [exact Ha|]. split; [exact Ha0|].
  unfold set_buckets, set_firstBucketIt, set_tableSize in H.
  cbn [buckets firstBucketIt tableSize maxLoadFactor] in H.
  assert ((if (a <? firstBucketIt t)%nat
           then mkHashTable (<[a:=(key, value) :: a0]> (buckets t)) a
                  (tableSize t + 1) (maxLoadFactor t)
           else mkHashTable (<[a:=(key, value) :: a0]> (buckets t)) (firstBucketIt t)
                  (tableSize t + 1) (maxLoadFactor t))
          = mkHashTable (<[a := (key, value) :: a0]> (buckets t))
              (if (a <? firstBucketIt t)%nat then a else firstBucketIt t)
              (tableSize t + 1) (maxLoadFactor t)) as E
    by (by destruct (a <? firstBucketIt t)%nat).
  rewrite E in H. clear E. cbn [maxLoadFactor] in H. cbv zeta.
  destruct (dgt _ _) eqn:Eg.
  - inv_bind H. injection H as <- <-. split; [done|]. left. by split.
  - injection H as <- <-. split; [done|]. right. by split.
Qed.

Lemma insert_it_found (R : Z → HashTable → result HashTable) it key value t b t' :
  endFlag it = false →
  insert_it hash R it key value t = Ret (b, t') →
  ∃ chain node, buckets t !! (listItBefore it).1 = Some chain ∧
    chain !! (listItBefore it).2 = Some node ∧ b = false ∧
    t' = mkHashTable
           (<[(listItBefore it).1 := <[(listItBefore it).2 := (node.1, value)]> chain]>
              (buckets t))
           (firstBucketIt t) (tableSize t) (maxLoadFactor t).
Proof.
  intros Hend. unfold insert_it. rewrite Hend.
  destruct (buckets t !! (listItBefore it).1) as [chain|] eqn:Hi; [|done].
  destruct (chain !! (listItBefore it).2) as [node|] eqn:Hj; [|done].
  intros [= <- <-]. by exists chain, node.
Qed.

Lemma insert_it_wf (R : Z → HashTable → result HashTable) it key value t b t' :
  (∀ n t1 t2, wf t1 → R n t1 = Ret t2 → wf t2) →
  wf t → insert_it hash R it key value t = Ret (b, t') → wf t'.
Proof.
  intros HR Hwf H. destruct (endFlag it) eqn:Hend.
  - apply insert_it_end in H as (i & chain & Hi & Hc & _ & H); [|done].
    pose proof (wf_push t i chain key value Hwf Hc) as Hwf1.
    destruct H as [[_ H]|[Hg ->]]; [by apply (HR _ _ _ Hwf1 H) | done].
  - apply insert_it_found in H as (chain & node & Hi & Hj & _ & ->); [|done].
    by apply wf_overwrite.
Qed.

Lemma insert_kv_wf (R : Z → HashTable → result HashTable) key value t b t' :
  (∀ n t1 t2, wf t1 → R n t1 = Ret t2 → wf t2) →
  wf t → insert_kv hash keyEqual R key value t = Ret (b, t') → wf t'.
Proof.
  intros HR Hwf. unfold insert_kv. intros H. inv_bind H.
  destruct a as [it t1]. apply find_state in Ha as ->.
  by apply (insert_it_wf R it key value t b t').
Qed.

Lemma reinsert_wf (ins : Key → Value → HashTable → result (bool * HashTable)) vec t t' :
  (∀ k v t1 b t2, wf t1 → ins k v t1 = Ret (b, t2) → wf t2) →
  wf t → reinsert ins vec t = Ret t' → wf t'.
Proof.
  intros Hins. revert t. induction vec as [|[k v] vec IH]; intros t Hwf; simpl.
  - by intros [= <-].
  - intros H. inv_bind H. destruct a as [b t1].
    apply (IH t1); [by apply (Hins k v t b) | done].
Qed.

(** The equation of [rehash] with fuel left. *)
Lemma rehash_S fuel n t :
  rehash hash keyEqual g_a_sizes (S fuel) n t
  = (p ← findMinimumBucketSize g_a_sizes n t;
     if p =? bucketSize t then Ret t
     else
       vec ← drain (S (length (concat (buckets t)))) (begin t) t [];
       bs ← resize_empty p;
       reinsert (insert_kv hash keyEqual (rehash hash keyEqual g_a_sizes fuel)) vec
         (mkHashTable bs (length bs) 0 (maxLoadFactor t))).
Proof. done. Qed.

Lemma rehash_wf fuel n t t' :
  wf t → rehash hash keyEqual g_a_sizes fuel n t = Ret t' → wf t'.
Proof.
  revert n t t'. induction fuel as [|fuel IH]; intros n t t' Hwf; [done|].
  rewrite rehash_S. intros H. inv_bind H as p Hp.
  destruct (p =? bucketSize t) eqn:E; [by injection H as <-|].
  inv_bind H as vec Hvec. inv_bind H as bs Hbs.
  apply resize_empty_Ret in Hbs as [_ ->]. rewrite length_replicate in H.
  eapply reinsert_wf; [| |exact H].
  - intros k v t1 b t2. apply insert_kv_wf. exact IH.
  - apply wf_empty, (wf_max _ Hwf).
Qed.

Lemma insert_wf fuel key value t b t' :
  wf t → insert hash keyEqual g_a_sizes fuel key value t = Ret (b, t') → wf t'.
Proof. apply insert_kv_wf, rehash_wf. Qed.

Lemma insert_at_wf fuel it key value t b t' :
  wf t → insert_at hash keyEqual g_a_sizes fuel it key value t = Ret (b, t') → wf t'.
Proof. apply insert_it_wf, rehash_wf. Qed.

Lemma erase_it_wf it t it' t' :
  wf t → erase_it it t = Ret (it', t') → wf t'.
Proof.
  intros Hwf. unfold erase_it.
  destruct (endFlag it); [by intros [= _ <-]|].
  destruct (buckets t !! bucketIt it) as [chain|] eqn:Hi; [|done].
  destruct (listItBefore it) as [owner j].
  destruct (negb (owner =? bucketIt it)%nat || (length chain <=? j)%nat) eqn:E; [done|].
  apply orb_false_iff in E as [_ Hj]. apply Nat.leb_gt in Hj.
  unfold_set.
  pose proof (wf_pop t (bucketIt it) j chain Hwf Hi Hj) as Hwf1. simpl in Hwf1.
  destruct (firstBucketIt t <? bucketIt it)%nat; intros [= _ <-]; exact Hwf1.
Qed.

Lemma erase_wf key t b t' :
  wf t → erase hash keyEqual key t = Ret (b, t') → wf t'.
Proof.
  intros Hwf. unfold erase. intros H. inv_bind H. destruct a as [it t1].
  apply find_state in Ha as ->.
  destruct (endFlag it); [by injection H as _ <-|].
  inv_bind H. destruct a as [it' t2]. injection H as _ <-.
  by apply (erase_it_wf it t it').
Qed.

Lemma subscript_wf fuel key t v t' :
  wf t → subscript hash keyEqual Value_default g_a_sizes fuel key t = Ret (v, t') → wf t'.
Proof.
  intros Hwf. unfold subscript. intros H. inv_bind H. destruct a as [it t1].
  apply find_state in Ha as ->.
  destruct (endFlag it).
  - inv_bind H as [b t2] Hins. inv_bind H as [it2 t3] Hfind.
    apply find_state in Hfind as ->. inv_bind H as node Hnode. injection H as _ <-.
    by apply (insert_wf fuel key Value_default t b).
  - inv_bind H. by injection H as _ <-.
Qed.

Lemma setMaxLoadFactor_wf fuel f t t' :
  wf t → setMaxLoadFactor hash keyEqual g_a_sizes fuel f t = Ret t' → wf t'.
Proof.
  intros [Hsize Hfirst Hmax]. unfold setMaxLoadFactor.
  destruct (dle f min_load_factor) eqn:E; [done|].
  apply rehash_wf. by split.
Qed.

Lemma HashTable_new_wf : wf (HashTable_new (Key:=Key) (Value:=Value) g_a_sizes).
Proof. unfold HashTable_new. by apply wf_empty. Qed.

Lemma HashTable_sized_Ret n t :
  HashTable_sized (Key:=Key) (Value:=Value) g_a_sizes n = Ret t ↔
  n ≤ max_size ∧
  t = mkHashTable (replicate (Z.to_nat n) []) (Z.to_nat n) 0 DEFAULT_LOAD_FACTOR.
Proof.
  unfold HashTable_sized, findMinimumBucketSize.
  replace (dge _ _) with false by done. cbn [mbind result_bind].
  split.
  - intros H. inv_bind H as bs Hbs. apply resize_empty_Ret in Hbs as [Hn ->].
    injection H as <-. split; [done|]. unfold_set. by rewrite length_replicate.
  - intros [Hn ->]. rewrite (proj2 (resize_empty_Ret n _) (conj Hn eq_refl)).
    cbn [mbind result_bind]. unfold_set. by rewrite length_replicate.
Qed.

Lemma HashTable_sized_wf n t :
  HashTable_sized (Key:=Key) (Value:=Value) g_a_sizes n = Ret t → wf t.
Proof. intros [_ ->]%HashTable_sized_Ret. by apply wf_empty. Qed.

Lemma mutates_wf t t' :
  wf t → mutates hash keyEqual Value_default g_a_sizes t t' → wf t'.
Proof.
  intros Hwf Hm. destruct Hm.
  - by eapply insert_wf.
  - by eapply insert_at_wf.
  - by eapply erase_wf.
  - by eapply erase_it_wf.
  - by eapply subscript_wf.
  - by eapply rehash_wf.
  - by eapply setMaxLoadFactor_wf.
  - destruct Hwf as [? ? ?]. unfold HashTable_copy.
    rewrite Nat.sub_0_r, Nat.add_0_l. by destruct t.
  - destruct Hwf as [? ? ?]. unfold assign. unfold_set.
    rewrite Nat.sub_0_r. by destruct t.
Qed.

Lemma reachable_wf t :
  reachable hash keyEqual Value_default g_a_sizes t → wf t.
Proof.
  induction 1 as [|n t H|t t' _ IH Hm].
  - apply HashTable_new_wf.
  - by apply (HashTable_sized_wf n).
  - by apply (mutates_wf t).
Qed.

End Preservation.

Section Iteration.

Context {Key Value : Type}.

Implicit Types (t : @HashTable Key Value) (it : Iterator).
Implicit Types (bs : HashTableData Key Value) (chain : HashNodeList Key Value).

(** ** Iteration *)

(** The buckets that the forward scan skips hold no node. *)
Lemma scan_nonempty_concat bs i :
  concat bs = concat (drop (scan_nonempty bs i - i) bs).
Proof.
  revert i. induction bs as [|[|node chain] bs IH]; intros i; simpl.
  - by rewrite drop_nil.
  - pose proof (scan_nonempty_bounds bs (S i)).
    replace (scan_nonempty bs (S i) - i)%nat
      with (S (scan_nonempty bs (S i) - S i)) by lia.
    simpl. apply IH.
  - by replace (i - i)%nat with 0%nat by lia.
Qed.

Lemma scan_nonempty_positions bs i :
  positions_from bs i
  = positions_from (drop (scan_nonempty bs i - i) bs) (scan_nonempty bs i).
Proof.
  revert i. induction bs as [|[|node chain] bs IH]; intros i; simpl.
  - by rewrite drop_nil.
  - pose proof (scan_nonempty_bounds bs (S i)).
    replace (scan_nonempty bs (S i) - i)%nat
      with (S (scan_nonempty bs (S i) - S i)) by lia.
    simpl. apply IH.
  - by replace (i - i)%nat with 0%nat by lia.
Qed.

Lemma scan_drop_concat bs k :
  (k ≤ length bs)%nat →
  concat (drop k bs) = concat (drop (scan_nonempty (drop k bs) k) bs).
Proof.
  intros Hk. rewrite (scan_nonempty_concat (drop k bs) k) at 1.
  rewrite drop_drop. f_equal. f_equal.
  pose proof (scan_nonempty_bounds (drop k bs) k). lia.
Qed.

Lemma scan_drop_positions bs k :
  (k ≤ length bs)%nat →
  positions_from (drop k bs) k
  = positions_from (drop (scan_nonempty (drop k bs) k) bs)
                   (scan_nonempty (drop k bs) k).
Proof.
  intros Hk. rewrite (scan_nonempty_positions (drop k bs) k) at 1.
  rewrite drop_drop. f_equal. f_equal.
  pose proof (scan_nonempty_bounds (drop k bs) k). lia.
Qed.

Lemma scan_drop_lookup bs k :
  (k ≤ length bs)%nat →
  let b := scan_nonempty (drop k bs) k in
  (k ≤ b ≤ length bs)%nat ∧
  ((b < length bs)%nat → ∃ chain, bs !! b = Some chain ∧ chain ≠ []).
Proof.
  intros Hk b. pose proof (scan_nonempty_bounds (drop k bs) k) as Hb.
  rewrite length_drop in Hb. fold b in Hb. split; [lia|].
  intros Hlt. destruct (lookup_lt_is_Some_2 bs b Hlt) as [chain Hc].
  exists chain. split; [done|].
  apply (scan_nonempty_hit (drop k bs) k). fold b.
  rewrite lookup_drop. by replace (k + (b - k))%nat with b by lia.
Qed.

Lemma first_occupied_is_scan bs first :
  first_occupied bs first → first = scan_nonempty (drop 0 bs) 0.
Proof.
  intros H. apply (first_occupied_unique bs); [done|].
  apply first_occupied_scan; [lia|]. intros j chain Hj. lia.
Qed.

Lemma increment_valid t i j chain :
  buckets t !! i = Some chain → (j < length chain)%nat →
  increment (mkIterator i (i, j) false) t = Ret (next_position (buckets t) i j).
Proof.
  intros Hi Hj. pose proof (lookup_lt_Some _ _ _ Hi) as Hlt.
  unfold increment, next_position, buckets_end. simpl. rewrite Hi.
  replace (i =? length (buckets t))%nat with false by (symmetry; apply Nat.eqb_neq; lia).
  rewrite Nat.eqb_refl. simpl.
  replace (length chain <? j)%nat with false by (symmetry; apply Nat.ltb_ge; lia).
  replace (j <? length chain)%nat with true by (symmetry; by apply Nat.ltb_lt).
  simpl. replace (j + 1)%nat with (S j) by lia.
  destruct (S j <? length chain)%nat; [done|].
  by destruct (_ =? _)%nat.
Qed.

Lemma deref_valid t i j chain node :
  buckets t !! i = Some chain → chain !! j = Some node →
  deref (mkIterator i (i, j) false) t = Ret node.
Proof. intros Hi Hj. unfold deref. simpl. by rewrite Hi, Hj. Qed.

(** From the node at position [j] of bucket [i] on, the loop of [rehash]
    collects the rest of the bucket and all later buckets. *)
Lemma drain_from_position t steps i j chain vec :
  buckets t !! i = Some chain → (j < length chain)%nat →
  (length (drop j chain ++ concat (drop (S i) (buckets t))) ≤ steps)%nat →
  drain steps (mkIterator i (i, j) false) t vec
  = Ret (vec ++ drop j chain ++ concat (drop (S i) (buckets t))).
Proof.
  revert i j chain vec. induction steps as [|steps IH]; intros i j chain vec Hi Hj Hlen.
  { rewrite length_app, length_drop in Hlen. lia. }
  pose proof (lookup_lt_Some _ _ _ Hi) as Hlt.
  destruct (lookup_lt_is_Some_2 chain j Hj) as [node Hnode].
  simpl. rewrite (deref_valid t i j chain node Hi Hnode). simpl.
  rewrite (increment_valid t i j chain Hi Hj). simpl.
  rewrite (drop_S chain node j Hnode) in *. simpl in Hlen.
  unfold next_position. rewrite Hi.
  destruct (S j <? length chain)%nat eqn:Ej.
  - apply Nat.ltb_lt in Ej. rewrite (IH i (S j) chain); [|done|done|lia].
    by rewrite <- app_assoc.
  - apply Nat.ltb_ge in Ej.
    rewrite (drop_ge chain (S j)) in * by lia. simpl in *.
    destruct (scan_drop_lookup (buckets t) (S i)) as [Hb Hhit]; [lia|].
    rewrite (scan_drop_concat (buckets t) (S i)) in * by lia.
    set (b := scan_nonempty (drop (S i) (buckets t)) (S i)) in *.
    destruct (b =? length (buckets t))%nat eqn:Eb.
    + apply Nat.eqb_eq in Eb. rewrite Eb, drop_all. simpl.
      by destruct steps.
    + apply Nat.eqb_neq in Eb.
      destruct Hhit as (chain' & Hc' & Hne); [lia|].
      rewrite (drop_S (buckets t) chain' b Hc') in *. simpl in *.
      rewrite (IH b 0%nat chain'); [|done|destruct chain'; [done|simpl; lia]|].
      * rewrite drop_0. by rewrite <- app_assoc.
      * rewrite drop_0. lia.
Qed.

Lemma drain_begin t steps :
  first_occupied (buckets t) (firstBucketIt t) →
  (length (concat (buckets t)) ≤ steps)%nat →
  drain steps (begin t) t [] = Ret (concat (buckets t)).
Proof.
  intros Hfirst Hlen. unfold begin, end_, new_Iterator, buckets_end.
  destruct (firstBucketIt t =? length (buckets t))%nat eqn:E; simpl.
  - rewrite Nat.eqb_refl. apply Nat.eqb_eq in E. rewrite E in Hfirst.
    apply first_occupied_end in Hfirst. rewrite Hfirst. by destruct steps.
  - apply Nat.eqb_neq in E.
    pose proof (first_occupied_is_scan _ _ Hfirst) as Hscan.
    destruct (scan_drop_lookup (buckets t) 0) as [Hb Hhit]; [lia|].
    rewrite <- Hscan in Hb, Hhit.
    destruct Hhit as (chain & Hc & Hne); [lia|].
    assert (concat (buckets t)
            = drop 0 chain ++ concat (drop (S (firstBucketIt t)) (buckets t))) as Hcat.
    { rewrite <- (drop_0 (buckets t)) at 1.
      rewrite (scan_drop_concat (buckets t) 0) by lia. rewrite <- Hscan.
      by rewrite (drop_S (buckets t) chain _ Hc). }
    rewrite Hcat in *.
    rewrite (drain_from_position t steps _ 0%nat chain); [done|done| |done].
    destruct chain; [done | simpl; lia].
Qed.

End Iteration.

Section Traversal.

Context {Key Value : Type}.

Implicit Types (t : @HashTable Key Value) (it : Iterator).
Implicit Types (bs : HashTableData Key Value) (chain : HashNodeList Key Value).

Lemma positions_from_length bs i :
  length (positions_from bs i) = length (concat bs).
Proof.
  revert i. induction bs as [|chain bs IH]; intros i; simpl; [done|].
  by rewrite !length_app, length_fmap, length_seq, IH.
Qed.

Lemma elem_of_positions_from bs k i j :
  (i, j) ∈ positions_from bs k ↔
  (k ≤ i)%nat ∧ ∃ chain, bs !! (i - k)%nat = Some chain ∧ (j < length chain)%nat.
Proof.
  revert k. induction bs as [|c bs IH]; intros k; simpl.
  - split; [by intros ?%elem_of_nil | by intros (_ & chain & ? & _)].
  - rewrite elem_of_app, list_elem_of_fmap, IH. split.
    + intros [(j' & [= -> ->] & Hj)|(Hk & chain & Hc & Hj)].
      * apply elem_of_seq in Hj. split; [lia|]. exists c.
        replace (k - k)%nat with 0%nat by lia. split; [done | lia].
      * split; [lia|]. exists chain.
        replace (i - k)%nat with (S (i - S k)) by lia. done.
    + intros (Hk & chain & Hc & Hj).
      destruct (decide (i = k)) as [->|Hne].
      * left. exists j. split; [done|]. apply elem_of_seq.
        replace (k - k)%nat with 0%nat in Hc by lia. injection Hc as ->. lia.
      * right. split; [lia|]. exists chain.
        replace (i - k)%nat with (S (i - S k)) in Hc by lia. done.
Qed.

Lemma positions_from_NoDup bs k : NoDup (positions_from bs k).
Proof.
  revert k. induction bs as [|c bs IH]; intros k; simpl; [constructor|].
  apply NoDup_app. split; [|split].
  - apply NoDup_fmap_2; [|apply NoDup_seq]. by intros a b [= ->].
  - intros [i j] (j' & [= -> ->] & _)%list_elem_of_fmap.
    rewrite elem_of_positions_from. lia.
  - apply IH.
Qed.

Lemma positions_from_deref t k :
  Forall2 (λ p node, deref (iterator_at p) t = Ret node)
    (positions_from (drop k (buckets t)) k) (concat (drop k (buckets t))).
Proof.
  remember (length (buckets t) - k)%nat as n eqn:Hn.
  revert k Hn. induction n as [|n IH]; intros k Hn.
  - rewrite drop_ge by lia. constructor.
  - destruct (lookup_lt_is_Some_2 (buckets t) k) as [chain Hc]; [lia|].
    rewrite (drop_S _ _ _ Hc). simpl. apply Forall2_app; [|apply IH; lia].
    apply Forall2_fmap_l. apply Forall2_same_length_lookup_2.
    + by rewrite length_seq.
    + intros j x node Hx Hnode. apply lookup_seq in Hx as [-> _]. simpl.
      unfold deref. simpl. by rewrite Hc, Hnode.
Qed.

Lemma Iterator_neq_end_valid t i j :
  (i < length (buckets t))%nat →
  Iterator_neq (mkIterator i (i, j) false) (end_ t) = true.
Proof.
  intros Hlt. unfold Iterator_neq, end_, new_Iterator, buckets_end. simpl.
  by replace (i =? length (buckets t))%nat with false
    by (symmetry; apply Nat.eqb_neq; lia).
Qed.

Lemma Iterator_neq_end_end t b p :
  Iterator_neq (mkIterator b p true) (end_ t) = false.
Proof.
  unfold Iterator_neq, end_, new_Iterator, buckets_end. simpl.
  by rewrite Nat.eqb_refl.
Qed.

(** From the node at position [j] of bucket [i] on, a traversal visits
    the rest of the bucket and all later buckets, position by position. *)
Lemma traverse_from_position t steps i j chain seen :
  buckets t !! i = Some chain → (j < length chain)%nat →
  (length chain - j + length (concat (drop (S i) (buckets t))) ≤ steps)%nat →
  traverse_from steps (mkIterator i (i, j) false) t seen
  = Ret (seen ++ (iterator_at <$>
           ((λ j', (i, j')) <$> seq j (length chain - j))
           ++ positions_from (drop (S i) (buckets t)) (S i))).
Proof.
  revert i j chain seen. induction steps as [|steps IH];
    intros i j chain seen Hi Hj Hlen; [lia|].
  pose proof (lookup_lt_Some _ _ _ Hi) as Hlt.
  simpl. rewrite Iterator_neq_end_valid by done. simpl.
  rewrite (increment_valid t i j chain Hi Hj). simpl.
  replace (length chain - j)%nat with (S (length chain - S j)) by lia.
  simpl. unfold next_position. rewrite Hi.
  change (mkIterator i (i, j) false) with (iterator_at (i, j)).
  destruct (S j <? length chain)%nat eqn:Ej.
  - apply Nat.ltb_lt in Ej. rewrite (IH i (S j) chain); [|done|done|lia].
    by rewrite <- app_assoc.
  - apply Nat.ltb_ge in Ej.
    replace (length chain - S j)%nat with 0%nat in * by lia. simpl in *.
    destruct (scan_drop_lookup (buckets t) (S i)) as [Hb Hhit]; [lia|].
    rewrite (scan_drop_positions (buckets t) (S i)) by lia.
    rewrite (scan_drop_concat (buckets t) (S i)) in Hlen by lia.
    set (b := scan_nonempty (drop (S i) (buckets t)) (S i)) in *.
    destruct (b =? length (buckets t))%nat eqn:Eb.
    + apply Nat.eqb_eq in Eb. rewrite Eb, drop_all. simpl.
      destruct steps; simpl; by rewrite Iterator_neq_end_end.
    + apply Nat.eqb_neq in Eb.
      destruct Hhit as (chain' & Hc' & Hne); [lia|].
      rewrite (drop_S (buckets t) chain' b Hc') in *. simpl in *.
      rewrite length_app in Hlen.
      rewrite (IH b 0%nat chain'); [|done|destruct chain'; [done|simpl; lia]|lia].
      rewrite Nat.sub_0_r. by rewrite <- app_assoc.
Qed.

Lemma traverse_positions t steps :
  first_occupied (buckets t) (firstBucketIt t) →
  (length (concat (buckets t)) ≤ steps)%nat →
  traverse steps t = Ret (iterator_at <$> positions t).
Proof.
  intros Hfirst Hlen. unfold traverse, positions, begin.
  destruct (firstBucketIt t =? buckets_end t)%nat eqn:E; simpl.
  - unfold buckets_end in E. apply Nat.eqb_eq in E. rewrite E in Hfirst.
    apply first_occupied_end in Hfirst.
    pose proof (positions_from_length (buckets t) 0) as Hp.
    rewrite Hfirst in Hp. simpl in Hp.
    destruct (positions_from (buckets t) 0); [|done]. simpl.
    unfold end_, new_Iterator.
    destruct steps; simpl; by rewrite Nat.eqb_refl, Iterator_neq_end_end.
  - unfold buckets_end in E. apply Nat.eqb_neq in E.
    pose proof (first_occupied_is_scan _ _ Hfirst) as Hscan.
    destruct (scan_drop_lookup (buckets t) 0) as [Hb Hhit]; [lia|].
    rewrite <- Hscan in Hb, Hhit.
    destruct Hhit as (chain & Hc & Hne); [lia|].
    unfold new_Iterator, buckets_end.
    replace (firstBucketIt t =? length (buckets t))%nat with false
      by (symmetry; by apply Nat.eqb_neq).
    rewrite <- (drop_0 (buckets t)) in Hlen.
    rewrite (scan_drop_concat (buckets t) 0) in Hlen by lia.
    rewrite <- (drop_0 (buckets t)) at 1.
    rewrite (scan_drop_positions (buckets t) 0) by lia.
    rewrite <- Hscan in *.
    rewrite (drop_S (buckets t) chain _ Hc) in *. simpl in *.
    rewrite length_app in Hlen.
    rewrite (traverse_from_position t steps _ 0%nat chain); [|done| |lia].
    + by rewrite Nat.sub_0_r.
    + destruct chain; [done | simpl; lia].
Qed.

End Traversal.

Section Lookup.

Context {Key Value : Type}.
Variable hash : Key → Z.
Variable keyEqual : Key → Key → bool.

Implicit Types (t : @HashTable Key Value) (it : Iterator) (key : Key) (value : Value).
Implicit Types (bs : HashTableData Key Value) (chain : HashNodeList Key Value).

(** ** Lookup *)

Lemma find_in_chain_None key chain k0 :
  find_in_chain keyEqual key chain k0 = None ↔
  ∀ node, node ∈ chain → keyEqual node.1 key = false.
Proof.
  revert k0. induction chain as [|n chain IH]; intros k0; simpl.
  - split; [|done]. by intros _ node ?%elem_of_nil.
  - destruct (keyEqual n.1 key) eqn:E.
    + split; [done|]. intros H. rewrite (H n) in E; [done | by left].
    + rewrite IH. split.
      * intros H node [->|Hn]%elem_of_cons; [done | by apply H].
      * intros H node Hn. apply H. by right.
Qed.

Lemma find_in_chain_is_Some key chain k0 :
  is_Some (find_in_chain keyEqual key chain k0) ↔
  ∃ node, node ∈ chain ∧ keyEqual node.1 key = true.
Proof.
  split.
  - intros [j Hj]. destruct (find_in_chain_Some _ _ _ _ _ Hj) as (node & Hn & _ & Hk).
    exists node. split; [by apply list_elem_of_lookup_2 in Hn | done].
  - intros (node & Hn & Hk).
    destruct (find_in_chain keyEqual key chain k0) eqn:E; [by eexists|].
    rewrite find_in_chain_None in E. rewrite (E node Hn) in Hk. done.
Qed.

(** The walk only reads the keys. *)
Lemma find_in_chain_keys key chain chain' k0 :
  chain.*1 = chain'.*1 →
  find_in_chain keyEqual key chain k0 = find_in_chain keyEqual key chain' k0.
Proof.
  revert chain' k0. induction chain as [|n chain IH]; intros [|n' chain'] k0; simpl; try done.
  intros [= Hn Hrest]. rewrite Hn. destruct (keyEqual n'.1 key); [done|].
  by apply IH.
Qed.

Lemma found_iff key t :
  found hash keyEqual key t ↔
  ∃ i chain, hashKey hash key t = Ret i ∧ buckets t !! i = Some chain ∧
    is_Some (find_in_chain keyEqual key chain 0).
Proof.
  split.
  - intros (it & t' & Hfind & Hend).
    apply find_Ret in Hfind as (i & chain & Hi & Hc & [H|H]).
    + destruct H as (j & node & Hj & _). exists i, chain. by rewrite Hj.
    + destruct H as [_ ->]. done.
  - intros (i & chain & Hi & Hc & [j Hj]). unfold found, find.
    rewrite Hi. simpl. unfold buckets_at. rewrite Hc. simpl. rewrite Hj.
    eexists _, _. split; [done|]. unfold new_Iterator, buckets_end. simpl.
    apply hashKey_Ret in Hi as (_ & _ & Hlt). apply Nat.eqb_neq. lia.
Qed.

Lemma find_defined key t :
  0 < bucketSize t → ∃ it, find hash keyEqual key t = Ret (it, t).
Proof.
  intros Hb. destruct (hashKey_defined hash key t Hb) as [i Hi].
  unfold find. rewrite Hi. simpl.
  apply hashKey_Ret in Hi as (_ & _ & Hlt).
  destruct (lookup_lt_is_Some_2 (buckets t) i Hlt) as [chain Hc].
  unfold buckets_at. rewrite Hc. simpl.
  destruct (find_in_chain keyEqual key chain 0); by eexists.
Qed.

Lemma hashKey_buckets key t t' :
  length (buckets t') = length (buckets t) →
  hashKey hash key t' = hashKey hash key t.
Proof. intros H. unfold hashKey, bucketSize. by rewrite H. Qed.

(** A key that is found stays found when a node is prepended to a bucket. *)
Lemma found_push key t i chain node first n f :
  buckets t !! i = Some chain → found hash keyEqual key t →
  found hash keyEqual key
    (mkHashTable (<[i := node :: chain]> (buckets t)) first n f).
Proof.
  intros Hi. rewrite !found_iff. intros (i' & chain' & Hi' & Hc' & Hsome).
  rewrite (hashKey_buckets key t) by (simpl; by rewrite length_insert).
  exists i'. simpl. destruct (decide (i = i')) as [->|Hne].
  - exists (node :: chain). split; [done|].
    rewrite list_lookup_insert_eq by (by eapply lookup_lt_Some). split; [done|].
    rewrite Hi in Hc'. injection Hc' as <-.
    apply find_in_chain_is_Some. apply find_in_chain_is_Some in Hsome as (nd & ? & ?).
    exists nd. split; [by right | done].
  - exists chain'. by rewrite list_lookup_insert_ne.
Qed.

(** The key of a node that is prepended to its bucket is found. *)
Lemma found_pushed key value t i chain first n f :
  keyEqual key key = true →
  hashKey hash key t = Ret i → buckets t !! i = Some chain →
  found hash keyEqual key
    (mkHashTable (<[i := (key, value) :: chain]> (buckets t)) first n f).
Proof.
  intros Hrefl Hi Hc. rewrite found_iff.
  rewrite (hashKey_buckets key t) by (simpl; by rewrite length_insert).
  exists i, ((key, value) :: chain). split; [done|]. simpl.
  rewrite list_lookup_insert_eq by (by eapply lookup_lt_Some). split; [done|].
  by rewrite Hrefl.
Qed.

(** A key that is found stays found when a value is overwritten. *)
Lemma found_overwrite key t i j chain node value first n f :
  buckets t !! i = Some chain → chain !! j = Some node →
  found hash keyEqual key t →
  found hash keyEqual key
    (mkHashTable (<[i := <[j := (node.1, value)]> chain]> (buckets t)) first n f).
Proof.
  intros Hi Hj. rewrite !found_iff. intros (i' & chain' & Hi' & Hc' & Hsome).
  rewrite (hashKey_buckets key t) by (simpl; by rewrite length_insert).
  exists i'. simpl. destruct (decide (i = i')) as [->|Hne].
  - exists (<[j := (node.1, value)]> chain). split; [done|].
    rewrite list_lookup_insert_eq by (by eapply lookup_lt_Some). split; [done|].
    rewrite Hi in Hc'. injection Hc' as <-.
    rewrite (find_in_chain_keys key _ chain); [done|].
    rewrite list_fmap_insert. simpl. apply list_insert_id.
    by rewrite list_lookup_fmap, Hj.
  - exists chain'. by rewrite list_lookup_insert_ne.
Qed.

End Lookup.

Section Growth.

Context {Key Value : Type}.
Variable hash : Key → Z.
Variable keyEqual : Key → Key → bool.
Variable Value_default : Value.
Variable g_a_sizes : list Z.

Implicit Types (t : @HashTable Key Value) (it : Iterator) (key : Key) (value : Value).
Implicit Types (bs : HashTableData Key Value) (chain : HashNodeList Key Value).

(** ** Insertion below the threshold *)

Lemma insert_it_end_eq (R : Z → HashTable → result HashTable) it key value t i chain :
  endFlag it = true → hashKey hash key t = Ret i → buckets t !! i = Some chain →
  insert_it hash R it key value t
  = let t1 := mkHashTable (<[i := (key, value) :: chain]> (buckets t))
                (if (i <? firstBucketIt t)%nat then i else firstBucketIt t)
                (tableSize t + 1) (maxLoadFactor t) in
    if dgt (loadFactor t1) (maxLoadFactor t)
    then t' ← R (bucketSize t1 * 2) t1; Ret (true, t')
    else Ret (true, t1).
Proof.
  intros Hend Hi Hc. unfold insert_it. rewrite Hend.
  replace (hashKey hash key (set_tableSize (tableSize t + 1) t))
    with (hashKey hash key t) by done.
  rewrite Hi. simpl. unfold buckets_at. simpl. rewrite Hc. simpl.
  unfold set_buckets, set_firstBucketIt, set_tableSize.
  cbn [buckets firstBucketIt tableSize maxLoadFactor].
  by destruct (i <? firstBucketIt t)%nat.
Qed.

Lemma insert_it_found_eq (R : Z → HashTable → result HashTable) i j key value t chain node :
  buckets t !! i = Some chain → chain !! j = Some node →
  insert_it hash R (mkIterator i (i, j) false) key value t
  = Ret (false, mkHashTable (<[i := <[j := (node.1, value)]> chain]> (buckets t))
                  (firstBucketIt t) (tableSize t) (maxLoadFactor t)).
Proof. intros Hi Hj. unfold insert_it. simpl. by rewrite Hi, Hj. Qed.

(** An insertion that leaves the load factor, as [insert] computes it,
    within the threshold does not call [rehash]. *)
Lemma insert_kv_within (R : Z → HashTable → result HashTable) key value t :
  wf t → 0 < bucketSize t →
  dgt (ddiv (of_size (tableSize t + 1)) (of_size (bucketSize t))) (maxLoadFactor t)
  = false →
  ∃ b t', insert_kv hash keyEqual R key value t = Ret (b, t') ∧ wf t' ∧
    length (buckets t') = length (buckets t) ∧
    maxLoadFactor t' = maxLoadFactor t ∧
    tableSize t ≤ tableSize t' ≤ tableSize t + 1 ∧
    (∀ k, found hash keyEqual k t → found hash keyEqual k t') ∧
    (keyEqual key key = true → found hash keyEqual key t').
Proof.
  intros Hwf Hb Hload. destruct (find_defined hash keyEqual key t Hb) as [it Hfind].
  unfold insert_kv. rewrite Hfind. simpl.
  apply find_Ret in Hfind as (i & chain & Hi & Hc & [H|H]).
  - destruct H as (j & node & Hfc & -> & Hj & Hk).
    rewrite (insert_it_found_eq R i j key value t chain node Hc Hj).
    eexists _, _. split; [done|]. split; [by apply wf_overwrite|].
    simpl. split; [by rewrite length_insert|]. split; [done|]. split; [lia|].
    split.
    + intros k. by apply found_overwrite.
    + intros _. apply found_overwrite; [done..|].
      apply found_iff. exists i, chain. by rewrite Hfc.
  - destruct H as [Hfc ->].
    rewrite (insert_it_end_eq R (mkIterator _ _ true) key value t i chain eq_refl Hi Hc). cbv zeta.
    unfold loadFactor, bucketSize in *. cbn [tableSize buckets].
    rewrite length_insert, Hload.
    eexists _, _. split; [done|]. split; [by apply wf_push|].
    simpl. split; [by rewrite length_insert|]. split; [done|]. split; [lia|].
    split.
    + intros k. by apply found_push.
    + intros Hrefl. by apply found_pushed.
Qed.

Lemma reinsert_within (R : Z → HashTable → result HashTable) vec t :
  wf t → 0 < bucketSize t →
  (∀ k, tableSize t < k ≤ tableSize t + Z.of_nat (length vec) →
        dgt (ddiv (of_size k) (of_size (bucketSize t))) (maxLoadFactor t) = false) →
  ∃ t', reinsert (insert_kv hash keyEqual R) vec t = Ret t' ∧ wf t' ∧
    length (buckets t') = length (buckets t) ∧
    maxLoadFactor t' = maxLoadFactor t ∧
    tableSize t' ≤ tableSize t + Z.of_nat (length vec) ∧
    (∀ k, found hash keyEqual k t → found hash keyEqual k t') ∧
    (∀ node, node ∈ vec → keyEqual node.1 node.1 = true →
             found hash keyEqual node.1 t').
Proof.
  revert t. induction vec as [|[key value] vec IH]; intros t Hwf Hb Hload.
  - exists t. simpl. split; [done|]. split; [done|]. split; [done|].
    split; [done|]. split; [lia|]. split; [done|]. by intros node ?%elem_of_nil.
  - cbn [reinsert length] in *.
    destruct (insert_kv_within R key value t Hwf Hb)
      as (b & t1 & Hins & Hwf1 & Hlen1 & Hmax1 & Hsize1 & Hfound1 & Hkey1).
    { apply Hload. lia. }
    rewrite Hins. cbn [mbind result_bind].
    destruct (IH t1) as (t' & Hre & Hwf' & Hlen' & Hmax' & Hsize' & Hfound' & Hvec').
    + done.
    + unfold bucketSize in *. by rewrite Hlen1.
    + intros k Hk. unfold bucketSize in *. rewrite Hlen1, Hmax1. apply Hload. lia.
    + exists t'. split; [done|]. split; [done|].
      split; [by rewrite Hlen', Hlen1|]. split; [by rewrite Hmax', Hmax1|].
      split; [lia|]. split.
      * intros k Hk. by apply Hfound', Hfound1.
      * intros node [->|Hn]%elem_of_cons Hrefl.
        -- apply Hfound'. by apply Hkey1.
        -- by apply Hvec'.
Qed.

(** ** The calls of [rehash] that keep the table *)

(** At or above the threshold, [rehash] returns at once when the first
    size that is not below [ceil(tableSize / maxLoadFactor)] is the
    current number of buckets, whatever its argument. *)
Lemma rehash_same fuel n t :
  dge (loadFactor t) (maxLoadFactor t) = true →
  lower_bound g_a_sizes (dceil (ddiv (of_size (tableSize t)) (maxLoadFactor t)))
  = Some (bucketSize t) →
  rehash hash keyEqual g_a_sizes (S fuel) n t = Ret t.
Proof.
  intros Hge Hlb. rewrite rehash_S, (findMinimumBucketSize_forced _ _ _ Hge), Hlb.
  cbn [mbind result_bind]. by rewrite Z.eqb_refl.
Qed.


End Growth.

Section Fuel.

Context {Key Value : Type}.
Variable hash : Key → Z.
Variable keyEqual : Key → Key → bool.
Variable Value_default : Value.
Variable g_a_sizes : list Z.

Implicit Types (t : @HashTable Key Value) (it : Iterator) (key : Key) (value : Value).
Implicit Types (bs : HashTableData Key Value) (chain : HashNodeList Key Value).
Implicit Types (R : Z → @HashTable Key Value → result (@HashTable Key Value)).

(** ** Fuel *)

(** More fuel does not change an outcome that is not [OutOfFuel]. *)

Lemma insert_it_mono R R' it key value t :
  (∀ n t1, R n t1 ≠ OutOfFuel → R' n t1 = R n t1) →
  insert_it hash R it key value t ≠ OutOfFuel →
  insert_it hash R' it key value t = insert_it hash R it key value t.
Proof.
  intros HR. unfold insert_it. destruct (endFlag it); [|done].
  destruct (hashKey hash key _) as [i| | |]; [|done..]. cbn [mbind result_bind].
  destruct (buckets_at _ i) as [chain| | |]; [|done..]. cbn [mbind result_bind].
  destruct (dgt _ _); [|done].
  intros H. rewrite HR; [done|]. intros E. rewrite E in H. done.
Qed.

Lemma insert_kv_mono R R' key value t :
  (∀ n t1, R n t1 ≠ OutOfFuel → R' n t1 = R n t1) →
  insert_kv hash keyEqual R key value t ≠ OutOfFuel →
  insert_kv hash keyEqual R' key value t = insert_kv hash keyEqual R key value t.
Proof.
  intros HR. unfold insert_kv.
  destruct (find hash keyEqual key t) as [[it t1]| | |]; [|done..].
  cbn [mbind result_bind]. by apply insert_it_mono.
Qed.

Lemma reinsert_mono R R' vec t :
  (∀ n t1, R n t1 ≠ OutOfFuel → R' n t1 = R n t1) →
  reinsert (insert_kv hash keyEqual R) vec t ≠ OutOfFuel →
  reinsert (insert_kv hash keyEqual R') vec t = reinsert (insert_kv hash keyEqual R) vec t.
Proof.
  intros HR. revert t. induction vec as [|[key value] vec IH]; intros t; [done|].
  cbn [reinsert]. intros H.
  rewrite (insert_kv_mono R R' key value t HR).
  - destruct (insert_kv hash keyEqual R key value t) as [[b t1]| | |]; [|done..].
    cbn [mbind result_bind] in *. by apply IH.
  - intros E. rewrite E in H. done.
Qed.

Lemma rehash_mono fuel n t :
  rehash hash keyEqual g_a_sizes fuel n t ≠ OutOfFuel →
  rehash hash keyEqual g_a_sizes (S fuel) n t = rehash hash keyEqual g_a_sizes fuel n t.
Proof.
  revert n t. induction fuel as [|fuel IH]; intros n t; [done|].
  rewrite (rehash_S _ _ _ (S fuel)), (rehash_S _ _ _ fuel).
  destruct (findMinimumBucketSize g_a_sizes n t) as [p| | |]; [|done..].
  cbn [mbind result_bind]. destruct (p =? bucketSize t); [done|].
  destruct (drain _ _ _ _) as [vec| | |]; [|done..]. cbn [mbind result_bind].
  destruct (resize_empty p) as [bs| | |]; [|done..]. cbn [mbind result_bind].
  apply reinsert_mono. exact IH.
Qed.

Lemma rehash_fuel_ge fuel fuel' n t :
  (fuel ≤ fuel')%nat →
  rehash hash keyEqual g_a_sizes fuel n t ≠ OutOfFuel →
  rehash hash keyEqual g_a_sizes fuel' n t = rehash hash keyEqual g_a_sizes fuel n t.
Proof.
  intros Hle H. induction Hle as [|fuel' Hle IH]; [done|].
  rewrite rehash_mono; [done|]. by rewrite IH.
Qed.

Lemma findMinimumBucketSize_outcome n t :
  (∃ p, findMinimumBucketSize g_a_sizes n t = Ret p) ∨
  findMinimumBucketSize g_a_sizes n t = Throw (range_error "Out of range.").
Proof.
  unfold findMinimumBucketSize. destruct (dge _ _); [|by eauto].
  destruct (lower_bound _ _); by eauto.
Qed.

End Fuel.

Section Overwrite.

Context {Key Value : Type}.
Variable hash : Key → Z.
Variable keyEqual : Key → Key → bool.
Variable Value_default : Value.
Variable g_a_sizes : list Z.

Implicit Types (t : @HashTable Key Value) (it : Iterator) (key : Key) (value : Value).
Implicit Types (bs : HashTableData Key Value) (chain : HashNodeList Key Value).
Implicit Types (R : Z → @HashTable Key Value → result (@HashTable Key Value)).

(** ** Inserting a key that is present *)







(** Inserting a key that is found overwrites the value of the node that
    [find] returns, and nothing else. *)
Lemma insert_present key value t :
  found hash keyEqual key t →
  ∃ i j chain node,
    buckets t !! i = Some chain ∧ chain !! j = Some node ∧
    keyEqual node.1 key = true ∧
    find hash keyEqual key t = Ret (mkIterator i (i, j) false, t) ∧
    let t' := mkHashTable (<[i := <[j := (node.1, value)]> chain]> (buckets t))
                (firstBucketIt t) (tableSize t) (maxLoadFactor t) in
    (∀ fuel, insert hash keyEqual g_a_sizes fuel key value t = Ret (false, t')) ∧
    find hash keyEqual key t' = Ret (mkIterator i (i, j) false, t') ∧
    deref (mkIterator i (i, j) false) t' = Ret (node.1, value).
Proof.
  intros (it & t0 & Hfind & Hend).
  pose proof (find_state _ _ _ _ _ _ Hfind) as ->.
  pose proof Hfind as Hfind0.
  apply find_Ret in Hfind as (i & chain & Hi & Hc & [Hf|Hf]);
    [|destruct Hf as [_ ->]; done].
  destruct Hf as (j & node & Hfc & -> & Hj & Hk).
  exists i, j, chain, node. split; [done|]. split; [done|]. split; [done|].
  split; [done|]. cbv zeta.
  pose proof (lookup_lt_Some _ _ _ Hc) as Hlt.
  pose proof (lookup_lt_Some _ _ _ Hj) as Hltj.
  split; [|split].
  - intros fuel. unfold insert, insert_kv. rewrite Hfind0. cbn [mbind result_bind].
    by apply insert_it_found_eq.
  - unfold find.
    rewrite (hashKey_buckets hash key t) by (simpl; by rewrite length_insert).
    rewrite Hi. cbn [mbind result_bind]. unfold buckets_at. simpl.
    rewrite list_lookup_insert_eq by done. cbn [mbind result_bind].
    rewrite (find_in_chain_keys keyEqual key _ chain), Hfc.
    + unfold new_Iterator, buckets_end. simpl. rewrite length_insert.
      by replace (i =? length (buckets t))%nat with false
        by (symmetry; apply Nat.eqb_neq; lia).
    + rewrite list_fmap_insert. simpl. apply list_insert_id.
      by rewrite list_lookup_fmap, Hj.
  - unfold deref. simpl. rewrite list_lookup_insert_eq by done.
    by rewrite list_lookup_insert_eq by done.
Qed.


(** ** The exceptions of [rehash] *)

Lemma drain_no_Throw steps it t vec e :
  drain steps it t vec ≠ Throw e.
Proof.
  revert it vec. induction steps as [|steps IH]; intros it vec; simpl.
  - by destruct (endFlag it).
  - destruct (endFlag it); [done|].
    unfold deref. destruct (buckets t !! _) as [chain|]; [|done].
    destruct (chain !! _) as [node|]; [|done]. cbn [mbind result_bind].
    unfold increment. destruct (_ =? _)%nat; [cbn [mbind result_bind]; apply IH|].
    destruct (buckets t !! _) as [chain'|]; [|done].
    destruct (listItBefore it) as [owner j].
    destruct (_ || _); [done|]. destruct (_ && _); [cbn [mbind result_bind]; apply IH|].
    destruct (_ =? _)%nat; cbn [mbind result_bind]; apply IH.
Qed.


Lemma find_Throw key t e :
  find hash keyEqual key t = Throw e → sizing_failure e.
Proof.
  unfold find, hashKey. destruct (_ =? _); [done|]. cbn [mbind result_bind].
  unfold buckets_at. destruct (buckets t !! _); cbn [mbind result_bind].
  - by destruct (find_in_chain _ _ _ _).
  - intros [= <-]. right. by left.
Qed.

Lemma insert_it_Throw R it key value t e :
  (∀ n t1 e1, R n t1 = Throw e1 → sizing_failure e1) →
  insert_it hash R it key value t = Throw e → sizing_failure e.
Proof.
  intros HR. unfold insert_it. destruct (endFlag it).
  - unfold hashKey. destruct (_ =? _); [done|]. cbn [mbind result_bind].
    unfold buckets_at. destruct (buckets _ !! _); cbn [mbind result_bind];
      [|intros [= <-]; right; by left].
    destruct (dgt _ _); [|done].
    destruct (R _ _) as [t1|e1| |] eqn:E; cbn [mbind result_bind]; try done.
    intros [= <-]. by apply (HR _ _ _ E).
  - destruct (buckets t !! _) as [chain|]; [|done]. by destruct (chain !! _).
Qed.

Lemma insert_kv_Throw R key value t e :
  (∀ n t1 e1, R n t1 = Throw e1 → sizing_failure e1) →
  insert_kv hash keyEqual R key value t = Throw e → sizing_failure e.
Proof.
  intros HR. unfold insert_kv.
  destruct (find hash keyEqual key t) as [[it t1]|e1| |] eqn:E;
    cbn [mbind result_bind]; try done.
  - by apply insert_it_Throw.
  - intros [= <-]. by apply (find_Throw _ _ _ E).
Qed.

Lemma reinsert_Throw R vec t e :
  (∀ n t1 e1, R n t1 = Throw e1 → sizing_failure e1) →
  reinsert (insert_kv hash keyEqual R) vec t = Throw e → sizing_failure e.
Proof.
  intros HR. revert t. induction vec as [|[key value] vec IH]; intros t; [done|].
  cbn [reinsert].
  destruct (insert_kv hash keyEqual R key value t) as [[b t1]|e1| |] eqn:E;
    cbn [mbind result_bind]; try done.
  - apply IH.
  - intros [= <-]. by apply (insert_kv_Throw _ _ _ _ _ HR E).
Qed.

Lemma rehash_Throw fuel n t e :
  rehash hash keyEqual g_a_sizes fuel n t = Throw e → sizing_failure e.
Proof.
  revert n t e. induction fuel as [|fuel IH]; intros n t e; [done|].
  rewrite rehash_S.
  destruct (findMinimumBucketSize_outcome g_a_sizes n t) as [[p ->]| ->];
    cbn [mbind result_bind]; [|intros [= <-]; by left].
  destruct (p =? bucketSize t); [done|].
  destruct (drain _ _ _ _) as [vec|e1| |] eqn:E; cbn [mbind result_bind]; try done.
  - unfold resize_empty. destruct (max_size <? p); cbn [mbind result_bind].
    + intros [= <-]. right. by right.
    + apply reinsert_Throw. exact IH.
  - by apply drain_no_Throw in E.
Qed.

End Overwrite.

Ltac unfold_contains_in H := unfold contains in H.
Ltac unfold_contains := unfold contains.
Ltac unfold_setMaxLoadFactor := unfold setMaxLoadFactor.

Section Claims.

Context {Key Value : Type}.
Variable hash : Key → Z.
Variable keyEqual : Key → Key → bool.
Variable Value_default : Value.
Variable g_a_sizes : list Z.

Implicit Types (t : @HashTable Key Value) (it : Iterator) (key : Key) (value : Value).

Local Abbreviation reachable := (reachable hash keyEqual Value_default g_a_sizes).
Local Abbreviation mutates := (mutates hash keyEqual Value_default g_a_sizes).
Local Abbreviation insert := (insert hash keyEqual g_a_sizes).
Local Abbreviation insert_at := (insert_at hash keyEqual g_a_sizes).
Local Abbreviation find := (find hash keyEqual).
Local Abbreviation contains := (contains hash keyEqual).
Local Abbreviation subscript := (subscript hash keyEqual Value_default g_a_sizes).
Local Abbreviation setMaxLoadFactor := (setMaxLoadFactor hash keyEqual g_a_sizes).
Local Abbreviation rehash := (rehash hash keyEqual g_a_sizes).
Local Abbreviation found := (found hash keyEqual).

(** ** The properties of the specification *)

(** C3. After every mutating operation on a reachable table that
    completes without throwing, [firstBucketIt] is the first non-empty
    bucket, and it is [buckets.end()] exactly when the table is empty. *)
Theorem firstBucketIt_is_first_occupied t t' :
  reachable t → mutates t t' →
  first_occupied (buckets t') (firstBucketIt t') ∧
  (firstBucketIt t' = buckets_end t' ↔ concat (buckets t') = []) ∧
  (firstBucketIt t' = buckets_end t' ↔ size t' = 0).
Proof.
  intros Hwf%reachable_wf Hm.
  destruct (mutates_wf _ _ _ _ _ _ Hwf Hm) as [Hsize Hfirst Hmax].
  split; [done|].
  assert (firstBucketIt t' = buckets_end t' ↔ concat (buckets t') = []) as Hiff.
  { unfold buckets_end. rewrite <- first_occupied_end. split.
    - by intros <-.
    - intros H. by apply (first_occupied_unique (buckets t')). }
  split; [done|]. rewrite Hiff. unfold size. rewrite Hsize. unfold node_count.
  destruct (concat (buckets t')); simpl; split; (done || lia).
Qed.


(** C8, as the code has it. [setMaxLoadFactor(f)] throws
    [std::range_error("invalid load factor!")] exactly when [f <= 1e-9]
    holds of the two doubles; otherwise it stores the threshold and calls
    [rehash] at the current bucket count, which raises no such exception. *)
Theorem setMaxLoadFactor_range_error fuel f t :
  (setMaxLoadFactor fuel f t = Throw (range_error "invalid load factor!")
   ↔ dle f min_load_factor = true) ∧
  (dle f min_load_factor = false →
   setMaxLoadFactor fuel f t = rehash fuel (bucketSize t) (set_maxLoadFactor f t)).
Proof.
  unfold_setMaxLoadFactor.
  destruct (dle f min_load_factor) eqn:E; [done|].
  split; [|done]. split; [|done].
  intros H. apply rehash_Throw in H as [H|[H|H]]; discriminate H.
Qed.

(** C9. A traversal of a reachable table from [begin()] to [end()]
    returns after visiting [size()] positions, no position twice, every
    position of a node among them, in the order of the chains. *)
Theorem traversal_visits_each_entry_once t steps :
  reachable t → (Z.to_nat (size t) ≤ steps)%nat →
  ∃ visited, traverse steps t = Ret visited ∧
    Z.of_nat (length visited) = size t ∧
    NoDup visited ∧
    (∀ it, it ∈ visited ↔
       ∃ i j chain, it = mkIterator i (i, j) false ∧
                    buckets t !! i = Some chain ∧ (j < length chain)%nat) ∧
    Forall2 (λ it node, deref it t = Ret node) visited (concat (buckets t)).
Proof.
  intros [Hsize Hfirst _]%reachable_wf Hsteps. unfold size in *.
  exists (iterator_at <$> positions t). split; [|split; [|split; [|split]]].
  - apply traverse_positions; [done|]. unfold node_count in Hsize. lia.
  - rewrite length_fmap. unfold positions.
    by rewrite positions_from_length, Hsize.
  - apply NoDup_fmap_2; [|apply positions_from_NoDup].
    intros [i j] [i' j'] [= _ -> ->]. done.
  - intros it. rewrite list_elem_of_fmap. split.
    + intros ([i j] & -> & Hp). apply elem_of_positions_from in Hp as (_ & chain & Hc & Hj).
      rewrite Nat.sub_0_r in Hc. by exists i, j, chain.
    + intros (i & j & chain & -> & Hc & Hj). exists (i, j). split; [done|].
      apply elem_of_positions_from. split; [lia|]. exists chain.
      by rewrite Nat.sub_0_r.
  - apply Forall2_fmap_l. unfold positions.
    pose proof (positions_from_deref t 0) as H. by rewrite drop_0 in H.
Qed.

(** C10. [find] and [contains] return the table as they received it,
    whatever the key, and a second call returns what the first did; they
    do return on every table that has a bucket. *)
Theorem find_contains_frame key t :
  (∀ it t', find key t = Ret (it, t') →
     t' = t ∧ ∀ it2 t2, find key t' = Ret (it2, t2) →
                        Iterator_eq it it2 = true ∧ it2 = it ∧ t2 = t) ∧
  (∀ b t', contains key t = Ret (b, t') →
     t' = t ∧ ∀ b2 t2, contains key t' = Ret (b2, t2) → b2 = b ∧ t2 = t) ∧
  (0 < bucketSize t →
   ∃ it b, find key t = Ret (it, t) ∧ contains key t = Ret (b, t)).
Proof.
  assert (∀ it, Iterator_eq it it = true) as Hrefl.
  { intros it. unfold Iterator_eq. destruct (endFlag it); simpl; [done|].
    rewrite Nat.eqb_refl. simpl. by apply bool_decide_eq_true. }
  split; [|split].
  - intros it t' Hfind. pose proof (find_state _ _ _ _ _ _ Hfind) as ->.
    split; [done|]. intros it2 t2 Hfind2. rewrite Hfind in Hfind2.
    injection Hfind2 as <- <-. by rewrite Hrefl.
  - intros b t' H. unfold_contains_in H.
    inv_bind H as [it t1] Hfind. pose proof (find_state _ _ _ _ _ _ Hfind) as ->.
    injection H as <- <-. split; [done|].
    intros b2 t2 H2. unfold_contains_in H2. rewrite Hfind in H2.
    by injection H2 as <- <-.
  - intros Hb. destruct (find_defined hash keyEqual key t Hb) as [it Hfind].
    exists it, (Iterator_neq it (end_ t)). split; [done|].
    unfold_contains. by rewrite Hfind.
Qed.

End Claims.

(** ** Where the code departs from its documentation *)

Lemma elem_of_sizes (p : Z) :
  p ∈ Sample.sizes ↔ p = 5 ∨ p = 11 ∨ p = 23 ∨ p = 47 ∨ p = 97.
Proof.
  unfold Sample.sizes. rewrite !elem_of_cons, elem_of_nil. tauto.
Qed.

(** Below the threshold [findMinimumBucketSize] returns its argument,
    whatever the size table holds. *)
Lemma findMinimumBucketSize_below {Key Value : Type} (g_a_sizes : list Z) (n : Z)
    (t : @HashTable Key Value) :
  dge (loadFactor t) (maxLoadFactor t) = false →
  findMinimumBucketSize g_a_sizes n t = Ret n.
Proof. intros H. unfold findMinimumBucketSize. fold (loadFactor t). by rewrite H. Qed.

(** [HashTable(n)] has [n] buckets, whatever the size table holds, for
    every [n] that the vector can be resized to. *)
Lemma HashTable_sized_eq {Key Value : Type} (g_a_sizes : list Z) (n : Z) :
  n ≤ max_size →
  HashTable_sized (Key:=Key) (Value:=Value) g_a_sizes n
  = Ret (mkHashTable (replicate (Z.to_nat n) []) (Z.to_nat n) 0 DEFAULT_LOAD_FACTOR).
Proof. intros Hn. by apply HashTable_sized_Ret. Qed.

(** A key that is not found yields the iterator [end()]. *)
Lemma find_absent {Key Value : Type} (hash : Key → Z) (keyEqual : Key → Key → bool)
    (key : Key) (t : @HashTable Key Value) it t' :
  find hash keyEqual key t = Ret (it, t') → endFlag it = true → it = end_ t.
Proof.
  intros H Hend. apply find_Ret in H as (i & chain & _ & _ & [H|H]).
  - destruct H as (j & node & _ & -> & _). done.
  - destruct H as [_ ->]. unfold end_, new_Iterator, buckets_end.
    by rewrite Nat.eqb_refl.
Qed.

(** C1. On the empty default table, [findMinimumBucketSize(6)] returns 6,
    which is not in the size table, where the documented contract asks for
    11; [rehash(6)] builds the six buckets. *)
Theorem findMinimumBucketSize_returns_argument :
  findMinimumBucketSize Sample.sizes 6 Sample.empty = Ret 6 ∧
  ¬ meets_requirements Sample.sizes 6 Sample.empty 6 ∧
  minimum_bucket_size Sample.sizes 6 Sample.empty 11 ∧
  rehash Sample.int_hash Sample.int_equal Sample.sizes 2 6 Sample.empty
  = Ret (mkHashTable (replicate 6 []) 6 0 literal_0_5).
Proof.
  split; [reflexivity|]. split; [|split; [|reflexivity]].
  - intros [H _]. apply elem_of_sizes in H. lia.
  - split.
    + split; [apply elem_of_sizes; lia|]. split; [lia | reflexivity].
    + intros q (Hq & Hle & _). apply elem_of_sizes in Hq. lia.
Qed.

(** The same function at the threshold: with five keys in five buckets
    and the threshold 1 it returns 5, which is not greater than
    [floor(5 / 1)]. *)
Lemma findMinimumBucketSize_at_threshold :
  findMinimumBucketSize Sample.sizes 5 Sample.full = Ret 5 ∧
  ¬ meets_requirements Sample.sizes 5 Sample.full 5 ∧
  minimum_bucket_size Sample.sizes 5 Sample.full 11.
Proof.
  split; [reflexivity|]. split.
  - intros (_ & _ & H). vm_compute in H. discriminate H.
  - split.
    + split; [apply elem_of_sizes; lia|]. split; [lia | reflexivity].
    + intros q (Hq & Hle & Hfl). apply elem_of_sizes in Hq.
      destruct Hq as [->|Hq]; [vm_compute in Hfl; discriminate Hfl | lia].
Qed.

(** The comparisons fall as they do on equal doubles. Three keys in five
    buckets have the load factor 0.6 exactly, so that under the threshold
    0.6 the third insertion does not call [rehash]; four keys in five
    buckets have the load factor 0.8 exactly, so that under the threshold
    0.8 [findMinimumBucketSize] looks a size up, and [rehash(7)] keeps the
    five buckets. After [setMaxLoadFactor(NaN)] no comparison holds and the
    table of five buckets takes any number of keys. *)
Lemma comparisons_of_equal_doubles :
  ddiv (of_size 3) (of_size 5) = Sample.literal_0_6 ∧
  insert Sample.int_hash Sample.int_equal Sample.sizes 0 3 30
    (mkHashTable [[]; [(1, 10)]; [(2, 20)]; []; []] 1 2 Sample.literal_0_6)
  = Ret (true, mkHashTable [[]; [(1, 10)]; [(2, 20)]; [(3, 30)]; []] 1 3
                 Sample.literal_0_6) ∧
  ddiv (of_size 4) (of_size 5) = Sample.literal_0_8 ∧
  findMinimumBucketSize Sample.sizes 7
    (mkHashTable [[]; [(1, 10)]; [(2, 20)]; [(3, 30)]; [(4, 40)]] 1 4
       Sample.literal_0_8)
  = Ret 5 ∧
  rehash Sample.int_hash Sample.int_equal Sample.sizes 1 7
    (mkHashTable [[]; [(1, 10)]; [(2, 20)]; [(3, 30)]; [(4, 40)]] 1 4
       Sample.literal_0_8)
  = Ret (mkHashTable [[]; [(1, 10)]; [(2, 20)]; [(3, 30)]; [(4, 40)]] 1 4
           Sample.literal_0_8) ∧
  setMaxLoadFactor Sample.int_hash Sample.int_equal Sample.sizes 1 S754_nan
    Sample.full
  = Ret (set_maxLoadFactor S754_nan Sample.full) ∧
  insert Sample.int_hash Sample.int_equal Sample.sizes 0 6 60
    (set_maxLoadFactor S754_nan Sample.full)
  = Ret (true, mkHashTable
                 [[(5, 50)]; [(6, 60); (1, 10)]; [(2, 20)]; [(3, 30)]; [(4, 40)]]
                 0 6 S754_nan).
Proof. repeat split; vm_compute; reflexivity. Qed.

(** C2. After [setMaxLoadFactor(0.7999999999999999)] on the default table
    and the insertion of the keys 1, 2 and 3, [insert(4, 40)] returns
    with four keys in five buckets: the load factor is the double nearest
    to 4/5, which is above the threshold. [rehash] was called and kept the
    five buckets, because [4.0 / maxLoadFactor] rounds to 5 and
    [lower_bound] accepts a size that equals the bound; a size greater
    than [floor(tableSize / maxLoadFactor)], as the contract of
    [findMinimumBucketSize] has it, is 11. *)
Theorem insert_exceeds_threshold :
  ddiv (of_size 7999999999999999) (of_size 10000000000000000) = Sample.below_0_8 ∧
  setMaxLoadFactor Sample.int_hash Sample.int_equal Sample.sizes 1
    Sample.below_0_8 Sample.empty
  = Ret (mkHashTable (replicate 5 []) 5 0 Sample.below_0_8) ∧
  reinsert (insert Sample.int_hash Sample.int_equal Sample.sizes 1)
    [(1, 10); (2, 20); (3, 30)] (mkHashTable (replicate 5 []) 5 0 Sample.below_0_8)
  = Ret Sample.loaded ∧
  insert Sample.int_hash Sample.int_equal Sample.sizes 1 4 40 Sample.loaded
  = Ret (true, Sample.overloaded) ∧
  dgt (loadFactor Sample.overloaded) (getMaxLoadFactor Sample.overloaded) = true ∧
  dle (loadFactor Sample.overloaded) (getMaxLoadFactor Sample.overloaded) = false ∧
  ddiv (of_size 4) Sample.below_0_8 = of_size 5 ∧
  findMinimumBucketSize Sample.sizes 10 Sample.overloaded = Ret 5 ∧
  minimum_bucket_size Sample.sizes 10 Sample.overloaded 11.
Proof.
  do 8 (split; [vm_compute; reflexivity|]). split.
  - split; [apply elem_of_sizes; lia|]. split; [lia | vm_compute; reflexivity].
  - intros q (Hq & Hle & _). apply elem_of_sizes in Hq. lia.
Qed.

(** C4. [HashTable(6)] is an empty table of six buckets although the
    smallest admissible size from 6 on is 11, and [HashTable(98)] returns
    although no admissible size fits; [HashTable()] has the first size of
    the table. *)
Theorem HashTable_sized_keeps_argument :
  HashTable_sized Sample.sizes 6
  = Ret (mkHashTable (replicate 6 []) 6 0 literal_0_5 : Sample.Table) ∧
  smallest_admissible Sample.sizes 6 11 ∧
  HashTable_sized Sample.sizes 98
  = Ret (mkHashTable (replicate 98 []) 98 0 literal_0_5 : Sample.Table) ∧
  (∀ p, ¬ smallest_admissible Sample.sizes 98 p) ∧
  bucketSize Sample.empty = 5 ∧ size Sample.empty = 0.
Proof.
  split; [reflexivity|]. split; [|split; [reflexivity|split; [|done]]].
  - split; [apply elem_of_sizes; lia|]. split; [lia|].
    intros q Hq Hle. apply elem_of_sizes in Hq. lia.
  - intros p (Hp & Hle & _). apply elem_of_sizes in Hp. lia.
Qed.

(** C5. On the empty default table [find(3)] returns [end()], whose
    bucket is [buckets.end()] and not bucket 3; [find(4)] returns the same
    iterator, and [insert] through it places key 4 by hashing it again. *)
Theorem find_absent_returns_end :
  find Sample.int_hash Sample.int_equal 3 Sample.empty
  = Ret (end_ Sample.empty, Sample.empty) ∧
  hashKey Sample.int_hash 3 Sample.empty = Ret 3%nat ∧
  bucketIt (end_ Sample.empty) = 5%nat ∧
  ¬ encodes_target_bucket Sample.int_hash 3 Sample.empty (end_ Sample.empty) ∧
  find Sample.int_hash Sample.int_equal 4 Sample.empty
  = Ret (end_ Sample.empty, Sample.empty) ∧
  insert_at Sample.int_hash Sample.int_equal Sample.sizes 0
    (end_ Sample.empty) 4 40 Sample.empty
  = Ret (true, mkHashTable [[]; []; []; []; [(4, 40)]] 4 1 literal_0_5).
Proof.
  split; [reflexivity|]. split; [reflexivity|]. split; [reflexivity|].
  split; [|split; reflexivity].
  unfold encodes_target_bucket. vm_compute. discriminate.
Qed.

(** C6. Erasing the only entry of a table returns the iterator that was
    passed in: it is not [end()], although the traversal ends after the
    erased entry, and it denotes no node. With a second entry in a later
    bucket the returned iterator is not the one of that entry either. *)
Theorem erase_returns_its_argument :
  let it := mkIterator 1 (1%nat, 0%nat) false in
  find Sample.int_hash Sample.int_equal 1 Sample.one = Ret (it, Sample.one) ∧
  traverse 1 Sample.one = Ret [it] ∧
  erase_it it Sample.one = Ret (it, Sample.empty) ∧
  Iterator_eq it (end_ Sample.empty) = false ∧
  deref it Sample.empty = Undefined ∧
  traverse 2 Sample.two = Ret [it; mkIterator 2 (2%nat, 0%nat) false] ∧
  erase_it it Sample.two
  = Ret (it, mkHashTable [[]; []; [(2, 20)]; []; []] 2 1 literal_0_5) ∧
  Iterator_eq it (mkIterator 2 (2%nat, 0%nat) false) = false.
Proof. repeat split; reflexivity. Qed.

(** When the iterator denotes not-found, [erase(it)] returns it and the
    table unchanged. *)
Lemma erase_it_end {Key Value : Type} (t : @HashTable Key Value) it :
  endFlag it = true → erase_it it t = Ret (it, t).
Proof. intros H. unfold erase_it. by rewrite H. Qed.

(** C8, as stated. The exception of [setMaxLoadFactor(0)] and the one of
    a failed sizing request are both of class [std::range_error]. *)
Lemma setMaxLoadFactor_error_not_distinct :
  ¬ invalid_argument_is_distinct (Value:=Z)
      Sample.int_hash Sample.int_equal Sample.sizes.
Proof.
  intros H.
  apply (H 0%nat (S754_zero false) Sample.empty (range_error "invalid load factor!")
           eq_refl eq_refl 10 Sample.crowded (range_error "Out of range.") eq_refl).
  reflexivity.
Qed.

(** ** Instances *)

Lemma Sample_key_requirements :
  key_requirements Sample.int_hash Sample.int_equal.
Proof.
  unfold Sample.int_equal, Sample.int_hash. split.
  - intros a. apply Z.eqb_refl.
  - intros a b H%Z.eqb_eq. by apply Z.eqb_eq.
  - intros a b c H1%Z.eqb_eq H2%Z.eqb_eq. apply Z.eqb_eq. congruence.
  - intros a b H%Z.eqb_eq. by rewrite H.
Qed.

Lemma Sample_empty_reachable :
  reachable Sample.int_hash Sample.int_equal 0 Sample.sizes Sample.empty.
Proof. apply reach_new. Qed.

Lemma Sample_one_reachable :
  reachable Sample.int_hash Sample.int_equal 0 Sample.sizes Sample.one.
Proof.
  apply (reach_step _ _ _ _ Sample.empty); [apply Sample_empty_reachable|].
  by apply (mut_insert _ _ _ _ 1%nat 1 10 _ true).
Qed.

Lemma Sample_two_reachable :
  reachable Sample.int_hash Sample.int_equal 0 Sample.sizes Sample.two.
Proof.
  apply (reach_step _ _ _ _ Sample.one); [apply Sample_one_reachable|].
  by apply (mut_insert _ _ _ _ 1%nat 2 20 _ true).
Qed.

Lemma Sample_three_reachable :
  reachable Sample.int_hash Sample.int_equal 0 Sample.sizes Sample.three.
Proof.
  apply (reach_step _ _ _ _ Sample.two); [apply Sample_two_reachable|].
  by apply (mut_insert _ _ _ _ 1%nat 3 30 _ true).
Qed.

Lemma firstBucketIt_is_first_occupied_witness :
  reachable Sample.int_hash Sample.int_equal 0 Sample.sizes Sample.two ∧
  mutates Sample.int_hash Sample.int_equal 0 Sample.sizes Sample.two Sample.three ∧
  first_occupied (buckets Sample.three) (firstBucketIt Sample.three) ∧
  (firstBucketIt Sample.three = buckets_end Sample.three
   ↔ concat (buckets Sample.three) = []) ∧
  (firstBucketIt Sample.three = buckets_end Sample.three ↔ size Sample.three = 0).
Proof.
  assert (mutates Sample.int_hash Sample.int_equal 0 Sample.sizes
            Sample.two Sample.three) as Hm
    by (by apply (mut_insert _ _ _ _ 1%nat 3 30 _ true)).
  split; [apply Sample_two_reachable|]. split; [exact Hm|].
  apply (firstBucketIt_is_first_occupied Sample.int_hash Sample.int_equal 0
           Sample.sizes Sample.two Sample.three Sample_two_reachable Hm).
Defined.


Lemma setMaxLoadFactor_range_error_witness :
  dle min_load_factor min_load_factor = true ∧
  setMaxLoadFactor Sample.int_hash Sample.int_equal Sample.sizes 2
    min_load_factor Sample.one
  = Throw (range_error "invalid load factor!") ∧
  dle Sample.literal_1 min_load_factor = false ∧
  setMaxLoadFactor Sample.int_hash Sample.int_equal Sample.sizes 2
    Sample.literal_1 Sample.one
  = rehash Sample.int_hash Sample.int_equal Sample.sizes 2
      (bucketSize Sample.one) (set_maxLoadFactor Sample.literal_1 Sample.one).
Proof.
  assert (dle min_load_factor min_load_factor = true) as H0 by reflexivity.
  assert (dle Sample.literal_1 min_load_factor = false) as H1 by reflexivity.
  split; [exact H0|]. split; [|split; [exact H1|]].
  - apply (proj2 (proj1 (setMaxLoadFactor_range_error Sample.int_hash
                           Sample.int_equal Sample.sizes 2 min_load_factor
                           Sample.one)) H0).
  - apply (proj2 (setMaxLoadFactor_range_error Sample.int_hash
                    Sample.int_equal Sample.sizes 2 Sample.literal_1 Sample.one) H1).
Defined.

Lemma traversal_visits_each_entry_once_witness :
  reachable Sample.int_hash Sample.int_equal 0 Sample.sizes Sample.three ∧
  (Z.to_nat (size Sample.three) ≤ 3)%nat ∧
  ∃ visited, traverse 3 Sample.three = Ret visited ∧
    Z.of_nat (length visited) = size Sample.three ∧
    NoDup visited ∧
    (∀ it, it ∈ visited ↔
       ∃ i j chain, it = mkIterator i (i, j) false ∧
                    buckets Sample.three !! i = Some chain ∧ (j < length chain)%nat) ∧
    Forall2 (λ it node, deref it Sample.three = Ret node) visited
      (concat (buckets Sample.three)).
Proof.
  assert (Z.to_nat (size Sample.three) ≤ 3)%nat as Hsteps by (vm_compute; lia).
  split; [apply Sample_three_reachable|]. split; [exact Hsteps|].
  apply (traversal_visits_each_entry_once Sample.int_hash Sample.int_equal 0
           Sample.sizes Sample.three 3 Sample_three_reachable Hsteps).
Defined.

Lemma find_contains_frame_witness :
  0 < bucketSize Sample.one ∧
  find Sample.int_hash Sample.int_equal 1 Sample.one
  = Ret (mkIterator 1 (1%nat, 0%nat) false, Sample.one) ∧
  (∃ it b, find Sample.int_hash Sample.int_equal 1 Sample.one = Ret (it, Sample.one) ∧
           contains Sample.int_hash Sample.int_equal 1 Sample.one
           = Ret (b, Sample.one)) ∧
  (Sample.one = Sample.one ∧
   ∀ it2 t2, find Sample.int_hash Sample.int_equal 1 Sample.one = Ret (it2, t2) →
             Iterator_eq (mkIterator 1 (1%nat, 0%nat) false) it2 = true ∧
             it2 = mkIterator 1 (1%nat, 0%nat) false ∧ t2 = Sample.one).
Proof.
  assert (0 < bucketSize Sample.one) as Hb by done.
  split; [exact Hb|]. split; [reflexivity|]. split.
  - apply (proj2 (proj2 (find_contains_frame Sample.int_hash Sample.int_equal
                           1 Sample.one)) Hb).
  - apply (proj1 (find_contains_frame Sample.int_hash Sample.int_equal
                    1 Sample.one) _ Sample.one eq_refl).
Defined.

(** * The table as a finite map *)

Section Chains.

Context {Key Value : Type}.
Variable hash : Key → Z.
Variable keyEqual : Key → Key → bool.
Hypothesis Hreq : key_requirements hash keyEqual.

Implicit Types (t : @HashTable Key Value) (key : Key) (value : Value).
Implicit Types (chain : HashNodeList Key Value) (node : HashNode Key Value).

(** ** Chains *)

Lemma find_in_chain_shift key chain k :
  find_in_chain keyEqual key chain (S k) = S <$> find_in_chain keyEqual key chain k.
Proof.
  revert k. induction chain as [|n chain IH]; intros k; simpl; [done|].
  destruct (keyEqual n.1 key); [done|]. apply IH.
Qed.

Lemma chain_value_cons key node chain :
  chain_value keyEqual key (node :: chain)
  = if keyEqual node.1 key then Some node.2 else chain_value keyEqual key chain.
Proof.
  unfold chain_value. simpl. destruct (keyEqual node.1 key); [done|].
  rewrite find_in_chain_shift.
  by destruct (find_in_chain keyEqual key chain 0).
Qed.

Lemma chain_value_app key (l1 l2 : HashNodeList Key Value) :
  chain_value keyEqual key (l1 ++ l2)
  = match chain_value keyEqual key l1 with
    | Some v => Some v
    | None => chain_value keyEqual key l2
    end.
Proof.
  induction l1 as [|n l1 IH]; [done|].
  rewrite <- app_comm_cons, !chain_value_cons.
  by destruct (keyEqual n.1 key).
Qed.

Lemma chain_value_None key chain :
  chain_value keyEqual key chain = None ↔
  ∀ node, node ∈ chain → keyEqual node.1 key = false.
Proof.
  induction chain as [|n chain IH].
  - split; [|done]. by intros _ node ?%elem_of_nil.
  - rewrite chain_value_cons. destruct (keyEqual n.1 key) eqn:E.
    + split; [done|]. intros H. rewrite (H n) in E; [done | by left].
    + rewrite IH. split.
      * intros H node [->|Hn]%elem_of_cons; [done | by apply H].
      * intros H node Hn. apply H. by right.
Qed.

Lemma chain_value_Some key chain v :
  chain_value keyEqual key chain = Some v →
  ∃ node, node ∈ chain ∧ keyEqual node.1 key = true ∧ node.2 = v.
Proof.
  induction chain as [|n chain IH]; [done|].
  rewrite chain_value_cons. destruct (keyEqual n.1 key) eqn:E.
  - intros [= <-]. exists n. split; [by left | done].
  - intros H. destruct (IH H) as (node & Hn & Hk & Hv).
    exists node. split; [by right | done].
Qed.

(** The node that the walk of [find] stops at splits the chain. *)
Lemma find_in_chain_split key chain j :
  find_in_chain keyEqual key chain 0 = Some j →
  ∃ l1 node l2, chain = l1 ++ node :: l2 ∧ length l1 = j ∧
    keyEqual node.1 key = true ∧
    ∀ other, other ∈ l1 → keyEqual other.1 key = false.
Proof.
  revert j. induction chain as [|n chain IH]; intros j; simpl; [done|].
  destruct (keyEqual n.1 key) eqn:E.
  - intros [= <-]. exists [], n, chain. split; [done|]. split; [done|].
    split; [done|]. by intros other ?%elem_of_nil.
  - rewrite find_in_chain_shift.
    destruct (find_in_chain keyEqual key chain 0) as [j'|] eqn:Ej; [|done].
    intros [= <-]. destruct (IH j' eq_refl) as (l1 & node & l2 & -> & Hlen & Hk & Hpre).
    exists (n :: l1), node, l2. split; [done|]. split; [simpl; lia|].
    split; [done|]. intros other [->|Ho]%elem_of_cons; [done | by apply Hpre].
Qed.

Lemma keys_distinct_app (l1 l2 : HashNodeList Key Value) :
  keys_distinct keyEqual (l1 ++ l2) ↔
  keys_distinct keyEqual l1 ∧ keys_distinct keyEqual l2 ∧
  ∀ a b, a ∈ l1 → b ∈ l2 → keyEqual a.1 b.1 = false.
Proof.
  induction l1 as [|n l1 IH]; simpl.
  - split; [|tauto]. intros H. split; [done|]. split; [done|].
    by intros a b ?%elem_of_nil.
  - rewrite IH. split.
    + intros (Hn & H1 & H2 & Hcross). split; [|split; [done|]].
      * split; [|done]. intros other Ho. apply Hn. apply elem_of_app. by left.
      * intros a b [->|Ha]%elem_of_cons Hb.
        -- apply Hn. apply elem_of_app. by right.
        -- by apply Hcross.
    + intros ((Hn & H1) & H2 & Hcross). split; [|split; [done|split; [done|]]].
      * intros other [Ho|Ho]%elem_of_app; [by apply Hn|].
        apply Hcross; [by left | done].
      * intros a b Ha Hb. apply Hcross; [by right | done].
Qed.

(** Distinctness is about the keys only. *)
Lemma keys_distinct_keys (l l' : HashNodeList Key Value) :
  l.*1 = l'.*1 → keys_distinct keyEqual l → keys_distinct keyEqual l'.
Proof.
  revert l'. induction l as [|n l IH]; intros [|n' l'] Hkeys; try done.
  rewrite !fmap_cons in Hkeys. injection Hkeys as Hn Hrest.
  simpl. intros [Hhead Htail]. split; [|by apply IH].
  intros other Ho. rewrite <- Hn.
  apply (list_elem_of_fmap_2 fst) in Ho. rewrite <- Hrest in Ho.
  apply list_elem_of_fmap in Ho as (o & Heq & Ho'). rewrite Heq.
  by apply Hhead.
Qed.

Lemma keyEqual_false_sym (a b : Key) : keyEqual a b = false → keyEqual b a = false.
Proof.
  intros H. destruct (keyEqual b a) eqn:E; [|done].
  apply (keyEqual_sym _ _ Hreq) in E. congruence.
Qed.

(** Two keys that equal the key of one node are equal. *)
Lemma keyEqual_via (a : Key) key key' :
  keyEqual a key = true → keyEqual a key' = true → keyEqual key key' = true.
Proof.
  intros H1 H2. apply (keyEqual_trans _ _ Hreq _ a); [|done].
  by apply (keyEqual_sym _ _ Hreq).
Qed.

(** Two nodes whose keys equal one key have equal keys. *)
Lemma keyEqual_nodes (a b : Key) key :
  keyEqual a key = true → keyEqual b key = true → keyEqual a b = true.
Proof.
  intros H1 H2. apply (keyEqual_trans _ _ Hreq _ key); [done|].
  by apply (keyEqual_sym _ _ Hreq).
Qed.

(** In a list of distinct keys the last node with an equal key is the
    first one. *)
Lemma last_value_distinct key (vec : HashNodeList Key Value) init :
  keys_distinct keyEqual vec →
  last_value keyEqual key vec init
  = match chain_value keyEqual key vec with
    | Some v => Some v
    | None => init
    end.
Proof.
  revert init. induction vec as [|n vec IH]; intros init; [done|].
  simpl. intros [Hn Hrest]. rewrite IH by done. rewrite chain_value_cons.
  destruct (keyEqual n.1 key) eqn:E; [|done].
  destruct (chain_value keyEqual key vec) as [v|] eqn:Ev; [|done].
  apply chain_value_Some in Ev as (node & Hnode & Hk & _).
  specialize (Hn node Hnode). by rewrite (keyEqual_nodes _ _ _ E Hk) in Hn.
Qed.

(** *** The three updates of a chain *)

Lemma chain_value_overwrite key key' value l1 node l2 :
  keyEqual node.1 key = true →
  (∀ other, other ∈ l1 → keyEqual other.1 key = false) →
  chain_value keyEqual key' (l1 ++ (node.1, value) :: l2)
  = if keyEqual key key' then Some value
    else chain_value keyEqual key' (l1 ++ node :: l2).
Proof.
  intros Hk Hpre. rewrite !chain_value_app, !chain_value_cons. simpl.
  destruct (keyEqual key key') eqn:E.
  - assert (chain_value keyEqual key' l1 = None) as ->.
    { apply chain_value_None. intros other Ho.
      destruct (keyEqual other.1 key') eqn:Eo; [|done].
      rewrite <- (Hpre other Ho). symmetry.
      apply (keyEqual_trans _ _ Hreq _ key'); [done|].
      by apply (keyEqual_sym _ _ Hreq). }
    by rewrite (keyEqual_trans _ _ Hreq _ _ _ Hk E).
  - destruct (keyEqual node.1 key') eqn:En; [|done].
    by rewrite (keyEqual_via _ _ _ Hk En) in E.
Qed.

Lemma chain_value_erase key key' l1 node l2 :
  keys_distinct keyEqual (l1 ++ node :: l2) →
  keyEqual node.1 key = true →
  (∀ other, other ∈ l1 → keyEqual other.1 key = false) →
  chain_value keyEqual key' (l1 ++ l2)
  = if keyEqual key key' then None
    else chain_value keyEqual key' (l1 ++ node :: l2).
Proof.
  intros Hd Hk Hpre. rewrite !chain_value_app, !chain_value_cons.
  apply keys_distinct_app in Hd as (_ & [Hnode _] & _).
  destruct (keyEqual key key') eqn:E.
  - assert (chain_value keyEqual key' l1 = None) as ->.
    { apply chain_value_None. intros other Ho.
      destruct (keyEqual other.1 key') eqn:Eo; [|done].
      rewrite <- (Hpre other Ho). symmetry.
      apply (keyEqual_trans _ _ Hreq _ key'); [done|].
      by apply (keyEqual_sym _ _ Hreq). }
    apply chain_value_None. intros other Ho.
    destruct (keyEqual other.1 key') eqn:Eo; [|done].
    rewrite <- (Hnode other Ho). symmetry.
    apply (keyEqual_nodes _ _ key'); [|done].
    by apply (keyEqual_trans _ _ Hreq _ key).
  - destruct (keyEqual node.1 key') eqn:En; [|done].
    by rewrite (keyEqual_via _ _ _ Hk En) in E.
Qed.

Lemma keys_distinct_push key value chain :
  (∀ other, other ∈ chain → keyEqual other.1 key = false) →
  keys_distinct keyEqual chain →
  keys_distinct keyEqual ((key, value) :: chain).
Proof.
  intros Hmiss Hd. split; [|done]. intros other Ho. simpl.
  apply keyEqual_false_sym. by apply Hmiss.
Qed.

Lemma keys_distinct_erase l1 node l2 :
  keys_distinct keyEqual (l1 ++ node :: l2) → keys_distinct keyEqual (l1 ++ l2).
Proof.
  rewrite !keys_distinct_app. simpl. intros (H1 & [_ H2] & Hcross).
  split; [done|]. split; [done|]. intros a b Ha Hb. apply Hcross; [done | by right].
Qed.

End Chains.

Section TableMap.

Context {Key Value : Type}.
Variable hash : Key → Z.
Variable keyEqual : Key → Key → bool.
Hypothesis Hreq : key_requirements hash keyEqual.

Implicit Types (t : @HashTable Key Value) (key : Key) (value : Value).
Implicit Types (chain : HashNodeList Key Value) (node : HashNode Key Value).
Implicit Types (bs : HashTableData Key Value).

(** ** Values under keys *)

Lemma insert_middle {A} (l1 l2 : list A) (x y : A) :
  <[length l1 := x]> (l1 ++ y :: l2) = l1 ++ x :: l2.
Proof. induction l1 as [|a l1 IH]; [done|]. simpl. by rewrite IH. Qed.

Lemma elem_of_concat bs node :
  node ∈ concat bs ↔ ∃ i chain, bs !! i = Some chain ∧ node ∈ chain.
Proof.
  rewrite list_elem_of_In, in_concat. split.
  - intros (chain & Hc & Hn). apply list_elem_of_In, list_elem_of_lookup in Hc as [i Hi].
    exists i, chain. split; [done | by apply list_elem_of_In].
  - intros (i & chain & Hi & Hn). exists chain.
    split; [|by apply list_elem_of_In].
    apply list_elem_of_In. by apply (list_elem_of_lookup_2 _ i).
Qed.

(** The value under a key is the value of the first node with an equal
    key in the bucket of the key. *)
Lemma value_at_chain key t i chain :
  hashKey hash key t = Ret i → buckets t !! i = Some chain →
  value_at hash keyEqual key t = chain_value keyEqual key chain.
Proof.
  intros Hi Hc. unfold value_at, find, chain_value. rewrite Hi.
  cbn [mbind result_bind]. unfold buckets_at. rewrite Hc. cbn [mbind result_bind].
  apply hashKey_Ret in Hi as (_ & _ & Hlt).
  destruct (find_in_chain keyEqual key chain 0) as [j|] eqn:E.
  - destruct (find_in_chain_Some _ _ _ _ _ E) as (node & Hn & _ & _).
    rewrite Nat.sub_0_r in Hn. unfold new_Iterator, buckets_end. simpl.
    replace (i =? length (buckets t))%nat with false
      by (symmetry; apply Nat.eqb_neq; lia).
    unfold deref. simpl. by rewrite Hc, Hn.
  - unfold new_Iterator, buckets_end. simpl. by rewrite Nat.eqb_refl.
Qed.

Lemma value_at_no_buckets key t :
  bucketSize t = 0 → value_at hash keyEqual key t = None.
Proof.
  intros H. unfold value_at, find, hashKey. by rewrite H.
Qed.

Lemma value_at_empty key n first size f :
  value_at hash keyEqual key
    (mkHashTable (replicate n ([] : HashNodeList Key Value)) first size f) = None.
Proof.
  set (t := mkHashTable _ _ _ _).
  destruct (decide (0 < bucketSize t)) as [Hb|Hb].
  - destruct (hashKey_defined hash key t Hb) as [i Hi].
    pose proof (hashKey_Ret _ _ _ _ Hi) as (_ & _ & Hlt).
    rewrite (value_at_chain key t i []); [done|done|].
    subst t. simpl in *. apply lookup_replicate. split; [done|].
    by rewrite length_replicate in Hlt.
  - apply value_at_no_buckets. unfold bucketSize in *. lia.
Qed.

(** The value under a key depends on the buckets only. *)
Lemma value_at_buckets key t t' :
  buckets t' = buckets t →
  value_at hash keyEqual key t' = value_at hash keyEqual key t.
Proof.
  intros Hbs. destruct (decide (0 < bucketSize t)) as [Hb|Hb].
  - destruct (hashKey_defined hash key t Hb) as [i Hi].
    pose proof (hashKey_Ret _ _ _ _ Hi) as (_ & _ & Hlt).
    destruct (lookup_lt_is_Some_2 (buckets t) i Hlt) as [chain Hc].
    rewrite (value_at_chain key t i chain Hi Hc).
    apply (value_at_chain key t' i); [|by rewrite Hbs].
    rewrite (hashKey_buckets hash key t); [done | by rewrite Hbs].
  - rewrite !value_at_no_buckets; (done || unfold bucketSize in *; rewrite ?Hbs; lia).
Qed.

(** Keys that are equal hash to the same bucket. *)
Lemma hashKey_equal key key' t :
  keyEqual key key' = true → hashKey hash key t = hashKey hash key' t.
Proof.
  intros H. unfold hashKey. by rewrite (hash_equal _ _ Hreq _ _ H).
Qed.

(** On a table where every node is in its bucket, a node with a key equal
    to [key] is in the bucket of [key]. *)
Lemma placed_match key t i i' chain node :
  placed hash t → hashKey hash key t = Ret i →
  buckets t !! i' = Some chain → node ∈ chain →
  keyEqual node.1 key = true → i' = i.
Proof.
  intros Hp Hi Hc Hn Hk. specialize (Hp i' chain node Hc Hn).
  rewrite (hashKey_equal _ _ _ Hk) in Hp. congruence.
Qed.

(** *** Prepending a node for a key that [find] missed *)

Lemma consistent_push key value t i chain :
  consistent hash keyEqual t →
  hashKey hash key t = Ret i → buckets t !! i = Some chain →
  chain_value keyEqual key chain = None →
  consistent hash keyEqual
    (mkHashTable (<[i := (key, value) :: chain]> (buckets t))
       (if (i <? firstBucketIt t)%nat then i else firstBucketIt t)
       (tableSize t + 1) (maxLoadFactor t)).
Proof.
  intros (Hwf & Hp & Hd) Hi Hc Hmiss.
  pose proof (lookup_lt_Some _ _ _ Hc) as Hlt.
  split; [by apply wf_push|]. split.
  - intros i' chain' node. simpl. intros Hc' Hn.
    rewrite (hashKey_buckets hash node.1 t) by (simpl; by rewrite length_insert).
    destruct (decide (i = i')) as [<-|Hne].
    + rewrite list_lookup_insert_eq in Hc' by done. injection Hc' as <-.
      apply elem_of_cons in Hn as [->|Hn]; [done | by apply (Hp i chain)].
    + rewrite list_lookup_insert_ne in Hc' by done. by apply (Hp i' chain').
  - intros i' chain'. simpl. intros Hc'.
    destruct (decide (i = i')) as [<-|Hne].
    + rewrite list_lookup_insert_eq in Hc' by done. injection Hc' as <-.
      apply (keys_distinct_push hash keyEqual Hreq); [|by apply (Hd i)].
      by apply chain_value_None.
    + rewrite list_lookup_insert_ne in Hc' by done. by apply (Hd i').
Qed.

Lemma value_at_push key value key' t i chain first size f :
  hashKey hash key t = Ret i → buckets t !! i = Some chain →
  value_at hash keyEqual key'
    (mkHashTable (<[i := (key, value) :: chain]> (buckets t)) first size f)
  = if keyEqual key key' then Some value else value_at hash keyEqual key' t.
Proof.
  intros Hi Hc. pose proof (lookup_lt_Some _ _ _ Hc) as Hlt.
  pose proof (hashKey_Ret _ _ _ _ Hi) as (Hb & _ & _).
  destruct (hashKey_defined hash key' t Hb) as [i' Hi'].
  pose proof (hashKey_Ret _ _ _ _ Hi') as (_ & _ & Hlt').
  destruct (lookup_lt_is_Some_2 (buckets t) i' Hlt') as [chain' Hc'].
  rewrite (value_at_chain key' t i' chain' Hi' Hc').
  set (t1 := mkHashTable _ _ _ _).
  assert (hashKey hash key' t1 = Ret i') as Hi1.
  { rewrite (hashKey_buckets hash key' t); [done|]. subst t1. simpl.
    by rewrite length_insert. }
  destruct (decide (i = i')) as [<-|Hne].
  - rewrite (value_at_chain key' t1 i ((key, value) :: chain) Hi1);
      [|subst t1; simpl; by rewrite list_lookup_insert_eq].
    rewrite chain_value_cons. simpl. rewrite Hc in Hc'. by injection Hc' as <-.
  - rewrite (value_at_chain key' t1 i' chain' Hi1);
      [|subst t1; simpl; by rewrite list_lookup_insert_ne].
    destruct (keyEqual key key') eqn:E; [|done].
    rewrite (hashKey_equal _ _ t E) in Hi. congruence.
Qed.

(** *** Overwriting the value of the node that [find] stopped at *)

Lemma consistent_overwrite t i j chain node value :
  consistent hash keyEqual t →
  buckets t !! i = Some chain → chain !! j = Some node →
  consistent hash keyEqual
    (mkHashTable (<[i := <[j := (node.1, value)]> chain]> (buckets t))
       (firstBucketIt t) (tableSize t) (maxLoadFactor t)).
Proof.
  intros (Hwf & Hp & Hd) Hc Hj.
  pose proof (lookup_lt_Some _ _ _ Hc) as Hlt.
  assert ((<[j := (node.1, value)]> chain).*1 = chain.*1) as Hkeys.
  { rewrite list_fmap_insert. simpl. apply list_insert_id.
    by rewrite list_lookup_fmap, Hj. }
  split; [by apply wf_overwrite|]. split.
  - intros i' chain' n. simpl. intros Hc' Hn.
    rewrite (hashKey_buckets hash n.1 t) by (simpl; by rewrite length_insert).
    destruct (decide (i = i')) as [<-|Hne].
    + rewrite list_lookup_insert_eq in Hc' by done. injection Hc' as <-.
      apply (list_elem_of_fmap_2 fst) in Hn. rewrite Hkeys in Hn.
      apply list_elem_of_fmap in Hn as (n' & -> & Hn'). by apply (Hp i chain).
    + rewrite list_lookup_insert_ne in Hc' by done. by apply (Hp i' chain').
  - intros i' chain'. simpl. intros Hc'.
    destruct (decide (i = i')) as [<-|Hne].
    + rewrite list_lookup_insert_eq in Hc' by done. injection Hc' as <-.
      apply (keys_distinct_keys keyEqual chain); [done | by apply (Hd i)].
    + rewrite list_lookup_insert_ne in Hc' by done. by apply (Hd i').
Qed.

Lemma value_at_overwrite key value key' t i j chain node first size f :
  hashKey hash key t = Ret i → buckets t !! i = Some chain →
  find_in_chain keyEqual key chain 0 = Some j → chain !! j = Some node →
  value_at hash keyEqual key'
    (mkHashTable (<[i := <[j := (node.1, value)]> chain]> (buckets t)) first size f)
  = if keyEqual key key' then Some value else value_at hash keyEqual key' t.
Proof.
  intros Hi Hc Hfind Hj. pose proof (lookup_lt_Some _ _ _ Hc) as Hlt.
  pose proof (hashKey_Ret _ _ _ _ Hi) as (Hb & _ & _).
  destruct (hashKey_defined hash key' t Hb) as [i' Hi'].
  pose proof (hashKey_Ret _ _ _ _ Hi') as (_ & _ & Hlt').
  destruct (lookup_lt_is_Some_2 (buckets t) i' Hlt') as [chain' Hc'].
  rewrite (value_at_chain key' t i' chain' Hi' Hc').
  destruct (find_in_chain_split _ _ _ _ Hfind) as (l1 & n & l2 & -> & Hlen & Hk & Hpre).
  subst j. rewrite list_lookup_middle in Hj by done. injection Hj as ->.
  rewrite insert_middle.
  set (t1 := mkHashTable _ _ _ _).
  assert (hashKey hash key' t1 = Ret i') as Hi1.
  { rewrite (hashKey_buckets hash key' t); [done|]. subst t1. simpl.
    by rewrite length_insert. }
  destruct (decide (i = i')) as [<-|Hne].
  - rewrite (value_at_chain key' t1 i (l1 ++ (node.1, value) :: l2) Hi1);
      [|subst t1; simpl; by rewrite list_lookup_insert_eq].
    rewrite Hc in Hc'. injection Hc' as <-.
    by apply (chain_value_overwrite hash keyEqual Hreq).
  - rewrite (value_at_chain key' t1 i' chain' Hi1);
      [|subst t1; simpl; by rewrite list_lookup_insert_ne].
    destruct (keyEqual key key') eqn:E; [|done].
    rewrite (hashKey_equal _ _ t E) in Hi. congruence.
Qed.

(** *** Removing the node that [find] stopped at *)

Lemma placed_sub t bs first size f :
  placed hash t → length bs = length (buckets t) →
  (∀ i chain node, bs !! i = Some chain → node ∈ chain →
     ∃ chain0, buckets t !! i = Some chain0 ∧ node ∈ chain0) →
  placed hash (mkHashTable bs first size f).
Proof.
  intros Hp Hlen Hsub i chain node Hc Hn. simpl in Hc.
  rewrite (hashKey_buckets hash node.1 t) by done.
  destruct (Hsub i chain node Hc Hn) as (chain0 & Hc0 & Hn0).
  by apply (Hp i chain0).
Qed.

Lemma consistent_pop t i j chain :
  consistent hash keyEqual t →
  buckets t !! i = Some chain → (j < length chain)%nat →
  let bs := <[i := delete j chain]> (buckets t) in
  consistent hash keyEqual
    (mkHashTable bs
       (if (firstBucketIt t <? i)%nat then firstBucketIt t
        else scan_nonempty (drop i bs) i)
       (tableSize t - 1) (maxLoadFactor t)).
Proof.
  intros (Hwf & Hp & Hd) Hc Hj bs.
  pose proof (lookup_lt_Some _ _ _ Hc) as Hlt.
  split; [by apply wf_pop|]. split.
  - apply (placed_sub t); [done|subst bs; by rewrite length_insert|].
    intros i' chain' node Hc' Hn. subst bs.
    destruct (decide (i = i')) as [<-|Hne].
    + rewrite list_lookup_insert_eq in Hc' by done. injection Hc' as <-.
      exists chain. split; [done|]. by apply list_elem_of_delete_inv in Hn.
    + rewrite list_lookup_insert_ne in Hc' by done. by exists chain'.
  - intros i' chain'. simpl. intros Hc'. subst bs.
    destruct (decide (i = i')) as [<-|Hne].
    + rewrite list_lookup_insert_eq in Hc' by done. injection Hc' as <-.
      destruct (lookup_lt_is_Some_2 chain j Hj) as [node Hn].
      rewrite delete_take_drop.
      apply (keys_distinct_erase keyEqual _ node).
      rewrite take_drop_middle by done. by apply (Hd i).
    + rewrite list_lookup_insert_ne in Hc' by done. by apply (Hd i').
Qed.

Lemma value_at_pop key key' t i j chain first size f :
  no_duplicates keyEqual t →
  hashKey hash key t = Ret i → buckets t !! i = Some chain →
  find_in_chain keyEqual key chain 0 = Some j →
  value_at hash keyEqual key'
    (mkHashTable (<[i := delete j chain]> (buckets t)) first size f)
  = if keyEqual key key' then None else value_at hash keyEqual key' t.
Proof.
  intros Hd Hi Hc Hfind. pose proof (lookup_lt_Some _ _ _ Hc) as Hlt.
  pose proof (hashKey_Ret _ _ _ _ Hi) as (Hb & _ & _).
  destruct (hashKey_defined hash key' t Hb) as [i' Hi'].
  pose proof (hashKey_Ret _ _ _ _ Hi') as (_ & _ & Hlt').
  destruct (lookup_lt_is_Some_2 (buckets t) i' Hlt') as [chain' Hc'].
  rewrite (value_at_chain key' t i' chain' Hi' Hc').
  pose proof (Hd i chain Hc) as Hdc.
  destruct (find_in_chain_split _ _ _ _ Hfind) as (l1 & n & l2 & -> & Hlen & Hk & Hpre).
  subst j. rewrite delete_middle.
  set (t1 := mkHashTable _ _ _ _).
  assert (hashKey hash key' t1 = Ret i') as Hi1.
  { rewrite (hashKey_buckets hash key' t); [done|]. subst t1. simpl.
    by rewrite length_insert. }
  destruct (decide (i = i')) as [<-|Hne].
  - rewrite (value_at_chain key' t1 i (l1 ++ l2) Hi1);
      [|subst t1; simpl; by rewrite list_lookup_insert_eq].
    rewrite Hc in Hc'. injection Hc' as <-.
    by apply (chain_value_erase hash keyEqual Hreq).
  - rewrite (value_at_chain key' t1 i' chain' Hi1);
      [|subst t1; simpl; by rewrite list_lookup_insert_ne].
    destruct (keyEqual key key') eqn:E; [|done].
    rewrite (hashKey_equal _ _ t E) in Hi. congruence.
Qed.

(** *** All nodes at once *)

(** The value under a key is the value of the first node with an equal
    key among all nodes of the table. *)
Lemma value_at_concat key t :
  placed hash t →
  value_at hash keyEqual key t = chain_value keyEqual key (concat (buckets t)).
Proof.
  intros Hp. destruct (decide (0 < bucketSize t)) as [Hb|Hb].
  - destruct (hashKey_defined hash key t Hb) as [i Hi].
    pose proof (hashKey_Ret _ _ _ _ Hi) as (_ & _ & Hlt).
    destruct (lookup_lt_is_Some_2 (buckets t) i Hlt) as [chain Hc].
    rewrite (value_at_chain key t i chain Hi Hc).
    rewrite <- (take_drop_middle (buckets t) i chain Hc).
    rewrite concat_app. simpl. rewrite !chain_value_app.
    assert (chain_value keyEqual key (concat (take i (buckets t))) = None) as ->.
    { apply chain_value_None. intros node (i' & chain' & Hc' & Hn)%elem_of_concat.
      destruct (keyEqual node.1 key) eqn:E; [|done]. exfalso.
      pose proof (lookup_lt_Some _ _ _ Hc') as Hlt'. rewrite length_take in Hlt'.
      rewrite lookup_take_lt in Hc' by lia.
      pose proof (placed_match key t i i' chain' node Hp Hi Hc' Hn E). lia. }
    destruct (chain_value keyEqual key chain) as [v|]; [done|].
    symmetry. apply chain_value_None.
    intros node (i' & chain' & Hc' & Hn)%elem_of_concat.
    destruct (keyEqual node.1 key) eqn:E; [|done]. exfalso.
    rewrite lookup_drop in Hc'.
    pose proof (placed_match key t i _ chain' node Hp Hi Hc' Hn E). lia.
  - rewrite value_at_no_buckets by (unfold bucketSize in *; lia).
    unfold bucketSize in Hb. destruct (buckets t); [done | simpl in Hb; lia].
Qed.

(** Nodes of different buckets have different keys. *)
Lemma consistent_concat_distinct t :
  consistent hash keyEqual t → keys_distinct keyEqual (concat (buckets t)).
Proof.
  intros (_ & Hp & Hd).
  rewrite <- (drop_0 (buckets t)). generalize 0%nat as k.
  intros k. remember (length (buckets t) - k)%nat as n eqn:Hn.
  revert k Hn. induction n as [|n IH]; intros k Hn.
  - by rewrite drop_ge by lia.
  - destruct (lookup_lt_is_Some_2 (buckets t) k) as [chain Hc]; [lia|].
    rewrite (drop_S _ _ _ Hc). simpl. apply keys_distinct_app.
    split; [by apply (Hd k)|]. split; [apply IH; lia|].
    intros a b Ha (i' & chain' & Hc' & Hb)%elem_of_concat.
    rewrite lookup_drop in Hc'.
    destruct (keyEqual a.1 b.1) eqn:E; [|done]. exfalso.
    pose proof (Hp k chain a Hc Ha) as Hka.
    pose proof (Hp _ chain' b Hc' Hb) as Hkb.
    rewrite (hashKey_equal _ _ t E) in Hka. rewrite Hka in Hkb.
    injection Hkb as Hkb. lia.
Qed.

End TableMap.

Section MapOperations.

Context {Key Value : Type}.
Variable hash : Key → Z.
Variable keyEqual : Key → Key → bool.
Variable Value_default : Value.
Variable g_a_sizes : list Z.
Hypothesis Hreq : key_requirements hash keyEqual.

Implicit Types (t : @HashTable Key Value) (it : Iterator) (key : Key) (value : Value).
Implicit Types (chain : HashNodeList Key Value) (node : HashNode Key Value).
Implicit Types (R : Z → @HashTable Key Value → result (@HashTable Key Value)).

(** ** The operations on the map *)

Lemma chain_value_equal key key' chain :
  keyEqual key key' = true →
  chain_value keyEqual key chain = chain_value keyEqual key' chain.
Proof.
  intros E. induction chain as [|n chain IH]; [done|].
  rewrite !chain_value_cons, IH.
  destruct (keyEqual n.1 key) eqn:E1.
  - by rewrite (keyEqual_trans _ _ Hreq _ _ _ E1 E).
  - destruct (keyEqual n.1 key') eqn:E2; [|done].
    assert (keyEqual n.1 key = true) as E3; [|congruence].
    apply (keyEqual_trans _ _ Hreq _ key'); [done|].
    by apply (keyEqual_sym _ _ Hreq).
Qed.

(** Equal keys have the same value. *)
Lemma value_at_equal key key' t :
  keyEqual key key' = true →
  value_at hash keyEqual key t = value_at hash keyEqual key' t.
Proof.
  intros E. destruct (decide (0 < bucketSize t)) as [Hb|Hb].
  - destruct (hashKey_defined hash key t Hb) as [i Hi].
    pose proof (hashKey_Ret _ _ _ _ Hi) as (_ & _ & Hlt).
    destruct (lookup_lt_is_Some_2 (buckets t) i Hlt) as [chain Hc].
    rewrite (value_at_chain hash keyEqual key t i chain Hi Hc).
    rewrite (hashKey_equal hash keyEqual Hreq _ _ t E) in Hi.
    rewrite (value_at_chain hash keyEqual key' t i chain Hi Hc).
    by apply chain_value_equal.
  - rewrite !value_at_no_buckets; (done || unfold bucketSize in *; lia).
Qed.

Lemma consistent_empty n f :
  dle f min_load_factor = false →
  consistent hash keyEqual
    (mkHashTable (replicate n ([] : HashNodeList Key Value)) n 0 f).
Proof.
  intros Hf. split; [by apply wf_empty|]. split.
  - intros i chain node [-> _]%lookup_replicate Hn. by apply elem_of_nil in Hn.
  - by intros i chain [-> _]%lookup_replicate.
Qed.

(** What [insert(key, value)] does to the map, given what the [rehash]
    it calls does. *)
Lemma insert_kv_map R key value t b t' :
  (∀ n t1 t2, consistent hash keyEqual t1 → R n t1 = Ret t2 →
     consistent hash keyEqual t2 ∧
     (∀ k, value_at hash keyEqual k t2 = value_at hash keyEqual k t1) ∧
     tableSize t2 = tableSize t1 ∧ maxLoadFactor t2 = maxLoadFactor t1) →
  consistent hash keyEqual t →
  insert_kv hash keyEqual R key value t = Ret (b, t') →
  consistent hash keyEqual t' ∧
  (∀ key', value_at hash keyEqual key' t'
           = if keyEqual key key' then Some value else value_at hash keyEqual key' t) ∧
  (b = true ↔ value_at hash keyEqual key t = None) ∧
  tableSize t' = tableSize t + (if b then 1 else 0) ∧
  maxLoadFactor t' = maxLoadFactor t.
Proof.
  intros HR Hcons H. unfold insert_kv in H.
  inv_bind H as [it t0] Hfind. pose proof (find_state _ _ _ _ _ _ Hfind) as ->.
  apply find_Ret in Hfind as (i & chain & Hi & Hc & [Hf|Hf]).
  - destruct Hf as (j & node & Hfc & -> & Hj & Hk).
    rewrite (insert_it_found_eq hash R i j key value t chain node Hc Hj) in H.
    injection H as <- <-.
    split; [by apply consistent_overwrite|].
    split; [intros key'; by apply (value_at_overwrite hash keyEqual Hreq)|].
    split; [|simpl; split; [lia | done]].
    rewrite (value_at_chain hash keyEqual key t i chain Hi Hc).
    unfold chain_value. rewrite Hfc, Hj. simpl. split; done.
  - destruct Hf as [Hfc ->].
    assert (chain_value keyEqual key chain = None) as Hmiss
      by (unfold chain_value; by rewrite Hfc).
    apply insert_it_end in H as (i' & chain' & Hi' & Hc' & -> & H); [|done].
    rewrite Hi in Hi'. injection Hi' as <-. rewrite Hc in Hc'. injection Hc' as <-.
    pose proof (consistent_push hash keyEqual Hreq key value t i chain Hcons Hi Hc Hmiss)
      as Hcons1.
    assert (value_at hash keyEqual key t = None) as Hnone
      by (by rewrite (value_at_chain hash keyEqual key t i chain Hi Hc)).
    set (t1 := mkHashTable _ _ _ _) in *.
    assert (∀ key', value_at hash keyEqual key' t1
                    = if keyEqual key key' then Some value
                      else value_at hash keyEqual key' t) as Hval1
      by (intros key'; by apply (value_at_push hash keyEqual Hreq)).
    destruct H as [[_ H]|[_ ->]].
    + destruct (HR _ _ _ Hcons1 H) as (Hcons' & Hval' & Hsize' & Hmax').
      split; [done|]. split; [intros key'; by rewrite Hval', Hval1|].
      split; [done|]. rewrite Hsize', Hmax'. done.
    + split; [done|]. split; [done|]. split; done.
Qed.

Lemma reinsert_map R vec t t' :
  (∀ n t1 t2, consistent hash keyEqual t1 → R n t1 = Ret t2 →
     consistent hash keyEqual t2 ∧
     (∀ k, value_at hash keyEqual k t2 = value_at hash keyEqual k t1) ∧
     tableSize t2 = tableSize t1 ∧ maxLoadFactor t2 = maxLoadFactor t1) →
  consistent hash keyEqual t →
  reinsert (insert_kv hash keyEqual R) vec t = Ret t' →
  consistent hash keyEqual t' ∧
  (∀ k, value_at hash keyEqual k t'
        = last_value keyEqual k vec (value_at hash keyEqual k t)) ∧
  maxLoadFactor t' = maxLoadFactor t ∧
  (keys_distinct keyEqual vec →
   (∀ node, node ∈ vec → value_at hash keyEqual node.1 t = None) →
   tableSize t' = tableSize t + Z.of_nat (length vec)).
Proof.
  intros HR. revert t. induction vec as [|[key value] vec IH]; intros t Hcons; simpl.
  - intros [= <-]. split; [done|]. split; [done|]. split; [done|]. intros _ _. lia.
  - intros H. inv_bind H as [b t1] Hins.
    destruct (insert_kv_map R key value t b t1 HR Hcons Hins)
      as (Hcons1 & Hval1 & Hb & Hsize1 & Hmax1).
    destruct (IH t1 Hcons1 H) as (Hcons' & Hval' & Hmax' & Hsize').
    split; [done|]. split; [|split; [by rewrite Hmax', Hmax1|]].
    + intros k. by rewrite Hval', Hval1.
    + intros [Hhead Htail] Hnew.
      rewrite Hsize'; [| done |].
      * assert (b = true) as -> by (apply Hb, (Hnew (key, value)); by left).
        rewrite Hsize1. lia.
      * intros node Hn. rewrite Hval1. rewrite (Hhead node Hn).
        apply Hnew. by right.
Qed.

(** [rehash] keeps every value and the size. *)
Lemma rehash_map fuel n t t' :
  consistent hash keyEqual t →
  rehash hash keyEqual g_a_sizes fuel n t = Ret t' →
  consistent hash keyEqual t' ∧
  (∀ k, value_at hash keyEqual k t' = value_at hash keyEqual k t) ∧
  tableSize t' = tableSize t ∧ maxLoadFactor t' = maxLoadFactor t.
Proof.
  revert n t t'. induction fuel as [|fuel IH]; intros n t t' Hcons; [done|].
  rewrite rehash_S. intros H. inv_bind H as p Hp.
  destruct (p =? bucketSize t); [by injection H as <-|].
  pose proof Hcons as (Hwf & Hplaced & Hdup).
  rewrite (drain_begin t) in H by (apply Hwf || lia). cbn [mbind result_bind] in H.
  inv_bind H as bs Hbs. apply resize_empty_Ret in Hbs as [_ ->].
  rewrite length_replicate in H.
  destruct (reinsert_map _ _ _ _ IH
              (consistent_empty (Z.to_nat p) (maxLoadFactor t) (wf_max _ Hwf)) H)
    as (Hcons' & Hval' & Hmax' & Hsize').
  split; [done|]. split; [|split; [|done]].
  - intros k. rewrite Hval', value_at_empty.
    rewrite (last_value_distinct hash keyEqual Hreq)
      by (by apply (consistent_concat_distinct hash keyEqual Hreq)).
    rewrite (value_at_concat hash keyEqual Hreq k t Hplaced).
    by destruct (chain_value keyEqual k (concat (buckets t))).
  - rewrite Hsize'.
    + simpl. rewrite (wf_size _ Hwf). unfold node_count. lia.
    + by apply (consistent_concat_distinct hash keyEqual Hreq).
    + intros node _. apply value_at_empty.
Qed.

End MapOperations.

Ltac unfold_insert := unfold insert.
Ltac unfold_erase_in H := unfold erase in H.
Ltac unfold_subscript_in H := unfold subscript in H.
Ltac unfold_setMaxLoadFactor_in H := unfold setMaxLoadFactor in H.
Ltac unfold_value_at_in H := unfold value_at in H.

Section MapTheorems.

Context {Key Value : Type}.
Variable hash : Key → Z.
Variable keyEqual : Key → Key → bool.
Variable Value_default : Value.
Variable g_a_sizes : list Z.
Hypothesis Hreq : key_requirements hash keyEqual.

Implicit Types (t : @HashTable Key Value) (it : Iterator) (key : Key) (value : Value).
Implicit Types (chain : HashNodeList Key Value) (node : HashNode Key Value).

Local Abbreviation built := (built hash keyEqual Value_default g_a_sizes).
Local Abbreviation updates := (updates hash keyEqual Value_default g_a_sizes).
Local Abbreviation consistent := (consistent hash keyEqual).
Local Abbreviation value_at := (value_at hash keyEqual).
Local Abbreviation insert := (insert hash keyEqual g_a_sizes).
Local Abbreviation insert_at := (insert_at hash keyEqual g_a_sizes).
Local Abbreviation find := (find hash keyEqual).
Local Abbreviation contains := (contains hash keyEqual).
Local Abbreviation erase := (erase hash keyEqual).
Local Abbreviation subscript := (subscript hash keyEqual Value_default g_a_sizes).
Local Abbreviation setMaxLoadFactor := (setMaxLoadFactor hash keyEqual g_a_sizes).
Local Abbreviation rehash := (rehash hash keyEqual g_a_sizes).

Lemma insert_map fuel key value t b t' :
  consistent t → insert fuel key value t = Ret (b, t') →
  consistent t' ∧
  (∀ key', value_at key' t' = if keyEqual key key' then Some value else value_at key' t) ∧
  (b = true ↔ value_at key t = None) ∧
  tableSize t' = tableSize t + (if b then 1 else 0) ∧
  maxLoadFactor t' = maxLoadFactor t.
Proof.
  unfold_insert. apply (insert_kv_map hash keyEqual Hreq).
  intros n t1 t2. apply (rehash_map hash keyEqual g_a_sizes Hreq).
Qed.

(** [erase(it)] on the position of a node. *)
Lemma erase_it_valid t i j chain :
  buckets t !! i = Some chain → (j < length chain)%nat →
  erase_it (mkIterator i (i, j) false) t
  = Ret (mkIterator i (i, j) false,
         let bs := <[i := delete j chain]> (buckets t) in
         mkHashTable bs
           (if (firstBucketIt t <? i)%nat then firstBucketIt t
            else scan_nonempty (drop i bs) i)
           (tableSize t - 1) (maxLoadFactor t)).
Proof.
  intros Hc Hj. unfold erase_it. simpl. rewrite Hc, Nat.eqb_refl. simpl.
  replace (length chain <=? j)%nat with false by (symmetry; apply Nat.leb_gt; lia).
  unfold set_buckets, set_firstBucketIt, set_tableSize. simpl.
  by destruct (firstBucketIt t <? i)%nat.
Qed.

Lemma erase_it_consistent it t it' t' :
  consistent t → erase_it it t = Ret (it', t') → consistent t'.
Proof.
  intros Hcons. unfold erase_it.
  destruct (endFlag it); [by intros [= _ <-]|].
  destruct (buckets t !! bucketIt it) as [chain|] eqn:Hi; [|done].
  destruct (listItBefore it) as [owner j].
  destruct (negb (owner =? bucketIt it)%nat || (length chain <=? j)%nat) eqn:E; [done|].
  apply orb_false_iff in E as [_ Hj]. apply Nat.leb_gt in Hj.
  pose proof (consistent_pop hash keyEqual t (bucketIt it) j chain Hcons Hi Hj) as H1.
  unfold set_buckets, set_firstBucketIt, set_tableSize. simpl in *.
  destruct (firstBucketIt t <? bucketIt it)%nat; intros [= _ <-]; exact H1.
Qed.

Lemma erase_map key t b t' :
  consistent t → erase key t = Ret (b, t') →
  consistent t' ∧
  (∀ key', value_at key' t' = if keyEqual key key' then None else value_at key' t) ∧
  (b = true ↔ is_Some (value_at key t)) ∧
  tableSize t' = tableSize t - (if b then 1 else 0) ∧
  length (buckets t') = length (buckets t) ∧
  maxLoadFactor t' = maxLoadFactor t ∧
  (b = false → t' = t).
Proof.
  intros Hcons H. unfold_erase_in H.
  inv_bind H as [it t0] Hfind. pose proof (find_state _ _ _ _ _ _ Hfind) as ->.
  apply find_Ret in Hfind as (i & chain & Hi & Hc & [Hf|Hf]).
  - destruct Hf as (j & node & Hfc & -> & Hj & Hk). simpl in H.
    pose proof (lookup_lt_Some _ _ _ Hj) as Hltj.
    rewrite (erase_it_valid t i j chain Hc Hltj) in H. cbn [mbind result_bind] in H.
    injection H as <- <-. cbv zeta.
    split; [by apply (consistent_pop hash keyEqual t i j chain)|].
    split; [intros key'; apply (value_at_pop hash keyEqual Hreq); (done || apply Hcons)|].
    split; [|simpl; split; [lia|split; [by rewrite length_insert|by split]]].
    rewrite (value_at_chain hash keyEqual key t i chain Hi Hc).
    unfold chain_value. rewrite Hfc, Hj. simpl. split; [by eexists | done].
  - destruct Hf as [Hfc ->]. simpl in H. injection H as <- <-.
    assert (value_at key t = None) as Hnone.
    { rewrite (value_at_chain hash keyEqual key t i chain Hi Hc).
      unfold chain_value. by rewrite Hfc. }
    split; [done|]. split.
    + intros key'. destruct (keyEqual key key') eqn:E; [|done].
      by rewrite <- (value_at_equal hash keyEqual Hreq key key' t E).
    + split; [|split; [lia|done]]. rewrite Hnone. split; [done|]. by intros [? ?].
Qed.

Lemma subscript_map fuel key t v t' :
  consistent t → subscript fuel key t = Ret (v, t') →
  consistent t' ∧ value_at key t' = Some v ∧
  match value_at key t with
  | Some v0 => v = v0 ∧ t' = t
  | None =>
      v = Value_default ∧ tableSize t' = tableSize t + 1 ∧
      ∀ key', value_at key' t'
              = if keyEqual key key' then Some Value_default else value_at key' t
  end.
Proof.
  intros Hcons H. unfold_subscript_in H.
  inv_bind H as [it t0] Hfind. pose proof (find_state _ _ _ _ _ _ Hfind) as ->.
  pose proof Hfind as Hfind0.
  apply find_Ret in Hfind as (i & chain & Hi & Hc & [Hf|Hf]).
  - destruct Hf as (j & node & Hfc & -> & Hj & Hk). simpl in H.
    rewrite (deref_valid t i j chain node Hc Hj) in H. cbn [mbind result_bind] in H.
    injection H as <- <-.
    assert (value_at key t = Some node.2) as Hval.
    { rewrite (value_at_chain hash keyEqual key t i chain Hi Hc).
      unfold chain_value. by rewrite Hfc, Hj. }
    rewrite Hval. split; [done|]. split; [done|]. by split.
  - destruct Hf as [Hfc ->]. simpl in H.
    assert (value_at key t = None) as Hnone.
    { rewrite (value_at_chain hash keyEqual key t i chain Hi Hc).
      unfold chain_value. by rewrite Hfc. }
    inv_bind H as [b t1] Hins. inv_bind H as [it2 t2] Hfind2.
    pose proof (find_state _ _ _ _ _ _ Hfind2) as ->.
    destruct (insert_map fuel key Value_default t b t1 Hcons Hins)
      as (Hcons1 & Hval1 & Hb & Hsize1 & _).
    assert (b = true) as -> by (by apply Hb).
    assert (value_at key t1 = Some Value_default) as Hv1
      by (by rewrite Hval1, (keyEqual_refl _ _ Hreq)).
    unfold_value_at_in Hv1. rewrite Hfind2 in Hv1.
    destruct (endFlag it2); [done|].
    destruct (deref it2 t1) as [node| | |]; [|done..].
    cbn [mbind result_bind] in H. injection H as <- <-. injection Hv1 as Hv1.
    rewrite Hnone, Hv1. split; [done|]. split; [|done].
    by rewrite Hval1, (keyEqual_refl _ _ Hreq).
Qed.

Lemma setMaxLoadFactor_map fuel f t t' :
  consistent t → setMaxLoadFactor fuel f t = Ret t' →
  consistent t' ∧ (∀ k, value_at k t' = value_at k t) ∧
  tableSize t' = tableSize t ∧ maxLoadFactor t' = f.
Proof.
  intros (Hwf & Hp & Hd) H. unfold_setMaxLoadFactor_in H.
  destruct (dle f min_load_factor) eqn:E; [done|].
  apply (rehash_map hash keyEqual g_a_sizes Hreq) in H as (Hcons' & Hval' & Hsize' & Hmax').
  - split; [done|].
    split; [intros k; rewrite Hval'; by apply (value_at_buckets hash keyEqual)|].
    split; [rewrite Hsize' | rewrite Hmax']; reflexivity.
  - destruct Hwf as [Hs Hf Hm]. split; [|done]. by split.
Qed.

Lemma updates_consistent t t' :
  consistent t → updates t t' → consistent t'.
Proof.
  intros Hcons Hu. destruct Hu.
  - by eapply insert_map.
  - pose proof (find_state _ _ _ _ _ _ H) as ->.
    apply (insert_map fuel key value t b t'); [done|].
    unfold_insert. unfold insert_kv. by rewrite H.
  - by eapply erase_map.
  - by eapply erase_it_consistent.
  - by eapply subscript_map.
  - by eapply (rehash_map hash keyEqual g_a_sizes Hreq).
  - by eapply setMaxLoadFactor_map.
  - unfold HashTable_copy. rewrite Nat.sub_0_r, Nat.add_0_l. by destruct t.
  - unfold assign, set_buckets, set_tableSize, set_maxLoadFactor, set_firstBucketIt.
    simpl. rewrite Nat.sub_0_r. by destruct t.
Qed.

Lemma built_is_consistent t : built t → consistent t.
Proof.
  induction 1 as [|n t H|t t' _ IH Hu].
  - by apply consistent_empty.
  - apply HashTable_sized_Ret in H as [_ ->]. by apply consistent_empty.
  - by apply (updates_consistent t).
Qed.

End MapTheorems.

(** * Further properties of the operations *)

(** ** Exceptions *)

Section Exceptions.

Context {Key Value : Type}.
Variable hash : Key → Z.
Variable keyEqual : Key → Key → bool.
Variable Value_default : Value.
Variable g_a_sizes : list Z.

Implicit Types (t : @HashTable Key Value) (it : Iterator) (key : Key) (value : Value).
Implicit Types (R : Z → @HashTable Key Value → result (@HashTable Key Value)).

(** The index that [hashKey] returns is in range, so that [buckets.at]
    does not throw. *)
Lemma buckets_at_hashKey key t i :
  hashKey hash key t = Ret i → ∃ chain, buckets_at t i = Ret chain.
Proof.
  intros (_ & _ & Hlt)%hashKey_Ret.
  destruct (lookup_lt_is_Some_2 (buckets t) i Hlt) as [chain Hc].
  exists chain. by apply buckets_at_Ret.
Qed.

Lemma hashKey_outcome key t :
  hashKey hash key t = Undefined ∨ ∃ i, hashKey hash key t = Ret i.
Proof. unfold hashKey. destruct (_ =? _); eauto. Qed.

Lemma find_no_Throw key t e : find hash keyEqual key t ≠ Throw e.
Proof.
  unfold find. destruct (hashKey_outcome key t) as [Hi|[i Hi]]; rewrite Hi; [done|].
  cbn [mbind result_bind]. destruct (buckets_at_hashKey key t i Hi) as [chain ->].
  cbn [mbind result_bind]. by destruct (find_in_chain keyEqual key chain 0).
Qed.

Lemma erase_it_no_Throw it t e : erase_it it t ≠ Throw e.
Proof.
  unfold erase_it. destruct (endFlag it); [done|].
  destruct (buckets t !! bucketIt it); [|done].
  destruct (listItBefore it). destruct (_ || _); [done|].
  by destruct (_ <? _)%nat.
Qed.

Lemma insert_it_Throw_growth R it key value t e :
  (∀ n t1 e1, R n t1 = Throw e1 → growth_failure e1) →
  insert_it hash R it key value t = Throw e → growth_failure e.
Proof.
  intros HR. unfold insert_it. destruct (endFlag it).
  - destruct (hashKey_outcome key (set_tableSize (tableSize t + 1) t)) as [Hi|[i Hi]];
      rewrite Hi; [done|].
    cbn [mbind result_bind].
    destruct (buckets_at_hashKey key _ i Hi) as [chain ->]. cbn [mbind result_bind].
    destruct (dgt _ _); [|done].
    destruct (R _ _) as [t1|e1| |] eqn:E; cbn [mbind result_bind]; try done.
    intros [= <-]. by apply (HR _ _ _ E).
  - destruct (buckets t !! _) as [chain|]; [|done]. by destruct (chain !! _).
Qed.

Lemma insert_kv_Throw_growth R key value t e :
  (∀ n t1 e1, R n t1 = Throw e1 → growth_failure e1) →
  insert_kv hash keyEqual R key value t = Throw e → growth_failure e.
Proof.
  intros HR. unfold insert_kv.
  destruct (find hash keyEqual key t) as [[it t1]|e1| |] eqn:E;
    cbn [mbind result_bind]; try done.
  - by apply insert_it_Throw_growth.
  - by apply find_no_Throw in E.
Qed.

Lemma reinsert_Throw_growth R vec t e :
  (∀ n t1 e1, R n t1 = Throw e1 → growth_failure e1) →
  reinsert (insert_kv hash keyEqual R) vec t = Throw e → growth_failure e.
Proof.
  intros HR. revert t. induction vec as [|[key value] vec IH]; intros t; [done|].
  cbn [reinsert].
  destruct (insert_kv hash keyEqual R key value t) as [[b t1]|e1| |] eqn:E;
    cbn [mbind result_bind]; try done.
  - apply IH.
  - intros [= <-]. by apply (insert_kv_Throw_growth _ _ _ _ _ HR E).
Qed.

Lemma rehash_Throw_growth fuel n t e :
  rehash hash keyEqual g_a_sizes fuel n t = Throw e → growth_failure e.
Proof.
  revert n t e. induction fuel as [|fuel IH]; intros n t e; [done|].
  rewrite rehash_S.
  destruct (findMinimumBucketSize_outcome g_a_sizes n t) as [[p ->]| ->];
    cbn [mbind result_bind]; [|intros [= <-]; by left].
  destruct (p =? bucketSize t); [done|].
  destruct (drain _ _ _ _) as [vec|e1| |] eqn:E; cbn [mbind result_bind]; try done.
  - unfold resize_empty. destruct (max_size <? p); cbn [mbind result_bind].
    + intros [= <-]. by right.
    + apply reinsert_Throw_growth. exact IH.
  - by apply drain_no_Throw in E.
Qed.

Lemma growth_failure_class e :
  growth_failure e → class_of e ≠ std_out_of_range.
Proof. by intros [-> | ->]. Qed.

(** X12. [std::out_of_range] never escapes from [buckets.at]: [find],
    [contains], [erase] and [erase(it)] throw nothing, and an exception
    of [rehash], of the two [insert] or of [operator[]] is not of that
    class. *)
Theorem out_of_range_is_never_thrown t e :
  (∀ key, find hash keyEqual key t ≠ Throw e) ∧
  (∀ key, contains hash keyEqual key t ≠ Throw e) ∧
  (∀ key, erase hash keyEqual key t ≠ Throw e) ∧
  (∀ it, erase_it it t ≠ Throw e) ∧
  (∀ fuel n, rehash hash keyEqual g_a_sizes fuel n t = Throw e →
             class_of e ≠ std_out_of_range) ∧
  (∀ fuel it key value,
     insert_at hash keyEqual g_a_sizes fuel it key value t = Throw e →
     class_of e ≠ std_out_of_range) ∧
  (∀ fuel key value,
     insert hash keyEqual g_a_sizes fuel key value t = Throw e →
     class_of e ≠ std_out_of_range) ∧
  (∀ fuel key,
     subscript hash keyEqual Value_default g_a_sizes fuel key t = Throw e →
     class_of e ≠ std_out_of_range).
Proof.
  assert (∀ fuel n t1 e1, rehash hash keyEqual g_a_sizes fuel n t1 = Throw e1 →
                          growth_failure e1) as HR
    by (intros fuel n t1 e1; apply rehash_Throw_growth).
  split; [intros key; apply find_no_Throw|].
  split.
  { intros key. unfold contains.
    destruct (find hash keyEqual key t) as [[it t1]|e1| |] eqn:E;
      cbn [mbind result_bind]; try done.
    by apply find_no_Throw in E. }
  split.
  { intros key. unfold erase.
    destruct (find hash keyEqual key t) as [[it t1]|e1| |] eqn:E;
      cbn [mbind result_bind]; try done.
    - destruct (endFlag it); [done|].
      destruct (erase_it it t1) as [[it' t2]|e1| |] eqn:E1;
        cbn [mbind result_bind]; try done.
      by apply erase_it_no_Throw in E1.
    - by apply find_no_Throw in E. }
  split; [intros it; apply erase_it_no_Throw|].
  split; [intros fuel n H; by apply growth_failure_class, (HR fuel n t)|].
  split.
  { intros fuel it key value H. apply growth_failure_class.
    by apply (insert_it_Throw_growth _ _ _ _ _ _ (HR fuel) H). }
  split.
  { intros fuel key value H. apply growth_failure_class.
    by apply (insert_kv_Throw_growth _ _ _ _ _ (HR fuel) H). }
  intros fuel key. unfold subscript.
  destruct (find hash keyEqual key t) as [[it t1]|e1| |] eqn:E;
    cbn [mbind result_bind]; try done; [|by apply find_no_Throw in E].
  destruct (endFlag it).
  - destruct (insert _ _ _ _ _ _ t1) as [[b t2]|e1| |] eqn:E1;
      cbn [mbind result_bind]; try done.
    + destruct (find hash keyEqual key t2) as [[it2 t3]|e2| |] eqn:E2;
        cbn [mbind result_bind]; try done; [|by apply find_no_Throw in E2].
      unfold deref. destruct (buckets t3 !! _) as [chain|]; [|done].
      by destruct (chain !! _).
    + intros [= <-]. apply growth_failure_class.
      by apply (insert_kv_Throw_growth _ _ _ _ _ (HR fuel) E1).
  - unfold deref. destruct (buckets t1 !! _) as [chain|]; [|done].
    by destruct (chain !! _).
Qed.

End Exceptions.

(** ** The iterator operators *)

Lemma Iterator_neq_negb (a b : Iterator) :
  Iterator_neq a b = negb (Iterator_eq a b).
Proof.
  unfold Iterator_neq, Iterator_eq.
  destruct (endFlag a && endFlag b); [done|]. by destruct (negb _).
Qed.

Lemma Iterator_eq_refl (a : Iterator) : Iterator_eq a a = true.
Proof.
  unfold Iterator_eq. destruct (endFlag a); simpl; [done|].
  rewrite Nat.eqb_refl. simpl. by apply bool_decide_eq_true.
Qed.

(** X13. [operator!=] is the negation of [operator==], which is reflexive
    and symmetric. *)
Theorem Iterator_neq_is_not_eq (a b : Iterator) :
  Iterator_neq a b = negb (Iterator_eq a b) ∧
  Iterator_eq a a = true ∧
  Iterator_eq a b = Iterator_eq b a.
Proof.
  split; [apply Iterator_neq_negb|]. split; [apply Iterator_eq_refl|].
  unfold Iterator_eq.
  rewrite (andb_comm (endFlag b)). destruct (endFlag a && endFlag b); [done|].
  rewrite (Nat.eqb_sym (bucketIt b)). destruct (negb _); [done|].
  apply bool_decide_ext. split; congruence.
Qed.

Ltac unfold_insert_eq := unfold insert, insert_kv.
Ltac unfold_insert_eq_in H := unfold insert, insert_kv in H.
Ltac unfold_contains_in' H := unfold contains in H.

Section Extras.

Context {Key Value : Type}.
Variable hash : Key → Z.
Variable keyEqual : Key → Key → bool.
Variable Value_default : Value.
Variable g_a_sizes : list Z.

Implicit Types (t : @HashTable Key Value) (it : Iterator) (key : Key) (value : Value).
Implicit Types (chain : HashNodeList Key Value) (node : HashNode Key Value).

Local Abbreviation reachable := (reachable hash keyEqual Value_default g_a_sizes).
Local Abbreviation built := (built hash keyEqual Value_default g_a_sizes).
Local Abbreviation value_at := (value_at hash keyEqual).
Local Abbreviation found := (found hash keyEqual).
Local Abbreviation insert := (insert hash keyEqual g_a_sizes).
Local Abbreviation find := (find hash keyEqual).
Local Abbreviation contains := (contains hash keyEqual).
Local Abbreviation erase := (erase hash keyEqual).
Local Abbreviation subscript := (subscript hash keyEqual Value_default g_a_sizes).
Local Abbreviation setMaxLoadFactor := (setMaxLoadFactor hash keyEqual g_a_sizes).
Local Abbreviation rehash := (rehash hash keyEqual g_a_sizes).

Lemma built_reachable t : built t → reachable t.
Proof.
  induction 1 as [|n t H|t t' _ IH Hu].
  - apply reach_new.
  - by apply (reach_sized _ _ _ _ n).
  - apply (reach_step _ _ _ _ t); [done|]. destruct Hu.
    + by eapply mut_insert.
    + pose proof (find_state _ _ _ _ _ _ H) as ->. by eapply mut_insert_at.
    + by eapply mut_erase.
    + by eapply mut_erase_it.
    + by eapply mut_subscript.
    + by eapply mut_rehash.
    + by eapply mut_setMaxLoadFactor.
    + apply mut_copy.
    + apply mut_assign.
Qed.

(** ** The table as a map from keys to values *)

(** X1. In a table that the operations built, every node is in the
    bucket that its key hashes to and no two nodes have equal keys. *)
Theorem built_tables_have_distinct_keys t :
  key_requirements hash keyEqual → built t →
  placed hash t ∧ keys_distinct keyEqual (concat (buckets t)).
Proof.
  intros Hreq Hb.
  pose proof (built_is_consistent hash keyEqual Value_default g_a_sizes Hreq t Hb) as Hc.
  split; [apply Hc|]. by apply (consistent_concat_distinct hash keyEqual Hreq).
Qed.

(** X2. [insert(key, value)] puts [value] under [key] and under the keys
    equal to it, leaves every other key as it was, also when it rehashes,
    returns [true] exactly when the key was absent and then adds one to
    [size()]. *)
Theorem insert_then_lookup fuel key value t b t' :
  key_requirements hash keyEqual → built t →
  insert fuel key value t = Ret (b, t') →
  (∀ key', value_at key' t'
           = if keyEqual key key' then Some value else value_at key' t) ∧
  (b = true ↔ value_at key t = None) ∧
  size t' = size t + (if b then 1 else 0) ∧
  getMaxLoadFactor t' = getMaxLoadFactor t.
Proof.
  intros Hreq Hb H.
  pose proof (built_is_consistent hash keyEqual Value_default g_a_sizes Hreq t Hb) as Hc.
  by destruct (insert_map hash keyEqual g_a_sizes Hreq fuel key value t b t' Hc H)
    as (_ & ? & ? & ? & ?).
Qed.

(** X3. [erase(key)] removes the value under [key] and under the keys
    equal to it and leaves every other key as it was; it returns [true]
    exactly when the key was present and then takes one from [size()];
    on an absent key the table is unchanged. It never changes the number
    of buckets or the threshold. *)
Theorem erase_then_lookup key t b t' :
  key_requirements hash keyEqual → built t →
  erase key t = Ret (b, t') →
  (∀ key', value_at key' t' = if keyEqual key key' then None else value_at key' t) ∧
  (b = true ↔ is_Some (value_at key t)) ∧
  size t' = size t - (if b then 1 else 0) ∧
  bucketSize t' = bucketSize t ∧
  getMaxLoadFactor t' = getMaxLoadFactor t ∧
  (b = false → t' = t).
Proof.
  intros Hreq Hb H.
  pose proof (built_is_consistent hash keyEqual Value_default g_a_sizes Hreq t Hb) as Hc.
  destruct (erase_map hash keyEqual Hreq key t b t' Hc H)
    as (_ & ? & ? & ? & Hlen & ? & ?).
  unfold bucketSize. by rewrite Hlen.
Qed.

(** X4. [rehash] keeps the value under every key, [size()] and the
    threshold, whatever bucket count it ends with. *)
Theorem rehash_keeps_values fuel n t t' :
  key_requirements hash keyEqual → built t →
  rehash fuel n t = Ret t' →
  (∀ key, value_at key t' = value_at key t) ∧
  size t' = size t ∧ getMaxLoadFactor t' = getMaxLoadFactor t.
Proof.
  intros Hreq Hb H.
  pose proof (built_is_consistent hash keyEqual Value_default g_a_sizes Hreq t Hb) as Hc.
  by destruct (rehash_map hash keyEqual g_a_sizes Hreq fuel n t t' Hc H) as (_ & ? & ? & ?).
Qed.

(** X5. When [setMaxLoadFactor(f)] returns, the threshold is [f], which
    is not [<= 1e-9], and the values and [size()] are as before. *)
Theorem setMaxLoadFactor_keeps_values fuel f t t' :
  key_requirements hash keyEqual → built t →
  setMaxLoadFactor fuel f t = Ret t' →
  getMaxLoadFactor t' = f ∧ dle f min_load_factor = false ∧
  (∀ key, value_at key t' = value_at key t) ∧ size t' = size t.
Proof.
  intros Hreq Hb H.
  pose proof (built_is_consistent hash keyEqual Value_default g_a_sizes Hreq t Hb)
    as Hc.
  destruct (setMaxLoadFactor_map hash keyEqual g_a_sizes Hreq fuel f t t' Hc H)
    as (_ & Hval & Hsize & Hmax).
  split; [done|]. split; [|by split].
  unfold_setMaxLoadFactor_in H. by destruct (dle f min_load_factor).
Qed.

(** X6. [operator[]] returns the value under the key and leaves the table
    as it is when the key is present; otherwise it returns [Value()],
    which it has put under the key, with one more entry and every other
    key as it was. *)
Theorem subscript_reads_or_inserts fuel key t v t' :
  key_requirements hash keyEqual → built t →
  subscript fuel key t = Ret (v, t') →
  value_at key t' = Some v ∧
  match value_at key t with
  | Some v0 => v = v0 ∧ t' = t
  | None =>
      v = Value_default ∧ size t' = size t + 1 ∧
      ∀ key', value_at key' t'
              = if keyEqual key key' then Some Value_default else value_at key' t
  end.
Proof.
  intros Hreq Hb H.
  pose proof (built_is_consistent hash keyEqual Value_default g_a_sizes Hreq t Hb) as Hc.
  by destruct (subscript_map hash keyEqual Value_default g_a_sizes Hreq fuel key t v t' Hc H)
    as (_ & ? & ?).
Qed.

(** X7. [contains(key)] is [true] exactly when [find(key)] finds a node,
    on any table. *)
Theorem contains_iff_value key t b t' :
  contains key t = Ret (b, t') →
  (b = true ↔ is_Some (value_at key t)) ∧ (b = true ↔ found key t).
Proof.
  intros H. unfold_contains_in' H.
  inv_bind H as [it t0] Hfind. pose proof (find_state _ _ _ _ _ _ Hfind) as ->.
  injection H as <- _.
  pose proof Hfind as Hfind0.
  apply find_Ret in Hfind as (i & chain & Hi & Hc & [Hf|Hf]).
  - destruct Hf as (j & node & Hfc & -> & Hj & Hk).
    pose proof (lookup_lt_Some _ _ _ Hc) as Hlt.
    rewrite Iterator_neq_end_valid by done.
    rewrite (value_at_chain hash keyEqual key t i chain Hi Hc).
    unfold chain_value. rewrite Hfc, Hj. simpl.
    split; (split; [intros _|done]); [by eexists|].
    by exists (mkIterator i (i, j) false), t.
  - destruct Hf as [Hfc ->]. rewrite Iterator_neq_end_end.
    rewrite (value_at_chain hash keyEqual key t i chain Hi Hc).
    unfold chain_value. rewrite Hfc.
    split; (split; [done|]); [by intros [? ?]|].
    intros (it & t1 & Hfind1 & Hend). rewrite Hfind0 in Hfind1.
    by injection Hfind1 as <- _.
Qed.

Lemma chain_value_elem (vec : HashNodeList Key Value) node :
  key_requirements hash keyEqual →
  keys_distinct keyEqual vec → node ∈ vec →
  chain_value keyEqual node.1 vec = Some node.2.
Proof.
  intros Hreq. induction vec as [|n vec IH]; [by intros _ ?%elem_of_nil|].
  simpl. intros [Hhead Htail] [->|Hn]%elem_of_cons; rewrite chain_value_cons.
  - by rewrite (keyEqual_refl _ _ Hreq).
  - rewrite (Hhead node Hn). by apply IH.
Qed.

(** X8. Inserting, one after the other, nodes with distinct keys that
    the table does not hold adds their number to [size()], puts each
    value under its key, and leaves the other keys as they were. *)
Theorem insert_all_distinct fuel vec t t' :
  key_requirements hash keyEqual → built t →
  keys_distinct keyEqual vec →
  (∀ node, node ∈ vec → value_at node.1 t = None) →
  reinsert (insert fuel) vec t = Ret t' →
  size t' = size t + Z.of_nat (length vec) ∧
  (∀ node, node ∈ vec → value_at node.1 t' = Some node.2) ∧
  (∀ key, (∀ node, node ∈ vec → keyEqual node.1 key = false) →
          value_at key t' = value_at key t).
Proof.
  intros Hreq Hb Hd Hnew H.
  pose proof (built_is_consistent hash keyEqual Value_default g_a_sizes Hreq t Hb) as Hc.
  destruct (reinsert_map hash keyEqual Hreq _ vec t t'
              (λ n t1 t2, rehash_map hash keyEqual g_a_sizes Hreq fuel n t1 t2) Hc H)
    as (_ & Hval & _ & Hsize).
  split; [by apply Hsize|]. split.
  - intros node Hn. rewrite Hval, (last_value_distinct hash keyEqual Hreq) by done.
    by rewrite (chain_value_elem _ _ Hreq Hd Hn).
  - intros key Hother. rewrite Hval, (last_value_distinct hash keyEqual Hreq) by done.
    by rewrite (proj2 (chain_value_None keyEqual key vec) Hother).
Qed.

(** ** Iteration *)

(** X9. On a reachable table [begin() == end()] exactly when [size()]
    is 0. *)
Theorem begin_is_end_iff_empty t :
  reachable t →
  (Iterator_eq (begin t) (end_ t) = true ↔ size t = 0) ∧
  (Iterator_neq (begin t) (end_ t) = true ↔ 0 < size t).
Proof.
  intros [Hsize Hfirst _]%reachable_wf.
  assert (firstBucketIt t = buckets_end t ↔ size t = 0) as Hiff.
  { unfold buckets_end, size. rewrite Hsize. unfold node_count. split.
    - intros E. rewrite E in Hfirst. apply first_occupied_end in Hfirst.
      by rewrite Hfirst.
    - intros E. apply (first_occupied_unique (buckets t)); [done|].
      apply first_occupied_end. destruct (concat (buckets t)); [done | simpl in E; lia]. }
  assert (0 ≤ size t) as Hnn by (unfold size; lia).
  rewrite Iterator_neq_negb.
  unfold begin. destruct (firstBucketIt t =? buckets_end t)%nat eqn:E; simpl.
  - apply Nat.eqb_eq in E. rewrite Iterator_eq_refl.
    simpl. apply Hiff in E. split; split; intros H; (done || lia).
  - apply Nat.eqb_neq in E.
    unfold Iterator_eq, new_Iterator, end_. simpl.
    replace (firstBucketIt t =? buckets_end t)%nat with false
      by (symmetry; by apply Nat.eqb_neq).
    simpl. assert (size t ≠ 0) as Hne by (intros E0; by apply Hiff in E0).
    split; split; intros H; (done || lia).
Qed.

(** X14. The iterator that [find] returns for a key it finds is one of
    the iterators of a full traversal, and it denotes a node with an
    equal key. *)
Theorem find_iterator_is_visited key t it t' steps :
  reachable t → (Z.to_nat (size t) ≤ steps)%nat →
  find key t = Ret (it, t') → endFlag it = false →
  ∃ visited node, traverse steps t = Ret visited ∧ it ∈ visited ∧
                  deref it t = Ret node ∧ keyEqual node.1 key = true.
Proof.
  intros [Hsize Hfirst _]%reachable_wf Hsteps Hfind Hend.
  apply find_Ret in Hfind as (i & chain & Hi & Hc & [Hf|Hf]);
    [|destruct Hf as [_ ->]; done].
  destruct Hf as (j & node & Hfc & -> & Hj & Hk).
  exists (iterator_at <$> positions t), node. split; [|split; [|split; [|done]]].
  - apply traverse_positions; [done|]. unfold size, node_count in *. lia.
  - apply list_elem_of_fmap. exists (i, j). split; [done|].
    apply elem_of_positions_from. split; [lia|]. exists chain.
    rewrite Nat.sub_0_r. split; [done|]. by apply lookup_lt_Some in Hj.
  - by apply (deref_valid t i j chain).
Qed.

(** ** Size, threshold and growth *)

(** X15. Every reachable table has as many nodes as [size()] says, and
    its threshold is never [<= 1e-9]. *)
Theorem reachable_size_and_threshold t :
  reachable t →
  size t = Z.of_nat (length (concat (buckets t))) ∧
  dle (getMaxLoadFactor t) min_load_factor = false.
Proof. by intros [Hsize Hfirst Hmax]%reachable_wf. Qed.

Lemma found_or_not key t :
  0 < bucketSize t → found key t ∨ ¬ found key t.
Proof.
  intros Hb. destruct (find_defined hash keyEqual key t Hb) as [it Hfind].
  destruct (endFlag it) eqn:E.
  - right. intros (it' & t' & Hfind' & Hend). rewrite Hfind in Hfind'.
    injection Hfind' as <- _. congruence.
  - left. by exists it, t.
Qed.

(** [insert] of a key that [find] misses: the node is prepended, and
    [rehash] is called exactly when the load factor, computed with the
    new entry, compares greater than the threshold. *)
Lemma insert_absent key value t :
  0 < bucketSize t → ¬ found key t →
  ∃ t1, bucketSize t1 = bucketSize t ∧ tableSize t1 = tableSize t + 1 ∧
        maxLoadFactor t1 = maxLoadFactor t ∧
        ∀ fuel, insert fuel key value t
                = if dgt (loadFactor t1) (maxLoadFactor t1)
                  then t' ← rehash fuel (bucketSize t1 * 2) t1; Ret (true, t')
                  else Ret (true, t1).
Proof.
  intros Hb Hnot. destruct (find_defined hash keyEqual key t Hb) as [it Hfind].
  pose proof Hfind as Hfind0.
  apply find_Ret in Hfind as (i & chain & Hi & Hc & [Hf|Hf]).
  - destruct Hf as (j & node & Hfc & -> & Hj & Hk).
    exfalso. apply Hnot. by exists (mkIterator i (i, j) false), t.
  - destruct Hf as [Hfc ->].
    exists (mkHashTable (<[i := (key, value) :: chain]> (buckets t))
              (if (i <? firstBucketIt t)%nat then i else firstBucketIt t)
              (tableSize t + 1) (maxLoadFactor t)).
    split; [unfold bucketSize; simpl; by rewrite length_insert|].
    split; [done|]. split; [done|]. intros fuel.
    unfold_insert_eq. rewrite Hfind0. cbn [mbind result_bind].
    by rewrite (insert_it_end_eq hash _ (mkIterator _ _ true) key value t i chain
                  eq_refl Hi Hc).
Qed.

(** X10. [insert(key, value)] throws only for a key that is absent and
    whose entry brings the load factor, as the code computes it, above
    the threshold; in that case it throws [std::range_error] when every
    size of the size table is below [ceil((size + 1) / maxLoadFactor)].
    When the load factor stays within the threshold the insertion
    returns without a call of [rehash]. *)
Theorem insert_throws_when_sizes_exhausted fuel key value t :
  0 < bucketSize t →
  let load := ddiv (of_size (size t + 1)) (of_size (bucketSize t)) in
  let bound := dceil (ddiv (of_size (size t + 1)) (getMaxLoadFactor t)) in
  (∀ e, insert fuel key value t = Throw e →
        ¬ found key t ∧ dgt load (getMaxLoadFactor t) = true) ∧
  (¬ found key t → dgt load (getMaxLoadFactor t) = true →
   (∀ a, a ∈ g_a_sizes → dlt (of_size a) bound = true) →
   insert (S fuel) key value t = Throw (range_error "Out of range.")) ∧
  (¬ found key t → dgt load (getMaxLoadFactor t) = false →
   ∃ t', insert 0 key value t = Ret (true, t') ∧
         insert fuel key value t = Ret (true, t') ∧
         bucketSize t' = bucketSize t ∧ size t' = size t + 1).
Proof.
  intros Hb load bound. unfold size, getMaxLoadFactor in *.
  assert (¬ found key t →
            ∃ t1, bucketSize t1 = bucketSize t ∧ tableSize t1 = tableSize t + 1 ∧
                  maxLoadFactor t1 = maxLoadFactor t ∧
                  loadFactor t1 = load ∧
                  ∀ fuel', insert fuel' key value t
                  = if dgt load (maxLoadFactor t)
                    then t' ← rehash fuel' (bucketSize t1 * 2) t1; Ret (true, t')
                    else Ret (true, t1)) as Habsent.
  { intros Hnot.
    destruct (insert_absent key value t Hb Hnot) as (t1 & Hb1 & Hs1 & Hm1 & Hins).
    assert (loadFactor t1 = load) as Hload
      by (unfold loadFactor; by rewrite Hb1, Hs1).
    exists t1. split; [done|]. split; [done|]. split; [done|]. split; [done|].
    intros fuel'. by rewrite Hins, Hload, Hm1. }
  split; [|split].
  - intros e H. destruct (found_or_not key t Hb) as [Hf|Hnot].
    + exfalso.
      destruct (insert_present hash keyEqual g_a_sizes key value t Hf)
        as (i & j & chain & node & _ & _ & _ & _ & Hins & _).
      cbv zeta in Hins. by rewrite (Hins fuel) in H.
    + split; [done|].
      destruct (Habsent Hnot) as (t1 & _ & _ & _ & _ & Hins).
      rewrite Hins in H. by destruct (dgt load (maxLoadFactor t)).
  - intros Hnot Hgt Hall.
    destruct (Habsent Hnot) as (t1 & Hb1 & Hs1 & Hm1 & Hload & Hins).
    rewrite Hins, Hgt, rehash_S.
    assert (dge (loadFactor t1) (maxLoadFactor t1) = true) as Hge
      by (apply dgt_dge; by rewrite Hload, Hm1).
    rewrite (findMinimumBucketSize_forced _ _ _ Hge), Hs1, Hm1.
    fold bound. by rewrite (proj2 (lower_bound_none g_a_sizes bound) Hall).
  - intros Hnot Hgt.
    destruct (Habsent Hnot) as (t1 & Hb1 & Hs1 & Hm1 & Hload & Hins).
    exists t1. by rewrite !Hins, Hgt.
Qed.

(** X11. An [insert] that returns leaves the number of buckets as it was
    when the key is present, when the load factor with the new entry
    stays within the threshold, and also when it exceeds the threshold
    but the first size that is not below [ceil((size + 1) / maxLoadFactor)]
    is the current number of buckets: then [rehash] returns at once and
    the table is left above its threshold. *)
Theorem insert_bucket_count fuel key value t b t' :
  insert fuel key value t = Ret (b, t') →
  let load := ddiv (of_size (size t + 1)) (of_size (bucketSize t)) in
  let bound := dceil (ddiv (of_size (size t + 1)) (getMaxLoadFactor t)) in
  (b = false → bucketSize t' = bucketSize t ∧ size t' = size t) ∧
  (b = true → dgt load (getMaxLoadFactor t) = false →
   bucketSize t' = bucketSize t ∧ size t' = size t + 1) ∧
  (b = true → dgt load (getMaxLoadFactor t) = true →
   lower_bound g_a_sizes bound = Some (bucketSize t) →
   bucketSize t' = bucketSize t ∧ size t' = size t + 1 ∧
   dgt (loadFactor t') (getMaxLoadFactor t') = true).
Proof.
  intros H load bound. unfold size, getMaxLoadFactor in *.
  unfold insert, insert_kv in H.
  inv_bind H as [it t0] Hfind. pose proof (find_state _ _ _ _ _ _ Hfind) as ->.
  apply find_Ret in Hfind as (i & chain & Hi & Hc & [Hf|Hf]).
  - destruct Hf as (j & node & Hfc & -> & Hj & Hk).
    rewrite (insert_it_found_eq hash _ i j key value t chain node Hc Hj) in H.
    injection H as <- <-. split; [|split; done].
    intros _. unfold bucketSize. simpl. by rewrite length_insert.
  - destruct Hf as [Hfc ->].
    apply insert_it_end in H as (i' & chain' & Hi' & Hc' & -> & H); [|done].
    set (t1 := mkHashTable _ _ _ _) in *.
    assert (bucketSize t1 = bucketSize t) as Hb1
      by (unfold bucketSize; subst t1; simpl; by rewrite length_insert).
    assert (loadFactor t1 = load) as Hload
      by (unfold loadFactor; by rewrite Hb1).
    rewrite Hload in H.
    split; [done|].
    destruct H as [[Hgt H]|[Hgt ->]].
    + split; [intros _ Hle; congruence|]. intros _ _ Hlb.
      destruct fuel as [|fuel]; [done|].
      rewrite (rehash_same hash keyEqual g_a_sizes fuel _ t1) in H.
      * injection H as <-. split; [done|]. split; [done|]. by rewrite Hload.
      * apply dgt_dge. by rewrite Hload.
      * by rewrite Hb1.
    + split; [by intros _ _|]. intros _ Hgt'. congruence.
Qed.

End Extras.

(** ** Instances of the further properties *)

Lemma Sample_empty_built :
  built Sample.int_hash Sample.int_equal 0 Sample.sizes Sample.empty.
Proof. apply built_new. Qed.

Lemma Sample_one_built :
  built Sample.int_hash Sample.int_equal 0 Sample.sizes Sample.one.
Proof.
  apply (built_step _ _ _ _ Sample.empty); [apply Sample_empty_built|].
  by apply (upd_insert _ _ _ _ 1%nat 1 10 _ true).
Qed.

Lemma Sample_two_built :
  built Sample.int_hash Sample.int_equal 0 Sample.sizes Sample.two.
Proof.
  apply (built_step _ _ _ _ Sample.one); [apply Sample_one_built|].
  by apply (upd_insert _ _ _ _ 1%nat 2 20 _ true).
Qed.

Lemma Sample_three_built :
  built Sample.int_hash Sample.int_equal 0 Sample.sizes Sample.three.
Proof.
  apply (built_step _ _ _ _ Sample.two); [apply Sample_two_built|].
  by apply (upd_insert _ _ _ _ 1%nat 3 30 _ true).
Qed.

Lemma built_tables_have_distinct_keys_witness :
  key_requirements Sample.int_hash Sample.int_equal ∧
  built Sample.int_hash Sample.int_equal 0 Sample.sizes Sample.three ∧
  placed Sample.int_hash Sample.three ∧
  keys_distinct Sample.int_equal (concat (buckets Sample.three)).
Proof.
  split; [apply Sample_key_requirements|]. split; [apply Sample_three_built|].
  apply (built_tables_have_distinct_keys Sample.int_hash Sample.int_equal 0 Sample.sizes
           Sample.three Sample_key_requirements Sample_three_built).
Defined.

Lemma insert_then_lookup_witness :
  key_requirements Sample.int_hash Sample.int_equal ∧
  built Sample.int_hash Sample.int_equal 0 Sample.sizes Sample.two ∧
  insert Sample.int_hash Sample.int_equal Sample.sizes 1 3 30 Sample.two
  = Ret (true, Sample.three) ∧
  (∀ key', value_at Sample.int_hash Sample.int_equal key' Sample.three
           = if Sample.int_equal 3 key' then Some 30
             else value_at Sample.int_hash Sample.int_equal key' Sample.two) ∧
  (true = true ↔ value_at Sample.int_hash Sample.int_equal 3 Sample.two = None) ∧
  size Sample.three = size Sample.two + 1 ∧
  getMaxLoadFactor Sample.three = getMaxLoadFactor Sample.two.
Proof.
  split; [apply Sample_key_requirements|]. split; [apply Sample_two_built|].
  split; [reflexivity|].
  apply (insert_then_lookup Sample.int_hash Sample.int_equal 0 Sample.sizes
           1 3 30 Sample.two true Sample.three
           Sample_key_requirements Sample_two_built eq_refl).
Defined.

Lemma erase_then_lookup_witness :
  key_requirements Sample.int_hash Sample.int_equal ∧
  built Sample.int_hash Sample.int_equal 0 Sample.sizes Sample.two ∧
  erase Sample.int_hash Sample.int_equal 1 Sample.two = Ret (true, Sample.erased) ∧
  (∀ key', value_at Sample.int_hash Sample.int_equal key' Sample.erased
           = if Sample.int_equal 1 key' then None
             else value_at Sample.int_hash Sample.int_equal key' Sample.two) ∧
  (true = true ↔ is_Some (value_at Sample.int_hash Sample.int_equal 1 Sample.two)) ∧
  size Sample.erased = size Sample.two - 1 ∧
  bucketSize Sample.erased = bucketSize Sample.two ∧
  getMaxLoadFactor Sample.erased = getMaxLoadFactor Sample.two ∧
  (true = false → Sample.erased = Sample.two).
Proof.
  split; [apply Sample_key_requirements|]. split; [apply Sample_two_built|].
  split; [reflexivity|].
  apply (erase_then_lookup Sample.int_hash Sample.int_equal 0 Sample.sizes
           1 Sample.two true Sample.erased Sample_key_requirements Sample_two_built eq_refl).
Defined.

Lemma rehash_keeps_values_witness :
  key_requirements Sample.int_hash Sample.int_equal ∧
  built Sample.int_hash Sample.int_equal 0 Sample.sizes Sample.two ∧
  rehash Sample.int_hash Sample.int_equal Sample.sizes 2 23 Sample.two
  = Ret Sample.spread ∧
  (∀ key, value_at Sample.int_hash Sample.int_equal key Sample.spread
          = value_at Sample.int_hash Sample.int_equal key Sample.two) ∧
  size Sample.spread = size Sample.two ∧
  getMaxLoadFactor Sample.spread = getMaxLoadFactor Sample.two.
Proof.
  split; [apply Sample_key_requirements|]. split; [apply Sample_two_built|].
  split; [reflexivity|].
  apply (rehash_keeps_values Sample.int_hash Sample.int_equal 0 Sample.sizes
           2 23 Sample.two Sample.spread
           Sample_key_requirements Sample_two_built eq_refl).
Defined.

Lemma setMaxLoadFactor_keeps_values_witness :
  key_requirements Sample.int_hash Sample.int_equal ∧
  built Sample.int_hash Sample.int_equal 0 Sample.sizes Sample.two ∧
  setMaxLoadFactor Sample.int_hash Sample.int_equal Sample.sizes 2
    Sample.literal_0_25 Sample.two
  = Ret Sample.quarter ∧
  getMaxLoadFactor Sample.quarter = Sample.literal_0_25 ∧
  dle Sample.literal_0_25 min_load_factor = false ∧
  (∀ key, value_at Sample.int_hash Sample.int_equal key Sample.quarter
          = value_at Sample.int_hash Sample.int_equal key Sample.two) ∧
  size Sample.quarter = size Sample.two.
Proof.
  split; [apply Sample_key_requirements|]. split; [apply Sample_two_built|].
  split; [reflexivity|].
  apply (setMaxLoadFactor_keeps_values Sample.int_hash Sample.int_equal 0 Sample.sizes
           2 Sample.literal_0_25 Sample.two Sample.quarter
           Sample_key_requirements Sample_two_built eq_refl).
Defined.

Lemma subscript_reads_or_inserts_witness :
  key_requirements Sample.int_hash Sample.int_equal ∧
  built Sample.int_hash Sample.int_equal 0 Sample.sizes Sample.one ∧
  subscript Sample.int_hash Sample.int_equal 0 Sample.sizes 1 2 Sample.one
  = Ret (0, Sample.defaulted) ∧
  value_at Sample.int_hash Sample.int_equal 2 Sample.defaulted = Some 0 ∧
  match value_at Sample.int_hash Sample.int_equal 2 Sample.one with
  | Some v0 => 0 = v0 ∧ Sample.defaulted = Sample.one
  | None =>
      0 = 0 ∧ size Sample.defaulted = size Sample.one + 1 ∧
      ∀ key', value_at Sample.int_hash Sample.int_equal key' Sample.defaulted
              = if Sample.int_equal 2 key' then Some 0
                else value_at Sample.int_hash Sample.int_equal key' Sample.one
  end.
Proof.
  split; [apply Sample_key_requirements|]. split; [apply Sample_one_built|].
  split; [reflexivity|].
  apply (subscript_reads_or_inserts Sample.int_hash Sample.int_equal 0 Sample.sizes
           1 2 Sample.one 0 Sample.defaulted Sample_key_requirements Sample_one_built eq_refl).
Defined.

Lemma contains_iff_value_witness :
  contains Sample.int_hash Sample.int_equal 1 Sample.one = Ret (true, Sample.one) ∧
  (true = true ↔ is_Some (value_at Sample.int_hash Sample.int_equal 1 Sample.one)) ∧
  (true = true ↔ found Sample.int_hash Sample.int_equal 1 Sample.one).
Proof.
  split; [reflexivity|].
  apply (contains_iff_value Sample.int_hash Sample.int_equal 1 Sample.one true
           Sample.one eq_refl).
Defined.

Lemma insert_all_distinct_witness :
  key_requirements Sample.int_hash Sample.int_equal ∧
  built Sample.int_hash Sample.int_equal 0 Sample.sizes Sample.empty ∧
  keys_distinct Sample.int_equal [(1, 10); (2, 20)] ∧
  (∀ node, node ∈ [(1, 10); (2, 20)] →
           value_at Sample.int_hash Sample.int_equal node.1 Sample.empty = None) ∧
  reinsert (insert Sample.int_hash Sample.int_equal Sample.sizes 1)
    [(1, 10); (2, 20)] Sample.empty = Ret Sample.two ∧
  size Sample.two = size Sample.empty + Z.of_nat (length [(1, 10); (2, 20)]) ∧
  (∀ node, node ∈ [(1, 10); (2, 20)] →
           value_at Sample.int_hash Sample.int_equal node.1 Sample.two = Some node.2) ∧
  (∀ key, (∀ node, node ∈ [(1, 10); (2, 20)] → Sample.int_equal node.1 key = false) →
          value_at Sample.int_hash Sample.int_equal key Sample.two
          = value_at Sample.int_hash Sample.int_equal key Sample.empty).
Proof.
  assert (keys_distinct Sample.int_equal [(1, 10); (2, 20)]) as Hd.
  { simpl. split; [|split; [|done]].
    - intros other [->|H]%elem_of_cons; [done | by apply elem_of_nil in H].
    - by intros other H%elem_of_nil. }
  assert (∀ node : Z * Z, node ∈ [(1, 10); (2, 20)] →
            value_at Sample.int_hash Sample.int_equal node.1 Sample.empty = None) as Hnew.
  { intros node Hn. apply (value_at_empty Sample.int_hash Sample.int_equal). }
  split; [apply Sample_key_requirements|]. split; [apply Sample_empty_built|].
  split; [exact Hd|]. split; [exact Hnew|]. split; [reflexivity|].
  apply (insert_all_distinct Sample.int_hash Sample.int_equal 0 Sample.sizes
           1 [(1, 10); (2, 20)] Sample.empty Sample.two
           Sample_key_requirements Sample_empty_built Hd Hnew eq_refl).
Defined.

Lemma begin_is_end_iff_empty_witness :
  reachable Sample.int_hash Sample.int_equal 0 Sample.sizes Sample.three ∧
  (Iterator_eq (begin Sample.three) (end_ Sample.three) = true ↔ size Sample.three = 0) ∧
  (Iterator_neq (begin Sample.three) (end_ Sample.three) = true ↔ 0 < size Sample.three).
Proof.
  split; [apply Sample_three_reachable|].
  apply (begin_is_end_iff_empty Sample.int_hash Sample.int_equal 0 Sample.sizes
           Sample.three Sample_three_reachable).
Defined.

Lemma Sample_crowded_misses_2 :
  ¬ found Sample.int_hash Sample.int_equal 2 Sample.crowded.
Proof. intros (it & t' & Hfind & Hend). injection Hfind as <- _. done. Qed.

Lemma insert_throws_when_sizes_exhausted_witness :
  0 < bucketSize Sample.crowded ∧
  ¬ found Sample.int_hash Sample.int_equal 2 Sample.crowded ∧
  dgt (ddiv (of_size (size Sample.crowded + 1)) (of_size (bucketSize Sample.crowded)))
      (getMaxLoadFactor Sample.crowded) = true ∧
  (∀ a, a ∈ Sample.sizes →
        dlt (of_size a)
            (dceil (ddiv (of_size (size Sample.crowded + 1))
                         (getMaxLoadFactor Sample.crowded))) = true) ∧
  insert Sample.int_hash Sample.int_equal Sample.sizes 1 2 20 Sample.crowded
  = Throw (range_error "Out of range.").
Proof.
  assert (0 < bucketSize Sample.crowded) as Hb by done.
  assert (dgt (ddiv (of_size (size Sample.crowded + 1))
                    (of_size (bucketSize Sample.crowded)))
              (getMaxLoadFactor Sample.crowded) = true) as Hgt by reflexivity.
  assert (∀ a, a ∈ Sample.sizes →
            dlt (of_size a)
                (dceil (ddiv (of_size (size Sample.crowded + 1))
                             (getMaxLoadFactor Sample.crowded))) = true) as Hall.
  { intros a Ha. apply elem_of_sizes in Ha.
    destruct Ha as [->|[->|[->|[->| ->]]]]; reflexivity. }
  split; [exact Hb|]. split; [exact Sample_crowded_misses_2|].
  split; [exact Hgt|]. split; [exact Hall|].
  apply (proj1 (proj2 (insert_throws_when_sizes_exhausted Sample.int_hash
                         Sample.int_equal Sample.sizes 0 2 20 Sample.crowded Hb))
           Sample_crowded_misses_2 Hgt Hall).
Defined.

Lemma insert_bucket_count_witness :
  insert Sample.int_hash Sample.int_equal Sample.sizes 1 4 40 Sample.loaded
  = Ret (true, Sample.overloaded) ∧
  dgt (ddiv (of_size (size Sample.loaded + 1)) (of_size (bucketSize Sample.loaded)))
      (getMaxLoadFactor Sample.loaded) = true ∧
  lower_bound Sample.sizes
    (dceil (ddiv (of_size (size Sample.loaded + 1)) (getMaxLoadFactor Sample.loaded)))
  = Some (bucketSize Sample.loaded) ∧
  bucketSize Sample.overloaded = bucketSize Sample.loaded ∧
  size Sample.overloaded = size Sample.loaded + 1 ∧
  dgt (loadFactor Sample.overloaded) (getMaxLoadFactor Sample.overloaded) = true.
Proof.
  assert (dgt (ddiv (of_size (size Sample.loaded + 1))
                    (of_size (bucketSize Sample.loaded)))
              (getMaxLoadFactor Sample.loaded) = true) as Hgt by reflexivity.
  assert (lower_bound Sample.sizes
            (dceil (ddiv (of_size (size Sample.loaded + 1))
                         (getMaxLoadFactor Sample.loaded)))
          = Some (bucketSize Sample.loaded)) as Hlb by reflexivity.
  split; [reflexivity|]. split; [exact Hgt|]. split; [exact Hlb|].
  apply (proj2 (proj2 (insert_bucket_count Sample.int_hash Sample.int_equal Sample.sizes
                         1 4 40 Sample.loaded true Sample.overloaded eq_refl))
           eq_refl Hgt Hlb).
Defined.

Lemma out_of_range_is_never_thrown_witness :
  insert Sample.int_hash Sample.int_equal Sample.sizes 1 2 20 Sample.crowded
  = Throw (range_error "Out of range.") ∧
  class_of (range_error "Out of range.") ≠ std_out_of_range.
Proof.
  split; [reflexivity|].
  apply (proj1 (proj2 (proj2 (proj2 (proj2 (proj2 (proj2
           (out_of_range_is_never_thrown Sample.int_hash Sample.int_equal 0
              Sample.sizes Sample.crowded (range_error "Out of range."))))))))
           1%nat 2 20 eq_refl).
Defined.

Lemma find_iterator_is_visited_witness :
  reachable Sample.int_hash Sample.int_equal 0 Sample.sizes Sample.three ∧
  (Z.to_nat (size Sample.three) ≤ 3)%nat ∧
  find Sample.int_hash Sample.int_equal 2 Sample.three
  = Ret (mkIterator 2 (2%nat, 0%nat) false, Sample.three) ∧
  ∃ visited node, traverse 3 Sample.three = Ret visited ∧
    mkIterator 2 (2%nat, 0%nat) false ∈ visited ∧
    deref (mkIterator 2 (2%nat, 0%nat) false) Sample.three = Ret node ∧
    Sample.int_equal node.1 2 = true.
Proof.
  assert (Z.to_nat (size Sample.three) ≤ 3)%nat as Hsteps by (vm_compute; lia).
  split; [apply Sample_three_reachable|]. split; [exact Hsteps|].
  split; [reflexivity|].
  apply (find_iterator_is_visited Sample.int_hash Sample.int_equal 0 Sample.sizes
           2 Sample.three _ Sample.three 3 Sample_three_reachable Hsteps eq_refl eq_refl).
Defined.

Lemma reachable_size_and_threshold_witness :
  reachable Sample.int_hash Sample.int_equal 0 Sample.sizes Sample.three ∧
  size Sample.three = Z.of_nat (length (concat (buckets Sample.three))) ∧
  dle (getMaxLoadFactor Sample.three) min_load_factor = false.
Proof.
  split; [apply Sample_three_reachable|].
  apply (reachable_size_and_threshold Sample.int_hash Sample.int_equal 0 Sample.sizes
           Sample.three Sample_three_reachable).
Defined.

(** ** What [erase(it)] returns, and [rehash] below the threshold *)

Section EraseResult.

Context {Key Value : Type}.
Variable hash : Key → Z.
Variable keyEqual : Key → Key → bool.
Variable g_a_sizes : list Z.

Implicit Types (t : @HashTable Key Value) (it : Iterator) (key : Key) (value : Value).
Implicit Types (chain : HashNodeList Key Value) (node : HashNode Key Value).

(** X16. [erase(it)] on the position of a node returns [it] itself. When
    the erased node had a next node in its chain, [it] now denotes that
    node; when it was the last of its chain, [it] denotes no node, and
    incrementing it gives the first node of the next non-empty bucket, or
    [end()]. *)
Theorem erase_it_result t i j chain node :
  buckets t !! i = Some chain → chain !! j = Some node →
  let it := mkIterator i (i, j) false in
  ∃ t', erase_it it t = Ret (it, t') ∧
    size t' = size t - 1 ∧
    match chain !! S j with
    | Some next => deref it t' = Ret next
    | None =>
        deref it t' = Undefined ∧
        increment it t'
        = Ret (let b := scan_nonempty (drop (S i) (buckets t)) (S i) in
               if (b =? buckets_end t)%nat then mkIterator b (i, j) true
               else mkIterator b (b, 0%nat) false)
    end.
Proof.
  intros Hc Hj. cbv zeta. pose proof (lookup_lt_Some _ _ _ Hc) as Hlt.
  pose proof (lookup_lt_Some _ _ _ Hj) as Hltj.
  rewrite (erase_it_valid t i j chain Hc Hltj).
  eexists. split; [done|]. split; [done|].
  destruct (chain !! S j) as [next|] eqn:Hnext.
  - unfold deref. simpl. rewrite list_lookup_insert_eq by done.
    rewrite list_lookup_delete_ge by lia. by rewrite Hnext.
  - apply lookup_ge_None in Hnext.
    assert (length (delete j chain) = j) as Hlen.
    { rewrite length_delete by (by eexists). lia. }
    split.
    + unfold deref. simpl. rewrite list_lookup_insert_eq by done.
      rewrite list_lookup_delete_ge by lia.
      by rewrite (proj2 (lookup_ge_None chain (S j))) by lia.
    + unfold increment, buckets_end. simpl. rewrite length_insert.
      replace (i =? length (buckets t))%nat with false
        by (symmetry; apply Nat.eqb_neq; lia).
      rewrite list_lookup_insert_eq by done. rewrite Nat.eqb_refl, Hlen. simpl.
      rewrite Nat.ltb_irrefl. simpl.
      rewrite drop_insert_lt by lia.
      by destruct (scan_nonempty (drop (S i) (buckets t)) (S i) =? length (buckets t))%nat.
Qed.

(** X17. Below the threshold [rehash(n)] takes the argument as the number
    of buckets: when no prefix of the entries brings the load factor of
    [n] buckets above the threshold, a [rehash(n)] that returns leaves
    exactly [n] buckets, whether or not [n] is a size of the size table,
    and [rehash(bucketSize())] changes nothing. *)
Theorem rehash_to_requested_count fuel n t t' :
  wf t → dge (loadFactor t) (getMaxLoadFactor t) = false → 0 < n →
  (∀ k, 0 < k ≤ size t →
        dgt (ddiv (of_size k) (of_size n)) (getMaxLoadFactor t) = false) →
  rehash hash keyEqual g_a_sizes fuel n t = Ret t' →
  bucketSize t' = n ∧ (n = bucketSize t → t' = t).
Proof.
  unfold getMaxLoadFactor, size. intros Hwf Hlow Hn Hfit H.
  destruct fuel as [|fuel]; [done|]. rewrite rehash_S in H.
  rewrite (findMinimumBucketSize_below g_a_sizes n t Hlow) in H.
  cbn [mbind result_bind] in H.
  destruct (n =? bucketSize t) eqn:E.
  - apply Z.eqb_eq in E. by injection H as <-.
  - apply Z.eqb_neq in E.
    rewrite (drain_begin t) in H by (apply Hwf || lia). cbn [mbind result_bind] in H.
    inv_bind H as bs Hbs. apply resize_empty_Ret in Hbs as [_ ->].
    rewrite length_replicate in H.
    destruct (reinsert_within hash keyEqual (rehash hash keyEqual g_a_sizes fuel)
                (concat (buckets t))
                (mkHashTable (replicate (Z.to_nat n) []) (Z.to_nat n) 0 (maxLoadFactor t)))
      as (t'' & Hre & _ & Hlen' & _).
    + apply wf_empty, (wf_max _ Hwf).
    + unfold bucketSize. simpl. rewrite length_replicate. lia.
    + intros k Hk. unfold bucketSize. cbn [buckets tableSize maxLoadFactor] in *.
      rewrite length_replicate. rewrite Z2Nat.id by lia.
      apply Hfit. rewrite (wf_size _ Hwf). unfold node_count. lia.
    + rewrite Hre in H. injection H as <-. split; [|done].
      unfold bucketSize. rewrite Hlen'. simpl. rewrite length_replicate. lia.
Qed.

End EraseResult.

Lemma erase_it_result_witness :
  buckets Sample.two !! 1%nat = Some [(1, 10)] ∧
  [(1, 10)] !! 0%nat = Some (1, 10) ∧
  ∃ t', erase_it (mkIterator 1 (1%nat, 0%nat) false) Sample.two
        = Ret (mkIterator 1 (1%nat, 0%nat) false, t') ∧
    size t' = size Sample.two - 1 ∧
    deref (mkIterator 1 (1%nat, 0%nat) false) t' = Undefined ∧
    increment (mkIterator 1 (1%nat, 0%nat) false) t'
    = Ret (mkIterator 2 (2%nat, 0%nat) false).
Proof.
  split; [reflexivity|]. split; [reflexivity|].
  apply (erase_it_result Sample.two 1 0 [(1, 10)] (1, 10) eq_refl eq_refl).
Defined.

Lemma rehash_to_requested_count_witness :
  wf Sample.two ∧
  dge (loadFactor Sample.two) (getMaxLoadFactor Sample.two) = false ∧
  0 < 6 ∧
  (∀ k, 0 < k ≤ size Sample.two →
        dgt (ddiv (of_size k) (of_size 6)) (getMaxLoadFactor Sample.two) = false) ∧
  rehash Sample.int_hash Sample.int_equal Sample.sizes 1 6 Sample.two
  = Ret Sample.six ∧
  bucketSize Sample.six = 6 ∧ (6 = bucketSize Sample.two → Sample.six = Sample.two).
Proof.
  assert (wf Sample.two) as Hwf
    by apply (reachable_wf _ _ _ _ _ Sample_two_reachable).
  assert (∀ k, 0 < k ≤ size Sample.two →
            dgt (ddiv (of_size k) (of_size 6)) (getMaxLoadFactor Sample.two) = false)
    as Hfit.
  { intros k Hk. change (size Sample.two) with 2 in Hk.
    assert (k = 1 ∨ k = 2) as [-> | ->] by lia; reflexivity. }
  split; [exact Hwf|]. split; [reflexivity|]. split; [lia|]. split; [exact Hfit|].
  split; [reflexivity|].
  apply (rehash_to_requested_count Sample.int_hash Sample.int_equal Sample.sizes
           1 6 Sample.two Sample.six Hwf eq_refl ltac:(lia) Hfit eq_refl).
Defined.
